(** * ktbind: a shallow embedding of the C++/Kotlin binding header

    The development follows [cpp/include/ktbind/ktbind.hpp].  Compile-time
    string machinery and the [ArgType] trait family come first, then the value
    conversions, the call adapters with their exception translation, the
    per-thread [Environment], and the load routine
    [java_initialization_impl].

    The Java Native Interface itself is not part of the repository.  Where
    the header calls into it, the call is modelled by its documented effect
    on an explicit [JNIEnv] state (pending exception, object fields,
    registered natives); every such place says so. *)

From Stdlib Require Import ZArith Lia List Ascii String Bool Arith Permutation.
From Stdlib Require OrderedTypeEx.
From stdpp Require Import base tactics option list strings gmap.

Import ListNotations.
Set Warnings "-register-all".
Local Open Scope Z_scope.

(** ** Constants of [jni.h] *)

Definition jint := Z.
Definition JNI_OK : jint := 0.
Definition JNI_ERR : jint := -1.
Definition JNI_EDETACHED : jint := -2.
Definition JNI_EVERSION : jint := -3.
Definition JNI_EINVAL : jint := -6.
Definition JNI_VERSION_1_6 : jint := 65542. (* 0x00010006 *)

(** ** Compile-time strings *)

Module Text.

(** [std::array<char, N>{}]: value-initialised, all zero. *)
Definition zero_array (n : nat) : list ascii := replicate n Ascii.zero.

(** [std::string_view(to_char_array<...>::value, arr.size())]. *)
Definition view (arr : list ascii) : string := string_of_list_ascii arr.

(** [num_digits]: recursion on [n / 10]; [n] itself bounds its depth. *)
Fixpoint num_digits_fuel (fuel n : nat) : nat :=
  match fuel with
  | O => 1
  | S fuel' => if (n <? 10)%nat then 1 else (num_digits_fuel fuel' (n / 10) + 1)%nat
  end.
Definition num_digits (n : nat) : nat := num_digits_fuel n n.

(** The [while (i > 0)] loop of [integer_to_digits::impl]. *)
Fixpoint digits_loop (i : nat) (n : nat) (arr : list ascii) : list ascii :=
  match i with
  | O => arr
  | S i' =>
      digits_loop i' (n / 10)
        (<[i' := ascii_of_nat (nat_of_ascii "0" + n mod 10)]> arr)
  end.

Definition integer_to_digits (n : nat) : string :=
  let len := num_digits n in
  view (digits_loop len n (zero_array len)).

(** [replace<S, O, N>]: a fresh array filled index by index. *)
Fixpoint replace_loop (s : list ascii) (i : nat) (o n : ascii)
    (arr : list ascii) : list ascii :=
  match s with
  | [] => arr
  | c :: s' =>
      replace_loop s' (S i) o n
        (<[i := if Ascii.eqb c o then n else c]> arr)
  end.

Definition replace (s : string) (o n : ascii) : string :=
  let cs := list_ascii_of_string s in
  view (replace_loop cs 0 o n (zero_array (length cs))).

(** The [append] lambda of [join::impl]: [arr[i++] = c] for each [c]. *)
Fixpoint join_append (cs : list ascii) (st : nat * list ascii)
    : nat * list ascii :=
  match cs with
  | [] => st
  | c :: cs' => join_append cs' (S (fst st), <[fst st := c]> (snd st))
  end.

(** [join<Strs...>]: the fold expression [(append(Strs), ...)] over an
    array of the summed length. *)
Definition join (strs : list string) : string :=
  let len := fold_right (fun s acc => (String.length s + acc)%nat) O strs in
  view (snd (fold_left (fun st s => join_append (list_ascii_of_string s) st)
               strs (O, zero_array len))).

(** [join_sep<Sep, Items...>]. *)
Definition join_sep (sep : string) (items : list string) : string :=
  match items with
  | [] => EmptyString
  | [item] => item
  | head :: tail => join (head :: map (fun t => join [sep; t]) tail)
  end.

End Text.

(** ** Native types, as the templates see them *)

(** The C++ data model decides [sizeof(long)], which [IntegerArgType]
    dispatches on. *)
Inductive data_model := LP64 | LLP64.

Inductive ctype : Type :=
  | Void
  | Bool
  | Char | SChar | UChar
  | UInt16
  | Short
  | Int | Long | LongLong
  | UInt | ULong | ULongLong
  | Float | Double
  | Ptr (t : ctype)                       (* T* *)
  | ArrayTag (t : ctype)                  (* java::Array<T> *)
  | ObjectTag                             (* java::Object *)
  | StdString
  | Vector (t : ctype)
  | StdList (t : ctype)
  | UnorderedSet (t : ctype)
  | OrderedSet (t : ctype)
  | UnorderedMap (k v : ctype)
  | OrderedMap (k v : ctype)
  | StdFunction (r : ctype) (args : list ctype)
  | DataClass (qualified_name : string)   (* DECLARE_DATA_CLASS *)
  | NativeClass (qualified_name : string) (* DECLARE_NATIVE_CLASS *)
  | Undeclared (name : string)            (* no ArgType specialisation *)
  | Const (t : ctype)
  | LRef (t : ctype)
  | RRef (t : ctype).

Definition int16_t := Short.
Definition int32_t := Int.

Module Traits.

Definition remove_reference (t : ctype) : ctype :=
  match t with
  | LRef u | RRef u => u
  | _ => t
  end.

Fixpoint remove_cv (t : ctype) : ctype :=
  match t with
  | Const u => remove_cv u
  | _ => t
  end.

(** [std::decay_t] on the object types that occur in signatures. *)
Definition decay (t : ctype) : ctype := remove_cv (remove_reference t).

Definition sizeof_long (dm : data_model) : nat :=
  match dm with LP64 => 8 | LLP64 => 4 end%nat.

(** The element types with an
    [ArgType<std::vector<T>> : FundamentalArgArrayType<T>] specialisation. *)
Definition has_array_specialization (t : ctype) : bool :=
  match t with
  | Char | SChar | UChar | UInt16 | Short
  | Int | Long | LongLong | UInt | ULong | ULongLong
  | Float | Double => true
  | _ => false
  end.

(** [ArgType<T>::class_name], for the specialisations that declare one. *)
Definition class_name (dm : data_model) (t : ctype) : string :=
  match t with
  | Bool => "java/lang/Boolean"
  | Char | SChar | UChar => "java/lang/Byte"
  | UInt16 => "java/lang/Character"
  | Short => "java/lang/Short"
  | Int | UInt => "java/lang/Integer"
  | Long | ULong =>
      if (sizeof_long dm <=? 4)%nat then "java/lang/Integer" else "java/lang/Long"
  | LongLong | ULongLong => "java/lang/Long"
  | Ptr _ => "java/lang/Long"
  | Float => "java/lang/Float"
  | Double => "java/lang/Double"
  | ObjectTag => "java/lang/Object"
  | StdString => "java/lang/String"
  | Vector _ | StdList _ => "java/util/List"
  | UnorderedSet _ | OrderedSet _ => "java/util/Set"
  | UnorderedMap _ _ | OrderedMap _ _ => "java/util/Map"
  | DataClass q | NativeClass q => Text.replace q "." "/"
  | _ => ""
  end.

(** [CompositeArgType<T, J>::type_sig]. *)
Definition composite_sig (dm : data_model) (t : ctype) : string :=
  Text.join ["L"; class_name dm t; ";"].

(** [ArgType<T>::type_sig].  The primary template (an undeclared or a
    cv/reference-qualified type) carries the empty string. *)
Fixpoint type_sig (dm : data_model) (t : ctype) : string :=
  match t with
  | Void => "V"
  | Bool => "Z"
  | Char | SChar | UChar => "B"
  | UInt16 => "C"
  | Short => "S"
  | Int | UInt => "I"
  | Long | ULong => if (sizeof_long dm <=? 4)%nat then "I" else "J"
  | LongLong | ULongLong => "J"
  | Ptr _ => "J"
  | Float => "F"
  | Double => "D"
  | ArrayTag u => Text.join ["["; type_sig dm u]
  | Vector u =>
      if has_array_specialization u
      then Text.join ["["; type_sig dm u]
      else composite_sig dm t
  | ObjectTag | StdString | StdList _
  | UnorderedSet _ | OrderedSet _ | UnorderedMap _ _ | OrderedMap _ _
  | DataClass _ | NativeClass _ => composite_sig dm t
  | StdFunction _ args =>
      Text.join ["Lkotlin/jvm/functions/Function";
                 Text.integer_to_digits (length args); ";"]
  | Undeclared _ | Const _ | LRef _ | RRef _ => ""
  end.

(** The shapes [Function<...>] is specialised for. *)
Inductive callable : Type :=
  | Plain (R : ctype) (Args : list ctype)             (* R(Args...) *)
  | FreePointer (R : ctype) (Args : list ctype)       (* R(\*\)(Args...) *)
  | MemberPointer (T R : ctype) (Args : list ctype)   (* R(T::\*\)(Args...) *)
  | ConstMemberPointer (T R : ctype) (Args : list ctype).

(** [Function<R(Args...)>::callable_sig<param_sig, return_sig>]. *)
Definition callable_sig (param_sig return_sig : string) : string :=
  Text.join ["("; param_sig; ")"; return_sig].

Definition plain_signature (dm : data_model) (R : ctype) (Args : list ctype)
    : string :=
  let param_sig := Text.join (map (type_sig dm) Args) in
  let return_sig := type_sig dm R in
  callable_sig param_sig return_sig.

(** [Function<F>::signature]. *)
Definition signature (dm : data_model) (f : callable) : string :=
  match f with
  | Plain R Args => plain_signature dm R Args
  | FreePointer R Args => plain_signature dm R (map decay Args)
  | MemberPointer _ R Args => plain_signature dm R (map decay Args)
  | ConstMemberPointer _ R Args => plain_signature dm R (map decay Args)
  end.

End Traits.

(** ** The per-thread [Environment] *)

Module Environment.

(** What the virtual machine answers on this thread.  [GetEnv] reports
    [JNI_OK] for a thread the host has attached (or that was attached
    since), [JNI_EVERSION] for an unsupported version and
    [JNI_EDETACHED] otherwise; [attach_succeeds] is what
    [AttachCurrentThread] will do. *)
Record vm_thread := {
  vm_attached : bool;
  version_supported : bool;
  attach_succeeds : bool
}.

(** Calls into the invocation interface, oldest first. *)
Inductive vm_call :=
  | GetEnv (rc : jint)
  | AttachCurrentThread (rc : jint)
  | DetachCurrentThread.

(** [_vm] is the class-wide static, [_env] and [_attached] belong to the
    [thread_local] instance [this_thread]. *)
Record state := {
  _vm : option nat;
  _env : option nat;
  _attached : bool;
  vm_side : vm_thread;
  calls : list vm_call
}.

Definition log (c : vm_call) (s : state) : state :=
  {| _vm := _vm s; _env := _env s; _attached := _attached s;
     vm_side := vm_side s; calls := calls s ++ [c] |}.

(** The [JNIEnv*] the virtual machine hands out for this thread. *)
Definition thread_env : nat := 1%nat.

(** A failed [assert] aborts the process: [None]. *)
Definition load (vm : nat) (s : state) : option state :=
  match _vm s with
  | None => Some {| _vm := Some vm; _env := _env s; _attached := _attached s;
                    vm_side := vm_side s; calls := calls s |}
  | Some _ => None
  end.

Definition unload (vm : nat) (s : state) : option state :=
  match _vm s with
  | Some _ => Some {| _vm := None; _env := _env s; _attached := _attached s;
                      vm_side := vm_side s; calls := calls s |}
  | None => None
  end.

Definition setEnv (env : nat) (s : state) : option state :=
  match _vm s with
  | None => None
  | Some _ =>
      match _env s with
      | Some e =>
          if Nat.eqb e env
          then Some {| _vm := _vm s; _env := Some env; _attached := _attached s;
                       vm_side := vm_side s; calls := calls s |}
          else None
      | None => Some {| _vm := _vm s; _env := Some env; _attached := _attached s;
                        vm_side := vm_side s; calls := calls s |}
      end
  end.

(** [JavaVM::GetEnv] on this thread. *)
Definition vm_GetEnv (t : vm_thread) : jint * option nat :=
  if negb (version_supported t) then (JNI_EVERSION, None)
  else if vm_attached t then (JNI_OK, Some thread_env)
  else (JNI_EDETACHED, None).

(** [getEnv]: the state afterwards and the pointer returned. *)
Definition getEnv (s : state) : option (state * option nat) :=
  match _vm s with
  | None => None
  | Some _ =>
      match _env s with
      | Some e => Some (s, Some e)
      | None =>
          let '(rc, e) := vm_GetEnv (vm_side s) in
          let s1 := log (GetEnv rc) s in
          if Z.eqb rc JNI_OK then
            Some ({| _vm := _vm s1; _env := e; _attached := _attached s1;
                     vm_side := vm_side s1; calls := calls s1 |}, e)
          else if Z.eqb rc JNI_EDETACHED then
            if attach_succeeds (vm_side s) then
              let s2 := log (AttachCurrentThread JNI_OK) s1 in
              Some ({| _vm := _vm s2; _env := Some thread_env; _attached := true;
                       vm_side := {| vm_attached := true;
                                     version_supported := version_supported (vm_side s2);
                                     attach_succeeds := attach_succeeds (vm_side s2) |};
                       calls := calls s2 |}, Some thread_env)
            else
              Some (log (AttachCurrentThread JNI_ERR) s1, None)
          else Some (s1, None)
      end
  end.

(** [~Environment], run when the thread ends. *)
Definition destroy (s : state) : state :=
  match _env s with
  | None => s
  | Some _ =>
      match _vm s with
      | Some _ =>
          if _attached s then
            let s1 := log DetachCurrentThread s in
            {| _vm := _vm s1; _env := _env s1; _attached := _attached s1;
               vm_side := {| vm_attached := false;
                             version_supported := version_supported (vm_side s1);
                             attach_succeeds := attach_succeeds (vm_side s1) |};
               calls := calls s1 |}
          else s
      | None => s
      end
  end.

(** What can happen on a thread before it ends. *)
Inductive op := Load (vm : nat) | Unload (vm : nat) | SetEnv (env : nat) | GetEnvOp.

Definition step (o : op) (s : state) : option state :=
  match o with
  | Load vm => load vm s
  | Unload vm => unload vm s
  | SetEnv e => setEnv e s
  | GetEnvOp => fst <$> getEnv s
  end.

Fixpoint run (ops : list op) (s : state) : option state :=
  match ops with
  | [] => Some s
  | o :: ops' => match step o s with Some s' => run ops' s' | None => None end
  end.

(** A thread that has not touched [this_thread] yet. *)
Definition fresh (vm : option nat) (t : vm_thread) : state :=
  {| _vm := vm; _env := None; _attached := false; vm_side := t; calls := [] |}.

(** This layer attached the thread: a successful [AttachCurrentThread]. *)
Definition attached_here (cs : list vm_call) : bool :=
  existsb (fun c => match c with AttachCurrentThread rc => Z.eqb rc JNI_OK | _ => false end) cs.

Definition detached_here (cs : list vm_call) : bool :=
  existsb (fun c => match c with DetachCurrentThread => true | _ => false end) cs.

(** The detachment rule as the specification words it: at the end of the
    thread, detached exactly when attached by this layer. *)
Definition detach_iff_attached (vm : option nat) (t : vm_thread) (ops : list op) : Prop :=
  forall s, run ops (fresh vm t) = Some s ->
    detached_here (calls (destroy s)) = attached_here (calls s).

End Environment.

Module EnvironmentFacts.
Import Environment.

(** What every reachable state of a thread satisfies. *)
Record inv (s : state) : Prop := {
  inv_attached : attached_here (calls s) = _attached s;
  inv_detached : detached_here (calls s) = false;
  inv_env : _attached s = true -> is_Some (_env s)
}.

(** The same for a thread the host attached: it stays attached on the
    virtual machine's side and [_attached] stays clear. *)
Definition host_inv (s : state) : Prop :=
  vm_attached (vm_side s) = true /\ _attached s = false.

Lemma attached_here_snoc cs c :
  attached_here (cs ++ [c]) =
  attached_here cs || match c with AttachCurrentThread rc => Z.eqb rc JNI_OK | _ => false end.
Proof. unfold attached_here. rewrite existsb_app. simpl. now rewrite orb_false_r. Qed.

Lemma detached_here_snoc cs c :
  detached_here (cs ++ [c]) =
  detached_here cs || match c with DetachCurrentThread => true | _ => false end.
Proof. unfold detached_here. rewrite existsb_app. simpl. now rewrite orb_false_r. Qed.

Lemma fresh_inv vm t : inv (fresh vm t).
Proof. split; simpl; [reflexivity | reflexivity | discriminate]. Qed.

Ltac open_step :=
  repeat match goal with
    | H : context [match ?x with _ => _ end] |- _ => destruct x eqn:?; simpl in H
    | H : Some _ = Some _ |- _ => injection H as H; subst
    | H : None = Some _ |- _ => discriminate H
    | H : (_, _) = (_, _) |- _ => injection H as ? ?; subst
    end.

Lemma getEnv_inv s s' e : inv s -> getEnv s = Some (s', e) -> inv s'.
Proof.
  intros [Ha Hd He] H. unfold getEnv, vm_GetEnv in H.
  destruct (_vm s); [|discriminate].
  destruct (_env s) eqn:Henv.
  { injection H as <- <-. now split. }
  assert (Hoff : _attached s = false).
  { destruct (_attached s); [|reflexivity].
    destruct (He eq_refl) as [? ?]; discriminate. }
  destruct (negb (version_supported (vm_side s))); simpl in H.
  { injection H as <- <-. split; simpl;
      rewrite ?attached_here_snoc, ?detached_here_snoc, ?Ha, ?Hd, ?Hoff; simpl;
      auto; discriminate. }
  destruct (vm_attached (vm_side s)); simpl in H.
  { injection H as <- <-. split; simpl;
      rewrite ?attached_here_snoc, ?detached_here_snoc, ?Ha, ?Hd, ?Hoff; simpl;
      eauto; discriminate. }
  destruct (attach_succeeds (vm_side s)); injection H as <- <-; split; simpl;
    rewrite ?attached_here_snoc, ?detached_here_snoc, ?Ha, ?Hd, ?Hoff; simpl;
    eauto; discriminate.
Qed.

Lemma step_inv o s s' : inv s -> step o s = Some s' -> inv s'.
Proof.
  intros Hi H. destruct o; simpl in H.
  - unfold load in H. destruct (_vm s); [discriminate|]. injection H as <-.
    destruct Hi. now split.
  - unfold unload in H. destruct (_vm s); [|discriminate]. injection H as <-.
    destruct Hi. now split.
  - unfold setEnv in H. destruct Hi as [Ha Hd He].
    destruct (_vm s); [|discriminate].
    destruct (_env s); [destruct (Nat.eqb _ _); [|discriminate]|];
      injection H as <-; split; simpl; eauto.
  - destruct (getEnv s) as [[s1 e]|] eqn:Hg; [|discriminate].
    injection H as <-. eauto using getEnv_inv.
Qed.

Lemma run_inv ops : forall s s', inv s -> run ops s = Some s' -> inv s'.
Proof.
  induction ops as [|o ops IH]; intros s s' Hi H; simpl in H.
  - now injection H as <-.
  - destruct (step o s) eqn:Hs; [|discriminate]. eauto using step_inv.
Qed.

Lemma step_host_inv o s s' : host_inv s -> step o s = Some s' -> host_inv s'.
Proof.
  intros [Hv Ha] H. destruct o; simpl in H.
  - unfold load in H. destruct (_vm s); [discriminate|]. injection H as <-. now split.
  - unfold unload in H. destruct (_vm s); [|discriminate]. injection H as <-. now split.
  - unfold setEnv in H. destruct (_vm s); [|discriminate].
    destruct (_env s); [destruct (Nat.eqb _ _); [|discriminate]|];
      injection H as <-; now split.
  - destruct (getEnv s) as [[s1 e]|] eqn:Hg; [|discriminate]. injection H as <-.
    unfold getEnv, vm_GetEnv in Hg. destruct (_vm s); [|discriminate].
    destruct (_env s); [injection Hg as <- <-; now split|].
    rewrite Hv in Hg.
    destruct (negb (version_supported (vm_side s))); simpl in Hg;
      injection Hg as <- <-; now split.
Qed.

Lemma run_host_inv ops : forall s s', host_inv s -> run ops s = Some s' -> host_inv s'.
Proof.
  induction ops as [|o ops IH]; intros s s' Hi H; simpl in H.
  - now injection H as <-.
  - destruct (step o s) eqn:Hs; [|discriminate]. eauto using step_host_inv.
Qed.

(** The sequence on which the rule as worded breaks: the library is
    loaded, a native thread obtains its environment (and is attached by
    [getEnv]), the library is unloaded, the thread ends. *)
Definition unload_first : list op := [Load 7%nat; GetEnvOp; Unload 7%nat].
Definition native_thread : vm_thread :=
  {| vm_attached := false; version_supported := true; attach_succeeds := true |}.

(** C9, as stated, fails: the thread was attached by [getEnv], yet
    [~Environment] does not detach it once [_vm] has been reset. *)
Lemma C9_detach_iff_attached_fails :
  ~ detach_iff_attached None native_thread unload_first.
Proof.
  intros H. specialize (H _ eq_refl). vm_compute in H. discriminate H.
Qed.

(** C9, amended: when a thread ends, [~Environment] detaches it exactly
    when this layer attached it (a successful [AttachCurrentThread] in
    [getEnv]) and the process-wide [_vm] is still set; a thread the host
    had attached is never detached. *)
Theorem C9_detach_rule vm t ops s :
  run ops (fresh vm t) = Some s ->
  detached_here (calls (destroy s))
    = attached_here (calls s) && bool_decide (is_Some (_vm s))
  /\ (vm_attached t = true -> detached_here (calls (destroy s)) = false).
Proof.
  intros Hrun.
  pose proof (run_inv _ _ _ (fresh_inv vm t) Hrun) as [Ha Hd He].
  assert (Hmain : detached_here (calls (destroy s))
                  = attached_here (calls s) && bool_decide (is_Some (_vm s))).
  { unfold destroy. rewrite Ha.
    destruct (_env s) eqn:Henv.
    - destruct (_vm s) eqn:Hvm.
      + destruct (_attached s); simpl.
        * rewrite detached_here_snoc, Hd. reflexivity.
        * exact Hd.
      + rewrite Hd. now rewrite andb_false_r.
    - rewrite Hd. destruct (_attached s) eqn:Hatt; [|reflexivity].
      destruct (He eq_refl) as [? ?]. discriminate. }
  split; [exact Hmain|].
  intros Hhost. rewrite Hmain, Ha.
  assert (Hh : host_inv (fresh vm t)) by (now split).
  destruct (run_host_inv _ _ _ Hh Hrun) as [_ ->]. reflexivity.
Qed.

Lemma C9_detach_rule_witness :
  detached_here (calls (destroy
     {| _vm := Some 7%nat; _env := Some thread_env; _attached := true;
        vm_side := {| vm_attached := true; version_supported := true;
                      attach_succeeds := true |};
        calls := [GetEnv JNI_EDETACHED; AttachCurrentThread JNI_OK] |}))
    = true.
Proof.
  pose proof (C9_detach_rule None native_thread [Load 7%nat; GetEnvOp] _ eq_refl) as [H _].
  exact H.
Defined.

End EnvironmentFacts.

(** ** The state behind a [JNIEnv*], and native control flow *)

(** A [jthrowable]: the object's identity, its class, and what
    [getMessage()] returns ([None] for Java's [null]: a [Throwable] created
    without a detail message). *)
Record jthrowable := {
  thr_id : nat;
  thr_class : string;
  thr_message : option string
}.

(** The JNI functions the header calls, as they appear in a trace. *)
Inductive jni_call :=
  | FindClass (name : string)
  | GetObjectClass
  | GetMethodID (name sig : string)
  | GetStaticMethodID (name sig : string)
  | GetFieldID (name sig : string)
  | NewObject (class : string)
  | AllocObject (class : string)
  | CallMethod (name : string)
  | CallStaticMethod (name : string)
  | GetField (name : string)
  | SetField (name : string)
  | NewStringUTF
  | GetStringUTFLength
  | GetStringUTFChars
  | NewPrimitiveArray (sig : string) (len : nat)
  | SetArrayRegion (sig : string) (start len : nat)
  | GetArrayLength
  | GetArrayRegion (sig : string) (start len : nat)
  | RegisterNatives (class : string) (count : nat).

(** The adapter a [void*] entry point stands for: [object_termination<T>()],
    [object_initialization<T>(args)] or [callable<T, func>(args)], the
    wrapped function being named by its symbol. *)
Inductive entry_point :=
  | object_termination (T : ctype)
  | object_initialization (T : ctype) (args : list ctype)
  | callable_adapter (T : ctype) (func : string) (args : list ctype).

(** An entry of the table [RegisterNatives] fills. *)
Record native_method := {
  nm_class : string;
  nm_name : string;
  nm_signature : string;
  nm_entry : entry_point
}.

Record world := {
  pending : option jthrowable;        (* ExceptionCheck / ExceptionOccurred *)
  created : nat;                      (* throwables created so far *)
  nativePointer : gmap nat Z;         (* the field of each holder object *)
  live : gset Z;                      (* native instances not yet deleted *)
  natives : list native_method;       (* installed by RegisterNatives *)
  trace : list jni_call
}.

Definition set_pending (p : option jthrowable) (w : world) : world :=
  {| pending := p; created := created w; nativePointer := nativePointer w;
     live := live w; natives := natives w; trace := trace w |}.

Definition set_nativePointer (m : gmap nat Z) (w : world) : world :=
  {| pending := pending w; created := created w; nativePointer := m;
     live := live w; natives := natives w; trace := trace w |}.

Definition set_live (l : gset Z) (w : world) : world :=
  {| pending := pending w; created := created w; nativePointer := nativePointer w;
     live := l; natives := natives w; trace := trace w |}.

Definition add_natives (ms : list native_method) (w : world) : world :=
  {| pending := pending w; created := created w; nativePointer := nativePointer w;
     live := live w; natives := natives w ++ ms; trace := trace w |}.

Definition emit (cs : list jni_call) (w : world) : world :=
  {| pending := pending w; created := created w; nativePointer := nativePointer w;
     live := live w; natives := natives w; trace := trace w ++ cs |}.

(** The virtual machine raises a new throwable: it becomes the pending one. *)
Definition raise (class : string) (message : option string) (w : world) : world :=
  {| pending := Some {| thr_id := created w; thr_class := class; thr_message := message |};
     created := S (created w); nativePointer := nativePointer w;
     live := live w; natives := natives w; trace := trace w |}.

Definition ExceptionCheck (w : world) : bool :=
  match pending w with Some _ => true | None => false end.

Definition ExceptionClear (w : world) : world := set_pending None w.

(** [ThrowNew]: a new instance of [class] with the given message. *)
Definition ThrowNew (class : string) (message : string) (w : world) : world :=
  raise class (Some message) w.

(** What a C++ [throw] carries.  [JavaException] is the header's wrapper;
    every other exception derived from [std::exception] is told by its
    [what()]; anything else is not caught by the adapters. *)
Record JavaException := {
  ex : option jthrowable;      (* jthrowable ex = nullptr *)
  message : string
}.

Inductive thrown :=
  | ThrowJava (e : JavaException)
  | ThrowStd (what : string)
  | ThrowOther.

(** Native code returns, throws, or has no defined behaviour. *)
Inductive outcome (A : Type) :=
  | Return (a : A)
  | Throw (t : thrown)
  | Undefined.
Arguments Return {A} a.
Arguments Throw {A} t.
Arguments Undefined {A}.

Definition M (A : Type) : Type := world -> world * outcome A.

Definition ret {A} (a : A) : M A := fun w => (w, Return a).

Definition bind {A B} (m : M A) (k : A -> M B) : M B :=
  fun w =>
    match m w with
    | (w', Return a) => k a w'
    | (w', Throw t) => (w', Throw t)
    | (w', Undefined) => (w', Undefined)
    end.

Definition throw {A} (t : thrown) : M A := fun w => (w, Throw t).
Definition undefined {A} : M A := fun w => (w, Undefined).
Definition call (cs : list jni_call) : M unit := fun w => (emit cs w, Return tt).
Definition modify (f : world -> world) : M unit := fun w => (f w, Return tt).

Notation "'let*' x ':=' m 'in' k" := (bind m (fun x => k))
  (at level 10, x name, m at level 100, k at level 200, only parsing).

(** [JavaException::JavaException(JNIEnv* env)].  With an exception pending
    it takes the reference, clears the pending state and copies the message
    out through [GetStringUTFChars]; a [null] message object reaches
    [GetStringUTFChars] and the assignment from [const char*] unchecked. *)
Definition JavaException_ctor : M JavaException :=
  fun w =>
    match pending w with
    | Some t =>
        let w1 := ExceptionClear w in
        let w2 := emit [GetObjectClass; GetMethodID "getMessage" "()Ljava/lang/String;";
                        CallMethod "getMessage"] w1 in
        match thr_message t with
        | Some m => (emit [GetStringUTFChars] w2, Return {| ex := Some t; message := m |})
        | None => (emit [GetStringUTFChars] w2, Undefined)
        end
    | None => (w, Return {| ex := None; message := "" |})
    end.

(** [throw JavaException(env)]. *)
Definition throw_JavaException {A} : M A :=
  bind JavaException_ctor (fun e => throw (ThrowJava e)).

(** [env->Throw(obj)]: [obj] becomes the pending exception;
    a null reference has no defined meaning. *)
Definition JNI_Throw (obj : option jthrowable) : M unit :=
  match obj with
  | Some t => modify (set_pending (Some t))
  | None => undefined
  end.

(** [exception_handler]. *)
Definition exception_handler (what : string) (w : world) : world :=
  if negb (ExceptionCheck w)
  then ThrowNew "java/lang/Exception" what (emit [FindClass "java/lang/Exception"] w)
  else w.

(** [throw_exception]. *)
Definition throw_exception (reason : string) (w : world) : world :=
  let w1 := if ExceptionCheck w then ExceptionClear w else w in
  ThrowNew "java/lang/Exception" reason (emit [FindClass "java/lang/Exception"] w1).

(** ** Human-readable declarations ([kotlin_type]) *)

Module Kotlin.
Import Traits.

(** [kotlin_type_specialization<template_type, arg_types...>]. *)
Definition kotlin_type_specialization (template_type : string) (arg_types : list string)
    : string :=
  Text.join [template_type; "<"; Text.join_sep ", " arg_types; ">"].

Definition qualified_name (t : ctype) : string :=
  match t with
  | ObjectTag => "java.lang.Object"
  | StdString => "java.lang.String"
  | Vector _ | StdList _ => "java.util.List"
  | UnorderedSet _ | OrderedSet _ => "java.util.Set"
  | UnorderedMap _ _ | OrderedMap _ _ => "java.util.Map"
  | DataClass q | NativeClass q => q
  | _ => ""
  end.

(** [function_params<std::index_sequence<I...>>::value], from index [i]. *)
Fixpoint function_params_from (kt : ctype -> string) (i : nat) (Args : list ctype)
    : list string :=
  match Args with
  | [] => []
  | a :: Args' =>
      Text.join ["arg"; Text.integer_to_digits i; ": "; kt a]
        :: function_params_from kt (S i) Args'
  end.

Fixpoint kotlin_type (dm : data_model) (t : ctype) : string :=
  match t with
  | Void => "Unit"
  | Bool => "Boolean"
  | Char | SChar | UChar => "Byte"
  | UInt16 => "Char"
  | Short => "Short"
  | Int | UInt => "Int"
  | Long | ULong => if (sizeof_long dm <=? 4)%nat then "Int" else "Long"
  | LongLong | ULongLong => "Long"
  | Ptr _ => "Long"
  | Float => "Float"
  | Double => "Double"
  | ArrayTag u => kotlin_type_specialization "Array" [kotlin_type dm u]
  | Vector u =>
      if has_array_specialization u
      then Text.join [kotlin_type dm u; "Array"]
      else kotlin_type_specialization (qualified_name t) [kotlin_type dm u]
  | StdList u | UnorderedSet u | OrderedSet u =>
      kotlin_type_specialization (qualified_name t) [kotlin_type dm u]
  | UnorderedMap k v | OrderedMap k v =>
      kotlin_type_specialization (qualified_name t) [kotlin_type dm k; kotlin_type dm v]
  | ObjectTag | StdString | DataClass _ | NativeClass _ => qualified_name t
  | StdFunction r args =>
      (* kotlin_lambda_type = callable_sig<kotlin_params, kotlin_lambda_return> *)
      callable_sig
        (Text.join_sep ", "
           ((fix params (i : nat) (l : list ctype) : list string :=
               match l with
               | [] => []
               | a :: l' =>
                   Text.join ["arg"; Text.integer_to_digits i; ": "; kotlin_type dm a]
                     :: params (S i) l'
               end) O args))
        (Text.join [" -> "; kotlin_type dm r])
  | Undeclared _ | Const _ | LRef _ | RRef _ => ""
  end.

(** [Function<R(Args...)>::kotlin_type]. *)
Definition plain_kotlin_type (dm : data_model) (R : ctype) (Args : list ctype) : string :=
  let kotlin_params := Text.join_sep ", " (function_params_from (kotlin_type dm) O Args) in
  let kotlin_return := Text.join [": "; kotlin_type dm R] in
  callable_sig kotlin_params kotlin_return.

(** [Function<F>::kotlin_type]. *)
Definition friendly (dm : data_model) (f : callable) : string :=
  match f with
  | Plain R Args => plain_kotlin_type dm R Args
  | FreePointer R Args
  | MemberPointer _ R Args
  | ConstMemberPointer _ R Args => plain_kotlin_type dm R (map decay Args)
  end.

End Kotlin.

(** ** The binding registry *)

(** [std::map<std::string_view, V>]: entries in key order.  [update k f d m]
    is [f] applied in place to [m[k]], where [operator[]] inserts the
    value-initialised [d] for a key not yet present. *)
Module StdMap.

Fixpoint update {V : Type} (k : string) (f : V -> V) (d : V) (m : list (string * V))
    : list (string * V) :=
  match m with
  | [] => [(k, f d)]
  | (k', v) :: m' =>
      match String.compare k k' with
      | Eq => (k', f v) :: m'
      | Lt => (k, f d) :: m
      | Gt => (k', v) :: update k f d m'
      end
  end.

Fixpoint find {V : Type} (k : string) (m : list (string * V)) : option V :=
  match m with
  | [] => None
  | (k', v) :: m' => if String.eqb k k' then Some v else find k m'
  end.

End StdMap.

Record FunctionBinding := {
  name : string;
  signature : string;
  is_member : bool;
  function_entry_point : entry_point;
  friendly_signature : string
}.

(** ** Java values on the wire *)

(** Objects are told by their content: a string by its modified UTF-8
    form, a boxed primitive by class and value, a primitive array by its
    element signature and elements, collections by their elements in
    iteration order, a data-class instance by its fields.  Holder objects
    and function objects have an identity only; what they refer to lives in
    the [world]. *)
Inductive jobject : Type :=
  | JNull
  | JString (utf : string)
  | JBoxed (class : string) (v : Z)
  | JPrimArray (sig : string) (vs : list Z)
  | JList (xs : list jobject)
  | JSet (class : string) (xs : list jobject)
  | JMap (class : string) (entries : list (jobject * jobject))
  | JData (class : string) (fields : list (string * string * jvalue))
  | JHolder (id : nat)
  | JFunction (id : nat)
with jvalue : Type :=
  | JPrimV (v : Z)
  | JObjV (o : jobject).

Module Wire.
Import Traits.

(** *** Primitive representations and [static_cast] *)

Inductive prim :=
  | PBool
  | PChar | PSChar | PUChar
  | PUInt16
  | PShort
  | PInt | PLong | PLongLong
  | PUInt | PULong | PULongLong
  | PFloat | PDouble.

Definition ctype_of_prim (p : prim) : ctype :=
  match p with
  | PBool => Bool
  | PChar => Char | PSChar => SChar | PUChar => UChar
  | PUInt16 => UInt16
  | PShort => Short
  | PInt => Int | PLong => Long | PLongLong => LongLong
  | PUInt => UInt | PULong => ULong | PULongLong => ULongLong
  | PFloat => Float | PDouble => Double
  end.

(** How a value is held: an integer of some width, a [bool], or an IEEE
    value carried as its bit pattern. *)
Inductive repr :=
  | Unsigned (bits : Z)
  | Signed (bits : Z)
  | Boolean
  | Floating (bits : Z).

Definition wrap_unsigned (bits z : Z) : Z := z mod 2 ^ bits.
Definition wrap_signed (bits z : Z) : Z :=
  (z + 2 ^ (bits - 1)) mod 2 ^ bits - 2 ^ (bits - 1).

(** [static_cast] to a type held as [r], of a value of the same kind
    (integer to integer or [bool], floating to the same floating type). *)
Definition cast (r : repr) (z : Z) : Z :=
  match r with
  | Unsigned b => wrap_unsigned b z
  | Signed b => wrap_signed b z
  | Boolean => if Z.eqb z 0 then 0 else 1
  | Floating _ => z
  end.

Definition in_range (r : repr) (z : Z) : Prop :=
  match r with
  | Unsigned b => 0 <= z < 2 ^ b
  | Signed b => - 2 ^ (b - 1) <= z < 2 ^ (b - 1)
  | Boolean => z = 0 \/ z = 1
  | Floating b => 0 <= z < 2 ^ b
  end.

Definition integral (p : prim) : bool :=
  match p with PFloat | PDouble => false | _ => true end.

Definition has_array (p : prim) : bool :=
  has_array_specialization (ctype_of_prim p).

(** [primitive_type], the stem of the unboxing accessor. *)
Definition primitive_type (dm : data_model) (p : prim) : string :=
  match p with
  | PBool => "boolean"
  | PChar | PSChar | PUChar => "byte"
  | PUInt16 => "char"
  | PShort => "short"
  | PInt | PUInt => "int"
  | PLong | PULong => if (sizeof_long dm <=? 4)%nat then "int" else "long"
  | PLongLong | PULongLong => "long"
  | PFloat => "float"
  | PDouble => "double"
  end.

(** The classes with the six [java.lang.Number] accessors. *)
Definition is_number_class (c : string) : bool :=
  existsb (String.eqb c)
    ["java/lang/Byte"; "java/lang/Short"; "java/lang/Integer";
     "java/lang/Long"; "java/lang/Float"; "java/lang/Double"].

Definition has_accessor (c acc : string) : bool :=
  if is_number_class c then
    existsb (String.eqb acc)
      ["byteValue"; "shortValue"; "intValue"; "longValue"; "floatValue"; "doubleValue"]
  else if String.eqb c "java/lang/Boolean" then String.eqb acc "booleanValue"
  else if String.eqb c "java/lang/Character" then String.eqb acc "charValue"
  else false.

(** [value.data()] read as a C string: up to the first NUL. *)
Fixpoint c_str (s : string) : string :=
  match s with
  | EmptyString => EmptyString
  | String c s' => if Ascii.eqb c Ascii.zero then EmptyString else String c (c_str s')
  end.

(** Modified UTF-8, the encoding [NewStringUTF] reads and
    [GetStringUTFChars] writes.  A UTF-16 code unit takes one byte from
    U+0001 to U+007F, two bytes for U+0000 and from U+0080 to U+07FF,
    three bytes from U+0800 on; a supplementary character is its two
    surrogates, three bytes each.  Every code unit has one encoding: the
    shortest, and [C0 80] for U+0000.  No byte is zero, and none is [F0]
    or above: the four-byte forms of standard UTF-8 are not part of it. *)
Definition continuation (c : ascii) : bool :=
  (128 <=? nat_of_ascii c)%nat && (nat_of_ascii c <? 192)%nat.

Fixpoint modified_utf8 (s : string) : bool :=
  match s with
  | EmptyString => true
  | String c s1 =>
      let b := nat_of_ascii c in
      if (b =? 0)%nat then false
      else if (b <? 128)%nat then modified_utf8 s1
      else if (b <? 192)%nat then false
      else if (b <? 224)%nat then
        match s1 with
        | String c2 s2 =>
            continuation c2
            && ((194 <=? b)%nat || ((b =? 192)%nat && (nat_of_ascii c2 =? 128)%nat))
            && modified_utf8 s2
        | EmptyString => false
        end
      else if (b <? 240)%nat then
        match s1 with
        | String c2 (String c3 s3) =>
            continuation c2 && continuation c3
            && ((225 <=? b)%nat || (160 <=? nat_of_ascii c2)%nat)
            && modified_utf8 s3
        | _ => false
        end
      else false
  end.

(** IEEE 754 binary32 and binary64 values as bit patterns: the sign
    bit, then exponent and fraction.  Without the sign bit the patterns
    grow with the absolute value, up to infinity; the patterns above it
    are the NaN. *)
Definition fraction_bits (bits : Z) : Z := if bits =? 32 then 23 else 52.
Definition magnitude (bits z : Z) : Z := z mod 2 ^ (bits - 1).
Definition infinity (bits : Z) : Z := 2 ^ (bits - 1) - 2 ^ fraction_bits bits.
Definition is_nan (bits z : Z) : bool := infinity bits <? magnitude bits z.

(** A number that grows with the value; the two zeros share it. *)
Definition float_rank (bits z : Z) : Z :=
  if z <? 2 ^ (bits - 1) then magnitude bits z else - magnitude bits z.

(** [operator<] and [operator==] of [float] and [double]: false when
    an operand is a NaN. *)
Definition float_less (bits a b : Z) : bool :=
  negb (is_nan bits a) && negb (is_nan bits b) && (float_rank bits a <? float_rank bits b).
Definition float_equal (bits a b : Z) : bool :=
  negb (is_nan bits a) && negb (is_nan bits b) && (float_rank bits a =? float_rank bits b).

(** The width of what [java.lang.Float] and [java.lang.Double] box. *)
Definition boxed_float (class : string) : option Z :=
  if String.eqb class "java/lang/Float" then Some 32
  else if String.eqb class "java/lang/Double" then Some 64
  else None.

(** [equals]/[compareTo] as hash and tree collections apply them to
    keys: decided by content for strings and boxed primitives ([Float]
    and [Double] compare the bits, and take every NaN for the same
    value); any other two objects are distinct. *)
Definition jequal (a b : jobject) : bool :=
  match a, b with
  | JString s, JString t => String.eqb s t
  | JBoxed c v, JBoxed d w =>
      String.eqb c d
      && (Z.eqb v w
          || match boxed_float c with
             | Some bits => is_nan bits v && is_nan bits w
             | None => false
             end)
  | _, _ => false
  end.

Definition class_of (o : jobject) : string :=
  match o with
  | JString _ => "java/lang/String"
  | JBoxed c _ => c
  | JPrimArray sig _ => sig
  | JList _ => "java/util/ArrayList"
  | JSet c _ | JMap c _ | JData c _ => c
  | _ => ""
  end.

(** [Comparable], and mutually so with what a tree collection holds. *)
Definition comparable (o : jobject) : bool :=
  match o with JString _ | JBoxed _ _ => true | _ => false end.

Definition comparable_with (o : jobject) (xs : list jobject) : bool :=
  comparable o && forallb (fun x => String.eqb (class_of x) (class_of o)) xs.

Definition is_tree (class : string) : bool :=
  String.eqb class "java/util/TreeSet" || String.eqb class "java/util/TreeMap".

Definition insert_at {A : Type} (i : nat) (x : A) (l : list A) : list A :=
  take i l ++ x :: drop i l.

(** [GetMethodID] found no such method: [NoSuchMethodError] is pending
    and the wrappers [Method]/[StaticMethod] throw. *)
Definition method_missing {A : Type} (name sig : string) : M A :=
  let* _ := call [GetMethodID name sig] in
  let* _ := modify (raise "java/lang/NoSuchMethodError" (Some name)) in
  throw_JavaException.

(** The same when the lookup is the first thing done with the object. *)
Definition no_such_method {A : Type} (name sig : string) : M A :=
  let* _ := call [GetObjectClass] in method_missing name sig.

(** *** The [ArgType] family

    [N] is [native_type], [J] is [java_type]. *)
Record ArgType (N J : Type) := {
  wire_sig : string;                       (* type_sig *)
  native_value : J -> M N;
  java_value : N -> M J;
  java_box : J -> M jobject;
  java_unbox : jobject -> M J;
  (* object fields: the wire value a field holds, and back *)
  to_field : J -> jvalue;
  of_field : jvalue -> option J
}.
Arguments wire_sig {N J} _.
Arguments native_value {N J} _ _.
Arguments java_value {N J} _ _.
Arguments java_box {N J} _ _.
Arguments java_unbox {N J} _ _.
Arguments to_field {N J} _ _.
Arguments of_field {N J} _ _.

Definition obj_of_field (v : jvalue) : option jobject :=
  match v with JObjV o => Some o | JPrimV _ => None end.
Definition prim_of_field (v : jvalue) : option Z :=
  match v with JPrimV z => Some z | JObjV _ => None end.

Section Conversions.

Variable dm : data_model.
(** Whether plain [char] is signed on the target. *)
Variable char_signed : bool.
(** Where a new key lands in the iteration order of a Java hash or tree
    collection of the given class, among the keys already there. *)
Variable java_slot : string -> jobject -> list jobject -> nat.
(** The numeric conversion a [Number] accessor applies to a box of
    another class (from class, accessor, value). *)
Variable number_conversion : string -> string -> Z -> Z.

Definition native_repr (p : prim) : repr :=
  match p with
  | PBool => Boolean
  | PChar => if char_signed then Signed 8 else Unsigned 8
  | PSChar => Signed 8
  | PUChar => Unsigned 8
  | PUInt16 => Unsigned 16
  | PShort => Signed 16
  | PInt => Signed 32
  | PLong => Signed (8 * Z.of_nat (sizeof_long dm))
  | PLongLong => Signed 64
  | PUInt => Unsigned 32
  | PULong => Unsigned (8 * Z.of_nat (sizeof_long dm))
  | PULongLong => Unsigned 64
  | PFloat => Floating 32
  | PDouble => Floating 64
  end.

(** [jboolean], [jbyte], [jchar], [jshort], [jint], [jlong], [jfloat],
    [jdouble]. *)
Definition java_repr (p : prim) : repr :=
  match p with
  | PBool => Unsigned 8
  | PChar | PSChar | PUChar => Signed 8
  | PUInt16 => Unsigned 16
  | PShort => Signed 16
  | PInt | PUInt => Signed 32
  | PLong | PULong => if (sizeof_long dm <=? 4)%nat then Signed 32 else Signed 64
  | PLongLong | PULongLong => Signed 64
  | PFloat => Floating 32
  | PDouble => Floating 64
  end.

(** [FundamentalArgType<T, J>] with the members of the concrete
    [ArgType<T>]. *)
Definition FundamentalArgType (p : prim) : ArgType Z Z :=
  let T := ctype_of_prim p in
  let value_initializer :=
    Text.join ["("; type_sig dm T; ")"; "L"; class_name dm T; ";"] in
  let get_value_func := Text.join [primitive_type dm p; "Value"] in
  let get_value_func_sig := Text.join ["("; ")"; type_sig dm T] in
  {| wire_sig := type_sig dm T;
     native_value := fun value => ret (cast (native_repr p) value);
     java_value := fun value => ret (cast (java_repr p) value);
     java_box := fun value =>
       let* _ := call [FindClass (class_name dm T);
                       GetStaticMethodID "valueOf" value_initializer;
                       CallStaticMethod "valueOf"] in
       ret (JBoxed (class_name dm T) value);
     java_unbox := fun obj =>
       match obj with
       | JNull => undefined
       | JBoxed c v =>
           if has_accessor c get_value_func then
             let* _ := call [GetObjectClass;
                             GetMethodID get_value_func get_value_func_sig;
                             CallMethod get_value_func] in
             ret (if String.eqb c (class_name dm T) then v
                  else number_conversion c get_value_func v)
           else no_such_method get_value_func get_value_func_sig
       | _ => no_such_method get_value_func get_value_func_sig
       end;
     to_field := JPrimV;
     of_field := prim_of_field |}.

(** [ArgType<std::string>]. *)
Definition StringArgType : ArgType string jobject :=
  {| wire_sig := composite_sig dm StdString;
     native_value := fun value =>
       match value with
       | JString utf =>
           let* _ := call [GetStringUTFLength] in
           if (0 <? String.length utf)%nat
           then let* _ := call [GetStringUTFChars] in ret utf
           else ret EmptyString
       | _ => undefined
       end;
     java_value := fun value =>
       (* [NewStringUTF(value.data())] reads a C string in modified
          UTF-8; the JNI gives no meaning to other bytes *)
       let* _ := call [NewStringUTF] in
       if modified_utf8 (c_str value) then ret (JString (c_str value))
       else undefined;
     java_box := fun value => ret value;
     java_unbox := fun obj => ret obj;
     to_field := JObjV;
     of_field := obj_of_field |}.

(** [FundamentalArgArrayType<T>]: the whole range in one region call. *)
Definition FundamentalArgArrayType (p : prim) : ArgType (list Z) jobject :=
  let sig := type_sig dm (ctype_of_prim p) in
  {| wire_sig := Text.join ["["; sig];
     native_value := fun arr =>
       match arr with
       | JPrimArray s vs =>
           if String.eqb s sig then
             let* _ := call [GetArrayLength; GetArrayRegion sig 0 (length vs)] in
             ret (map (cast (native_repr p)) vs)
           else undefined
       | _ => undefined
       end;
     java_value := fun arr =>
       let* _ := call [NewPrimitiveArray sig (length arr);
                       SetArrayRegion sig 0 (length arr)] in
       ret (JPrimArray sig (map (cast (java_repr p)) arr));
     java_box := fun value => ret value;
     java_unbox := fun obj => ret obj;
     to_field := JObjV;
     of_field := obj_of_field |}.

(** The loop of [ListArgType<L, T>::native_value]: one [get], one
    [java_unbox] and one [native_value] per element, then [push_back]. *)
Fixpoint list_native_loop {N J} (E : ArgType N J) (elements : list jobject)
    (nativeList : list N) : M (list N) :=
  match elements with
  | [] => ret nativeList
  | listElement :: rest =>
      let* _ := call [CallMethod "get"] in
      let* j := java_unbox E listElement in
      let* n := native_value E j in
      list_native_loop E rest (nativeList ++ [n])
  end.

(** The loop of [ListArgType<L, T>::java_value]. *)
Fixpoint list_java_loop {N J} (E : ArgType N J) (nativeList : list N)
    (arrayList : list jobject) : M (list jobject) :=
  match nativeList with
  | [] => ret arrayList
  | element :: rest =>
      let* j := java_value E element in
      let* arrayListElement := java_box E j in
      let* _ := call [CallMethod "add"] in
      list_java_loop E rest (arrayList ++ [arrayListElement])
  end.

(** [ListArgType<L, T>], for [std::vector] and [std::list] alike. *)
Definition ListArgType {N J} (E : ArgType N J) : ArgType (list N) jobject :=
  {| wire_sig := Text.join ["L"; "java/util/List"; ";"];
     native_value := fun list =>
       match list with
       | JNull => undefined
       | JList xs =>
           let* _ := call [GetObjectClass;
                           GetMethodID "size" (Traits.signature dm (Plain int32_t []));
                           CallMethod "size";
                           GetMethodID "get" (Traits.signature dm (Plain ObjectTag [int32_t]))] in
           list_native_loop E xs []
       | JSet _ _ | JMap _ _ =>
           (* a collection with [size] but no [get] *)
           let* _ := call [GetObjectClass;
                           GetMethodID "size" (Traits.signature dm (Plain int32_t []));
                           CallMethod "size"] in
           method_missing "get" (Traits.signature dm (Plain ObjectTag [int32_t]))
       | _ => no_such_method "size" (Traits.signature dm (Plain int32_t []))
       end;
     java_value := fun nativeList =>
       let* _ := call [FindClass "java/util/ArrayList";
                       GetMethodID "<init>" (Traits.signature dm (Plain Void [Int]));
                       NewObject "java/util/ArrayList";
                       GetMethodID "add" (Traits.signature dm (Plain Bool [ObjectTag]))] in
       let* xs := list_java_loop E nativeList [] in
       ret (JList xs);
     java_box := fun value => ret value;
     java_unbox := fun obj => ret obj;
     to_field := JObjV;
     of_field := obj_of_field |}.

(** Keys of the native associative containers: [operator<] for the
    ordered ones, [operator==] and the position a hash assigns for the
    unordered ones. *)
Record NativeKey (K : Type) := {
  key_less : K -> K -> bool;
  key_equal : K -> K -> bool;
  key_slot : K -> list K -> nat
}.
Arguments key_less {K} _ _ _.
Arguments key_equal {K} _ _ _.
Arguments key_slot {K} _ _ _.

(** [std::set]/[std::map] against [std::unordered_set]/[std::unordered_map]. *)
Inductive container := Ordered | Unordered.

Definition concrete_set_class (c : container) : string :=
  match c with Ordered => "java/util/TreeSet" | Unordered => "java/util/HashSet" end.
Definition concrete_map_class (c : container) : string :=
  match c with Ordered => "java/util/TreeMap" | Unordered => "java/util/HashMap" end.

(** [std::set::insert]. *)
Fixpoint ordered_insert {K} (less : K -> K -> bool) (x : K) (s : list K) : list K :=
  match s with
  | [] => [x]
  | y :: s' =>
      if less x y then x :: s
      else if less y x then y :: ordered_insert less x s'
      else s
  end.

(** [nativeSet.insert(x)]. *)
Definition native_insert {K} (ops : NativeKey K) (c : container) (x : K) (s : list K)
    : list K :=
  match c with
  | Ordered => ordered_insert (key_less ops) x s
  | Unordered =>
      if existsb (key_equal ops x) s then s
      else insert_at (key_slot ops x s) x s
  end.

(** [std::map::operator[]] followed by assignment. *)
Fixpoint ordered_assign {K V} (less : K -> K -> bool) (k : K) (v : V)
    (m : list (K * V)) : list (K * V) :=
  match m with
  | [] => [(k, v)]
  | (k', v') :: m' =>
      if less k k' then (k, v) :: m
      else if less k' k then (k', v') :: ordered_assign less k v m'
      else (k', v) :: m'
  end.

Fixpoint replace_value {K V} (eq : K -> K -> bool) (k : K) (v : V)
    (m : list (K * V)) : list (K * V) :=
  match m with
  | [] => []
  | (k', v') :: m' =>
      if eq k k' then (k', v) :: m' else (k', v') :: replace_value eq k v m'
  end.

(** [nativeMap[key] = value]. *)
Definition native_assign {K V} (ops : NativeKey K) (c : container) (k : K) (v : V)
    (m : list (K * V)) : list (K * V) :=
  match c with
  | Ordered => ordered_assign (key_less ops) k v m
  | Unordered =>
      if existsb (key_equal ops k) (map fst m) then replace_value (key_equal ops) k v m
      else insert_at (key_slot ops k (map fst m)) (k, v) m
  end.

(** [Set.add] through [CallBooleanMethod]: a tree set refuses an
    element that is not comparable with its content
    ([ClassCastException] stays pending, the set is unchanged), a
    present element is not added again. *)
Definition java_add (class : string) (o : jobject) (xs : list jobject)
    : M (list jobject) :=
  let* _ := call [CallMethod "add"] in
  if is_tree class && negb (comparable_with o xs) then
    let* _ := modify (raise "java/lang/ClassCastException" None) in ret xs
  else if existsb (jequal o) xs then ret xs
  else ret (insert_at (java_slot class o xs) o xs).

(** [Map.put] through [CallObjectMethod]. *)
Definition java_put (class : string) (k v : jobject) (m : list (jobject * jobject))
    : M (list (jobject * jobject)) :=
  let* _ := call [CallMethod "put"] in
  if is_tree class && negb (comparable_with k (map fst m)) then
    let* _ := modify (raise "java/lang/ClassCastException" None) in ret m
  else if existsb (jequal k) (map fst m) then ret (replace_value jequal k v m)
  else ret (insert_at (java_slot class k (map fst m)) (k, v) m).

(** The [while (hasNext)] loop of [SetArgType<S, E>::native_value]. *)
Fixpoint set_native_loop {N J} (E : ArgType N J) (ops : NativeKey N) (c : container)
    (elements : list jobject) (nativeSet : list N) : M (list N) :=
  match elements with
  | [] => ret nativeSet
  | setElement :: rest =>
      let* _ := call [CallMethod "next"] in
      let* element := java_unbox E setElement in
      let* n := native_value E element in
      let* _ := call [CallMethod "hasNext"] in
      set_native_loop E ops c rest (native_insert ops c n nativeSet)
  end.

(** The loop of [SetArgType<S, E>::java_value]. *)
Fixpoint set_java_loop {N J} (E : ArgType N J) (class : string) (nativeSet : list N)
    (set : list jobject) : M (list jobject) :=
  match nativeSet with
  | [] => ret set
  | item :: rest =>
      let* j := java_value E item in
      let* element := java_box E j in
      let* set' := java_add class element set in
      set_java_loop E class rest set'
  end.

(** [SetArgType<S, E>] with [ArgType<S>::concrete_class_name]. *)
Definition SetArgType {N J} (E : ArgType N J) (ops : NativeKey N) (c : container)
    : ArgType (list N) jobject :=
  {| wire_sig := Text.join ["L"; "java/util/Set"; ";"];
     native_value := fun set =>
       match set with
       | JNull => undefined
       | JSet _ xs | JList xs =>
           let* _ := call [GetObjectClass;
                           GetMethodID "iterator" "()Ljava/util/Iterator;";
                           FindClass "java/util/Iterator";
                           GetMethodID "hasNext" "()Z";
                           GetMethodID "next" "()Ljava/lang/Object;";
                           CallMethod "iterator"; CallMethod "hasNext"] in
           set_native_loop E ops c xs []
       | _ => no_such_method "iterator" "()Ljava/util/Iterator;"
       end;
     java_value := fun nativeSet =>
       let class := concrete_set_class c in
       let* _ := call [FindClass class;
                       GetMethodID "<init>" (Traits.signature dm (Plain Void []));
                       GetMethodID "add" (Traits.signature dm (Plain Bool [ObjectTag]));
                       NewObject class] in
       let* xs := set_java_loop E class nativeSet [] in
       ret (JSet class xs);
     java_box := fun value => ret value;
     java_unbox := fun obj => ret obj;
     to_field := JObjV;
     of_field := obj_of_field |}.

(** The [while (hasNext)] loop of [MapArgType<M, K, V>::native_value]. *)
Fixpoint map_native_loop {NK JK NV JV} (K : ArgType NK JK) (V : ArgType NV JV)
    (ops : NativeKey NK) (c : container) (entries : list (jobject * jobject))
    (nativeMap : list (NK * NV)) : M (list (NK * NV)) :=
  match entries with
  | [] => ret nativeMap
  | (mapKey, mapValue) :: rest =>
      let* _ := call [CallMethod "next"; CallMethod "getKey"; CallMethod "getValue"] in
      let* key := java_unbox K mapKey in
      let* value := java_unbox V mapValue in
      let* v := native_value V value in
      let* k := native_value K key in
      let* _ := call [CallMethod "hasNext"] in
      map_native_loop K V ops c rest (native_assign ops c k v nativeMap)
  end.

(** The loop of [MapArgType<M, K, V>::java_value]. *)
Fixpoint map_java_loop {NK JK NV JV} (K : ArgType NK JK) (V : ArgType NV JV)
    (class : string) (nativeMap : list (NK * NV)) (map : list (jobject * jobject))
    : M (list (jobject * jobject)) :=
  match nativeMap with
  | [] => ret map
  | item :: rest =>
      let* jk := java_value K (fst item) in
      let* key := java_box K jk in
      let* jv := java_value V (snd item) in
      let* value := java_box V jv in
      let* map' := java_put class key value map in
      map_java_loop K V class rest map'
  end.

(** [MapArgType<M, K, V>] with [ArgType<M>::concrete_class_name]. *)
Definition MapArgType {NK JK NV JV} (K : ArgType NK JK) (V : ArgType NV JV)
    (ops : NativeKey NK) (c : container) : ArgType (list (NK * NV)) jobject :=
  {| wire_sig := Text.join ["L"; "java/util/Map"; ";"];
     native_value := fun map =>
       match map with
       | JNull => undefined
       | JMap _ entries =>
           let* _ := call [GetObjectClass;
                           GetMethodID "entrySet" "()Ljava/util/Set;";
                           FindClass "java/util/Set";
                           GetMethodID "iterator" "()Ljava/util/Iterator;";
                           FindClass "java/util/Iterator";
                           GetMethodID "hasNext" "()Z";
                           GetMethodID "next" "()Ljava/lang/Object;";
                           FindClass "java/util/Map$Entry";
                           GetMethodID "getKey" "()Ljava/lang/Object;";
                           GetMethodID "getValue" "()Ljava/lang/Object;";
                           CallMethod "entrySet"; CallMethod "iterator";
                           CallMethod "hasNext"] in
           map_native_loop K V ops c entries []
       | _ => no_such_method "entrySet" "()Ljava/util/Set;"
       end;
     java_value := fun nativeMap =>
       let class := concrete_map_class c in
       let* _ := call [FindClass class;
                       GetMethodID "<init>" (Traits.signature dm (Plain Void []));
                       GetMethodID "put"
                         (Traits.signature dm (Plain ObjectTag [ObjectTag; ObjectTag]));
                       NewObject class] in
       let* entries := map_java_loop K V class nativeMap [] in
       ret (JMap class entries);
     java_box := fun value => ret value;
     java_unbox := fun obj => ret obj;
     to_field := JObjV;
     of_field := obj_of_field |}.

(** *** The value types, closed under the containers

    Element types of sets and key types of maps are the ones for
    which both sides define the needed order, equality and hash without
    user code: arithmetic types and strings. *)
Inductive ktype := KPrim (p : prim) | KString.

Inductive vtype :=
  | VPrim (p : prim)
  | VString
  | VVector (t : vtype)
  | VList (t : vtype)
  | VSet (c : container) (k : ktype)
  | VMap (c : container) (k : ktype) (v : vtype).

Definition ctype_of_key (k : ktype) : ctype :=
  match k with KPrim p => ctype_of_prim p | KString => StdString end.

Fixpoint ctype_of (t : vtype) : ctype :=
  match t with
  | VPrim p => ctype_of_prim p
  | VString => StdString
  | VVector u => Vector (ctype_of u)
  | VList u => StdList (ctype_of u)
  | VSet Ordered k => OrderedSet (ctype_of_key k)
  | VSet Unordered k => UnorderedSet (ctype_of_key k)
  | VMap Ordered k v => OrderedMap (ctype_of_key k) (ctype_of v)
  | VMap Unordered k v => UnorderedMap (ctype_of_key k) (ctype_of v)
  end.

Definition key_native (k : ktype) : Type :=
  match k with KPrim _ => Z | KString => string end.
Definition key_java (k : ktype) : Type :=
  match k with KPrim _ => Z | KString => jobject end.

(** [ArgType<T>::native_type]. *)
Fixpoint ntype (t : vtype) : Type :=
  match t with
  | VPrim _ => Z
  | VString => string
  | VVector u | VList u => list (ntype u)
  | VSet _ k => list (key_native k)
  | VMap _ k v => list (key_native k * ntype v)
  end.

(** [ArgType<T>::java_type]. *)
Definition jtype (t : vtype) : Type :=
  match t with VPrim _ => Z | _ => jobject end.

(** Where the hash of the native unordered containers puts a new key. *)
Variable hash_slot_int : Z -> list Z -> nat.
Variable hash_slot_string : string -> list string -> nat.

Definition float_bits (p : prim) : Z := match p with PFloat => 32 | _ => 64 end.

Definition key_ops (k : ktype) : NativeKey (key_native k) :=
  match k as k0 return NativeKey (key_native k0) with
  | KPrim p =>
      if integral p then
        {| key_less := Z.ltb; key_equal := Z.eqb; key_slot := hash_slot_int |}
      else
        {| key_less := float_less (float_bits p); key_equal := float_equal (float_bits p);
           key_slot := hash_slot_int |}
  | KString =>
      {| key_less := String.ltb; key_equal := String.eqb; key_slot := hash_slot_string |}
  end.

Definition KeyArgType (k : ktype) : ArgType (key_native k) (key_java k) :=
  match k as k0 return ArgType (key_native k0) (key_java k0) with
  | KPrim p => FundamentalArgType p
  | KString => StringArgType
  end.

(** The [FundamentalArgArrayType] specialisations of
    [ArgType<std::vector<T>>]. *)
Definition array_specialization (t : vtype)
    : option (ArgType (list (ntype t)) jobject) :=
  match t as t0 return option (ArgType (list (ntype t0)) jobject) with
  | VPrim p => if has_array p then Some (FundamentalArgArrayType p) else None
  | _ => None
  end.

(** The flat array types: their [java_type] is [jarray], and
    [java_unbox] takes a [jarray]. *)
Definition is_flat_array (t : vtype) : bool :=
  match t with
  | VVector (VPrim p) => has_array p
  | _ => false
  end.

(** Whether [ArgType<T>::native_value] can be instantiated.  The loops
    over a Java list and over the entries of a Java map hand
    [ArgType<E>::java_unbox] the [jobject] they got from the collection;
    [FundamentalArgArrayType<E>::java_unbox(JNIEnv*, jarray)] does not
    take it, so a flat array type cannot be the element of a sequence
    nor the value of a map that native code receives. *)
Fixpoint inbound (t : vtype) : bool :=
  match t with
  | VPrim _ | VString | VSet _ _ => true
  | VVector u | VList u | VMap _ _ u => negb (is_flat_array u) && inbound u
  end.

(** [ArgType<T>], resolved as the compiler resolves the specialisations.
    Where [inbound t] is false the header has [java_value] only; the
    [native_value] given here for such a type stands for no code. *)
Fixpoint ArgType_of (t : vtype) : ArgType (ntype t) (jtype t) :=
  match t as t0 return ArgType (ntype t0) (jtype t0) with
  | VPrim p => FundamentalArgType p
  | VString => StringArgType
  | VVector u =>
      match array_specialization u with
      | Some A => A
      | None => ListArgType (ArgType_of u)
      end
  | VList u => ListArgType (ArgType_of u)
  | VSet c k => SetArgType (KeyArgType k) (key_ops k) c
  | VMap c k v => MapArgType (KeyArgType k) (ArgType_of v) (key_ops k) c
  end.

End Conversions.

Arguments key_less {K} _ _ _.
Arguments key_equal {K} _ _ _.
Arguments key_slot {K} _ _ _.

(** A world in which nothing has happened yet. *)
Definition quiet : world :=
  {| pending := None; created := O; nativePointer := gmap_empty; live := empty;
     natives := []; trace := [] |}.

End Wire.

(** ** Data classes: conversion field by field *)

Module DataClass.
Import Wire.

(** A pointer to member [R T::*]: what [obj->*member] reads and what
    assigning through it changes. *)
Record member (T R : Type) := {
  member_get : T -> R;
  member_set : R -> T -> T
}.
Arguments member_get {T R} _ _.
Arguments member_set {T R} _ _ _.

(** A resolved [jfieldID], by the name and signature it was looked up
    with. *)
Definition Field : Type := string * string.

Definition fields_of (o : jobject) : list (string * string * jvalue) :=
  match o with JData _ fs => fs | _ => [] end.

Fixpoint lookup_field (name sig : string) (fs : list (string * string * jvalue))
    : option jvalue :=
  match fs with
  | [] => None
  | (n, s, v) :: fs' =>
      if String.eqb n name && String.eqb s sig then Some v
      else lookup_field name sig fs'
  end.

Fixpoint store_field (name sig : string) (v : jvalue)
    (fs : list (string * string * jvalue)) : list (string * string * jvalue) :=
  match fs with
  | [] => []
  | (n, s, v') :: fs' =>
      if String.eqb n name && String.eqb s sig then (n, s, v) :: fs'
      else (n, s, v') :: store_field name sig v fs'
  end.

Definition set_field (f : Field) (v : jvalue) (o : jobject) : jobject :=
  match o with
  | JData c fs => JData c (store_field (fst f) (snd f) v fs)
  | _ => o
  end.

(** [LocalClassRef::getField]: [GetFieldID], and [JavaException] when the
    class has no such field. *)
Definition getField (obj : jobject) (name sig : string) : M Field :=
  let* _ := call [GetFieldID name sig] in
  match lookup_field name sig (fields_of obj) with
  | Some _ => ret (name, sig)
  | None =>
      let* _ := modify (raise "java/lang/NoSuchFieldError" (Some name)) in
      throw_JavaException
  end.

(** [ArgType<T>::native_field_value]: [Get<Type>Field] or
    [GetObjectField], then [native_value]. *)
Definition native_field_value {N J} (A : ArgType N J) (obj : jobject) (fld : Field)
    : M N :=
  match lookup_field (fst fld) (snd fld) (fields_of obj) with
  | Some v =>
      match of_field A v with
      | Some j => let* _ := call [GetField (fst fld)] in native_value A j
      | None => undefined
      end
  | None => undefined
  end.

(** [ArgType<T>::java_field_value]: [java_value], then [Set<Type>Field]
    or [SetObjectField].  The object is the one under construction; the
    updated object is returned. *)
Definition java_field_value {N J} (A : ArgType N J) (obj : jobject) (fld : Field)
    (value : N) : M jobject :=
  let* j := java_value A value in
  let* _ := call [SetField (fst fld)] in
  ret (set_field fld (to_field A j) obj).

(** [FieldBinding], its two function pointers typed by the native class
    [T] whose [data_class<T>::field] built them. *)
Record FieldBinding (T : Type) := {
  field_name : string;
  field_signature : string;
  get_by_value : jobject -> Field -> T -> M jobject;
  set_by_value : jobject -> Field -> T -> M T
}.
Arguments field_name {T} _.
Arguments field_signature {T} _.
Arguments get_by_value {T} _ _ _ _.
Arguments set_by_value {T} _ _ _ _.

(** [data_class<T>::field<member>(name)]: the binding it pushes. *)
Definition field {T R J} (A : ArgType R J) (m : member T R) (name : string)
    : FieldBinding T :=
  {| field_name := name;
     field_signature := wire_sig A;
     get_by_value := fun obj fld native_object =>
       java_field_value A obj fld (member_get m native_object);
     set_by_value := fun obj fld native_object =>
       let* v := native_field_value A obj fld in
       ret (member_set m v native_object) |}.

Definition is_primitive_sig (sig : string) : bool :=
  existsb (String.eqb sig) ["Z"; "B"; "C"; "S"; "I"; "J"; "F"; "D"].

(** What a field holds in an object made by [AllocObject]: no
    constructor has run. *)
Definition zero_value (sig : string) : jvalue :=
  if is_primitive_sig sig then JPrimV 0 else JObjV JNull.

Definition zero_object (class : string) (decl : list (string * string)) : jobject :=
  JData class (map (fun d => (fst d, snd d, zero_value (snd d))) decl).

Section DataClassArgType.

Context {T : Type}.
(** [ArgType<T>::type_sig], the key into [FieldBindings::value]. *)
Variable type_sig : string.
(** The fields the Java class declares, if [FindClass] resolves it. *)
Variable declared : option (list (string * string)).
(** [T native_object;] *)
Variable default_object : T.
(** [FieldBindings::value[type_sig]]. *)
Variable bindings : list (FieldBinding T).

(** The loop of [native_value]. *)
Fixpoint native_loop (obj : jobject) (bs : list (FieldBinding T)) (native_object : T)
    : M T :=
  match bs with
  | [] => ret native_object
  | binding :: rest =>
      let* fld := getField obj (field_name binding) (field_signature binding) in
      let* native_object' := set_by_value binding obj fld native_object in
      native_loop obj rest native_object'
  end.

(** The loop of [java_value]. *)
Fixpoint java_loop (native_object : T) (bs : list (FieldBinding T)) (obj : jobject)
    : M jobject :=
  match bs with
  | [] => ret obj
  | binding :: rest =>
      let* fld := getField obj (field_name binding) (field_signature binding) in
      let* obj' := get_by_value binding obj fld native_object in
      java_loop native_object rest obj'
  end.

Definition DataClassArgType : ArgType T jobject :=
  {| wire_sig := type_sig;
     native_value := fun obj =>
       match obj with
       | JNull => undefined
       | _ =>
           let* _ := call [GetObjectClass] in
           native_loop obj bindings default_object
       end;
     java_value := fun native_object =>
       let* _ := call [FindClass type_sig] in
       match declared with
       | None =>
           let* _ := modify (raise "java/lang/NoClassDefFoundError" (Some type_sig)) in
           throw_JavaException
       | Some decl =>
           let* _ := call [AllocObject type_sig] in
           java_loop native_object bindings (zero_object type_sig decl)
       end;
     java_box := fun value => ret value;
     java_unbox := fun obj => ret obj;
     to_field := JObjV;
     of_field := obj_of_field |}.

End DataClassArgType.

End DataClass.

(** ** Call adapters *)

Module Adapter.
Import Wire.

(** The parameter pack [Args...] of an adapter, by what it comes to:
    the native arguments that [ArgType<Args>::native_value(env, args)...]
    makes of the wire arguments. *)
Record ArgPack (Ns Js : Type) := { pack_native : Js -> M Ns }.
Arguments pack_native {Ns Js} _ _.

Definition pack_nil : ArgPack unit unit := {| pack_native := fun _ => ret tt |}.

(** The conversions of a pack, parameter by parameter. *)
Inductive conversions : Type -> Type -> Type :=
  | no_more : conversions unit unit
  | one_more {N J Ns Js} (A : ArgType N J) (rest : conversions Ns Js)
      : conversions (N * Ns) (J * Js).

Fixpoint arity {Ns Js} (cs : conversions Ns Js) : nat :=
  match cs with
  | no_more => O
  | one_more _ rest => S (arity rest)
  end.

(** The arguments converted so far. *)
Fixpoint slots {Ns Js} (cs : conversions Ns Js) : Type :=
  match cs with
  | no_more => unit
  | @one_more N _ _ _ _ rest => (option N * slots rest)%type
  end.

Fixpoint no_slots {Ns Js} (cs : conversions Ns Js) : slots cs :=
  match cs as cs0 return slots cs0 with
  | no_more => tt
  | one_more _ rest => (None, no_slots rest)
  end.

(** The conversion of the argument at position [i]. *)
Fixpoint convert_at {Ns Js} (cs : conversions Ns Js) (i : nat)
    : Js -> slots cs -> M (slots cs) :=
  match cs as cs0 in conversions _ Js0 return Js0 -> slots cs0 -> M (slots cs0) with
  | no_more => fun _ s => ret s
  | one_more A rest => fun args s =>
      match i with
      | O => let* n := native_value A (fst args) in ret (Some n, snd s)
      | S i' => let* s' := convert_at rest i' (snd args) (snd s) in ret (fst s, s')
      end
  end.

Fixpoint convert_in {Ns Js} (order : list nat) (cs : conversions Ns Js) (args : Js)
    (s : slots cs) : M (slots cs) :=
  match order with
  | [] => ret s
  | i :: order' =>
      let* s' := convert_at cs i args s in
      convert_in order' cs args s'
  end.

Fixpoint collect {Ns Js} (cs : conversions Ns Js) : slots cs -> option Ns :=
  match cs as cs0 in conversions Ns0 _ return slots cs0 -> option Ns0 with
  | no_more => fun _ => Some tt
  | one_more _ rest => fun s =>
      match fst s, collect rest (snd s) with
      | Some n, Some ns => Some (n, ns)
      | _, _ => None
      end
  end.

(** The pack expansion [func(ArgType<Args>::native_value(env, args)...)].
    The conversions are the operands of one call: each runs as a whole,
    and C++ leaves their order to the compiler (g++ converts the last
    argument first).  [order] is the order taken, a permutation of the
    positions [0 .. arity cs - 1]. *)
Definition pack_in {Ns Js} (order : list nat) (cs : conversions Ns Js) : ArgPack Ns Js :=
  {| pack_native := fun args =>
       let* s := convert_in order cs args (no_slots cs) in
       match collect cs s with
       | Some ns => ret ns
       | None => undefined
       end |}.

(** [result_type] is [void]: the [if constexpr] branches without a
    conversion and without a returned value. *)
Definition VoidResult : ArgType unit unit :=
  {| wire_sig := "V";
     native_value := fun _ => ret tt;
     java_value := fun _ => ret tt;
     java_box := fun _ => ret JNull;
     java_unbox := fun _ => ret tt;
     to_field := fun _ => JObjV JNull;
     of_field := fun _ => None |}.

(** The two handlers every adapter ends with; [java_default] is
    [java_t<result_type>()]. *)
Definition catch_at_boundary {JR : Type} (java_default : JR) (body : M JR) : M JR :=
  fun w =>
    match body w with
    | (w', Return j) => (w', Return j)
    | (w', Throw (ThrowJava e)) =>
        (let* _ := JNI_Throw (ex e) in ret java_default) w'
    | (w', Throw (ThrowStd what)) => (exception_handler what w', Return java_default)
    | (w', Throw ThrowOther) => (w', Throw ThrowOther)
    | (w', Undefined) => (w', Undefined)
    end.

(** The [try] block of [Adapter<func, Args...>::invoke]. *)
Definition invoke_body {Ns Js NR JR} (Args : ArgPack Ns Js) (R : ArgType NR JR)
    (func : Ns -> M NR) (args : Js) : M JR :=
  let* a := pack_native Args args in
  let* result := func a in
  java_value R result.

(** [Adapter<func, Args...>::invoke]. *)
Definition invoke {Ns Js NR JR} (Args : ArgPack Ns Js) (R : ArgType NR JR)
    (java_default : JR) (func : Ns -> M NR) (args : Js) : M JR :=
  catch_at_boundary java_default (invoke_body Args R func args).

(** The handle of a holder: [GetObjectClass], [getField("nativePointer")]
    and [GetLongField]. *)
Definition native_pointer (obj : jobject) : M Z :=
  match obj with
  | JNull => undefined
  | JHolder id =>
      let* _ := call [GetObjectClass; GetFieldID "nativePointer" "J"] in
      fun w =>
        match nativePointer w !! id with
        | Some ptr => (emit [GetField "nativePointer"] w, Return ptr)
        | None =>
            (let* _ := modify (raise "java/lang/NoSuchFieldError" (Some "nativePointer")) in
             throw_JavaException) w
        end
  | _ =>
      let* _ := call [GetObjectClass; GetFieldID "nativePointer" "J"] in
      let* _ := modify (raise "java/lang/NoSuchFieldError" (Some "nativePointer")) in
      throw_JavaException
  end.

(** [msg() << "Object " << class_name << " has already been disposed of."] *)
Definition disposed_message (class_name : string) : string :=
  ("Object " +:+ class_name +:+ " has already been disposed of.")%string.

(** The [try] block of [MemberAdapter<T, func, Args...>::invoke]; [func]
    receives [this]. *)
Definition member_body {Ns Js NR JR} (class_name : string) (Args : ArgPack Ns Js)
    (R : ArgType NR JR) (func : Z -> Ns -> M NR) (obj : jobject) (args : Js) : M JR :=
  let* ptr := native_pointer obj in
  if Z.eqb ptr 0 then throw (ThrowStd (disposed_message class_name))
  else
    let* a := pack_native Args args in
    let* result :=
      (fun w => if decide (ptr ∈ live w) then func ptr a w else (w, Undefined)) in
    java_value R result.

(** [MemberAdapter<T, func, Args...>::invoke]. *)
Definition invoke_member {Ns Js NR JR} (class_name : string) (Args : ArgPack Ns Js)
    (R : ArgType NR JR) (java_default : JR) (func : Z -> Ns -> M NR)
    (obj : jobject) (args : Js) : M JR :=
  catch_at_boundary java_default (member_body class_name Args R func obj args).

(** [delete ptr]: nothing for a null pointer, the end of a live instance
    otherwise; a pointer to no live instance is deleted twice. *)
Definition delete (ptr : Z) : M unit :=
  if Z.eqb ptr 0 then ret tt
  else fun w =>
    if decide (ptr ∈ live w) then (set_live (live w ∖ {[ptr]}) w, Return tt)
    else (w, Undefined).

(** [ArgType<T*>::java_field_value(env, obj, field, value)]. *)
Definition store_pointer (obj : jobject) (value : Z) : M unit :=
  match obj with
  | JHolder id =>
      fun w => (emit [SetField "nativePointer"]
                  (set_nativePointer (<[id := value]> (nativePointer w)) w), Return tt)
  | _ => undefined
  end.

(** The [try] block of [DestroyObjectAdapter<T>::invoke]. *)
Definition destroy_body (obj : jobject) : M unit :=
  let* ptr := native_pointer obj in
  let* _ := delete ptr in
  store_pointer obj 0.

(** [DestroyObjectAdapter<T>::invoke]. *)
Definition invoke_destroy (obj : jobject) : M unit :=
  catch_at_boundary tt (destroy_body obj).

(** *** Callbacks: [ArgType<std::function<R(Args...)>>] *)

Definition unsupported : string :=
  "C++ functions returning a function object to Java/Kotlin are not supported.".

Section Function.

Context {Ns NR JR : Type}.
(** [ArgType<Args>::java_box(env, ArgType<Args>::java_value(env, args))...] *)
Variable box_args : Ns -> M (list jobject).
Variable R : ArgType NR JR.
(** Whether [this_thread.getEnv()] yields an environment. *)
Variable has_env : bool.
(** What the Java function object does when its [invoke] is called:
    the world afterwards (a raised exception is pending in it) and the
    object returned. *)
Variable java_invoke : nat -> list jobject -> world -> world * jobject.

(** The lambda [native_value] returns, for a non-void [R]. *)
Definition proxy (id : nat) (args : Ns) : M NR :=
  if negb has_env then undefined   (* assert(!"consistency failure") *)
  else
    let* boxed := box_args args in
    let* objResult :=
      (fun w => let (w', o) := java_invoke id boxed (emit [CallMethod "invoke"] w) in
                (w', Return o)) in
    let* pending_exception := (fun w => (w, Return (ExceptionCheck w))) in
    if pending_exception : bool then throw_JavaException
    else
      let* j := java_unbox R objResult in
      native_value R j.

(** [sizeof...(Args)], for [type_sig] and [invoke_sig]. *)
Variable arity : nat.
Variable dm : data_model.

Definition invoke_sig : string :=
  Traits.signature dm (Traits.Plain ObjectTag (repeat ObjectTag arity)).

Definition FunctionArgType : ArgType (Ns -> M NR) jobject :=
  {| wire_sig := Traits.type_sig dm (StdFunction Void (repeat Void arity));
     native_value := fun value =>
       match value with
       | JNull => undefined
       | JFunction id =>
           let* _ := call [GetObjectClass; GetMethodID "invoke" invoke_sig] in
           ret (proxy id)
       | _ => no_such_method "invoke" invoke_sig
       end;
     java_value := fun _ => throw (ThrowStd unsupported);
     java_box := fun value => ret value;
     java_unbox := fun obj => ret obj;
     to_field := JObjV;
     of_field := obj_of_field |}.

End Function.

End Adapter.

(** ** Registration *)

Module Registry.

(** A [FieldBinding] as the process-wide table stores it, its closures
    still typed by the class they belong to. *)
Definition AnyFieldBinding : Type := { T : Type & DataClass.FieldBinding T }.

Definition any_name (b : AnyFieldBinding) : string := DataClass.field_name (projT2 b).
Definition any_signature (b : AnyFieldBinding) : string :=
  DataClass.field_signature (projT2 b).

(** [FunctionBindings::value] and [FieldBindings::value]. *)
Record registry := {
  function_bindings : list (string * list FunctionBinding);
  field_bindings : list (string * list AnyFieldBinding)
}.

Definition empty : registry := {| function_bindings := []; field_bindings := [] |}.

Definition push_function (class : string) (b : FunctionBinding) (r : registry) : registry :=
  {| function_bindings :=
       StdMap.update class (fun bindings => bindings ++ [b]) [] (function_bindings r);
     field_bindings := field_bindings r |}.

Definition push_field (sig : string) (b : AnyFieldBinding) (r : registry) : registry :=
  {| function_bindings := function_bindings r;
     field_bindings :=
       StdMap.update sig (fun bindings => bindings ++ [b]) [] (field_bindings r) |}.

Section Builders.
Variable dm : data_model.

(** [native_class<T>::native_class()]. *)
Definition native_class (T : ctype) : registry -> registry :=
  push_function (Traits.class_name dm T)
    {| name := "close";
       signature := Traits.signature dm (Traits.Plain Void []);
       is_member := true;
       function_entry_point := object_termination T;
       friendly_signature := Kotlin.friendly dm (Traits.Plain Void []) |}.

(** [native_class<T>::constructor<F>(name)]; [None] where the
    [static_assert] rejects [F]. *)
Definition constructor (T : ctype) (F : Traits.callable) (name : string) (r : registry)
    : option registry :=
  match F with
  | Traits.Plain _ Args =>
      Some (push_function (Traits.class_name dm T)
              {| name := name;
                 signature := Traits.signature dm F;
                 is_member := false;
                 function_entry_point := object_initialization T Args;
                 friendly_signature := Kotlin.friendly dm F |} r)
  | _ => None
  end.

(** [native_class<T>::function<func>(name)]; [func] is given by its
    symbol and [decltype(func)]. *)
Definition function (T : ctype) (func : string) (func_type : Traits.callable) (name : string)
    (r : registry) : option registry :=
  let entry Args member :=
    Some (push_function (Traits.class_name dm T)
            {| name := name;
               signature := Traits.signature dm func_type;
               is_member := member;
               function_entry_point := callable_adapter T func Args;
               friendly_signature := Kotlin.friendly dm func_type |} r) in
  match func_type with
  | Traits.Plain _ _ => None
  | Traits.FreePointer _ Args => entry Args false
  | Traits.MemberPointer _ _ Args | Traits.ConstMemberPointer _ _ Args => entry Args true
  end.

(** [data_class<T>::field<member>(name)], with [T] the data class's
    C++ type and [N] its values. *)
Definition data_class_field {N R J} (T : ctype) (A : Wire.ArgType R J)
    (m : DataClass.member N R) (name : string) : registry -> registry :=
  push_field (Traits.type_sig dm T) (existT N (DataClass.field A m name)).

End Builders.

End Registry.

(** ** Loading: [java_initialization_impl] *)

Module Load.
Import Registry.

(** What the virtual machine answers during the load.  [FindClass] and
    the lookups are by the exact strings passed; [RegisterNatives]
    accepts a class's table when the class declares every method of it
    as native, and reports [RegisterNatives_failure] otherwise. *)
Record runtime := {
  GetEnv_rc : jint;
  class_exists : string -> bool;
  native_declared : string -> string -> string -> bool;
  RegisterNatives_failure : jint;
  field_declared : string -> string -> string -> bool
}.

(** [LocalClassRef(env, name, std::nothrow)]. *)
Definition FindClass_nothrow (rt : runtime) (class_name : string) : M bool :=
  let* _ := call [FindClass class_name] in
  if class_exists rt class_name then ret true
  else
    let* _ := modify (raise "java/lang/NoClassDefFoundError" (Some class_name)) in
    ret false.

(** The [JNINativeMethod] made from a binding by [std::transform]. *)
Definition JNINativeMethod (class_name : string) (binding : FunctionBinding)
    : native_method :=
  {| nm_class := class_name; nm_name := name binding;
     nm_signature := signature binding;
     nm_entry := function_entry_point binding |}.

Definition accepts (rt : runtime) (class_name : string) (bindings : list FunctionBinding)
    : bool :=
  forallb (fun b => native_declared rt class_name (name b) (signature b)) bindings.

Definition JNI_RegisterNatives (rt : runtime) (class_name : string)
    (bindings : list FunctionBinding) : M jint :=
  let* _ := call [RegisterNatives class_name (length bindings)] in
  if accepts rt class_name bindings then
    let* _ := modify (add_natives (map (JNINativeMethod class_name) bindings)) in
    ret JNI_OK
  else
    let* _ := modify (raise "java/lang/NoSuchMethodError" None) in
    ret (RegisterNatives_failure rt).

(** The first [for] loop; [Some rc] is [return rc] from inside it. *)
Fixpoint register_functions (rt : runtime) (table : list (string * list FunctionBinding))
    : M (option jint) :=
  match table with
  | [] => ret None
  | (class_name, bindings) :: rest =>
      let* found := FindClass_nothrow rt class_name in
      if found : bool then
        let* rc := JNI_RegisterNatives rt class_name bindings in
        if Z.eqb rc JNI_OK then register_functions rt rest
        else ret (Some rc)
      else
        let* _ := modify (throw_exception
          ("Cannot find class '" +:+ class_name
             +:+ "' registered as a native class in C++ code")) in
        ret (Some JNI_ERR)
  end.

(** The inner loop over the fields of one data class. *)
Fixpoint check_fields (rt : runtime) (class_name : string)
    (bindings : list AnyFieldBinding) : M (option jint) :=
  match bindings with
  | [] => ret None
  | binding :: rest =>
      let* _ := call [GetFieldID (any_name binding) (any_signature binding)] in
      if field_declared rt class_name (any_name binding) (any_signature binding)
      then check_fields rt class_name rest
      else
        let* _ := modify (raise "java/lang/NoSuchFieldError" (Some (any_name binding))) in
        let* _ := modify (throw_exception
          ("Cannot find field '" +:+ any_name binding
             +:+ "' with type signature '" +:+ any_signature binding
             +:+ "' in registered class '" +:+ class_name +:+ "'")) in
        ret (Some JNI_ERR)
  end.

(** The second [for] loop. *)
Fixpoint check_properties (rt : runtime) (table : list (string * list AnyFieldBinding))
    : M (option jint) :=
  match table with
  | [] => ret None
  | (class_name, bindings) :: rest =>
      let* found := FindClass_nothrow rt class_name in
      if found : bool then
        let* r := check_fields rt class_name bindings in
        match r with
        | Some rc => ret (Some rc)
        | None => check_properties rt rest
        end
      else
        let* _ := modify (throw_exception
          ("Cannot find class '" +:+ class_name
             +:+ "' registered as a data class in C++ code")) in
        ret (Some JNI_ERR)
  end.

(** The [try] block. *)
Definition load_body (rt : runtime) (initializer : registry -> M registry) : M jint :=
  let* reg := initializer Registry.empty in
  let* r1 := register_functions rt (function_bindings reg) in
  match r1 with
  | Some rc => ret rc
  | None =>
      let* pending_exception := (fun w => (w, Return (ExceptionCheck w))) in
      if pending_exception : bool then ret JNI_ERR
      else
        let* r2 := check_properties rt (field_bindings reg) in
        match r2 with
        | Some rc => ret rc
        | None => ret JNI_VERSION_1_6
        end
  end.

(** [java_initialization_impl(vm, initializer)], together with the
    [Environment] of the loading thread. *)
Definition java_initialization_impl (rt : runtime) (vm : nat)
    (initializer : registry -> M registry) (e : Environment.state)
    : M (jint * Environment.state) :=
  if negb (Z.eqb (GetEnv_rc rt) JNI_OK) then ret (GetEnv_rc rt, e)
  else
    match Environment.load vm e with
    | None => undefined
    | Some e1 =>
        match Environment.setEnv Environment.thread_env e1 with
        | None => undefined
        | Some e2 =>
            fun w =>
              match load_body rt initializer w with
              | (w', Return rc) => (w', Return (rc, e2))
              | (w', Throw (ThrowJava _))
              | (w', Throw (ThrowStd _)) => (w', Return (JNI_ERR, e2))
              | (w', Throw ThrowOther) => (w', Throw ThrowOther)
              | (w', Undefined) => (w', Undefined)
              end
        end
    end.

End Load.

(** ** Native classes: creation, and passing by reference and by value *)

Module Lifecycle.
Import Wire Adapter.

(** [operator new] and [AllocObject] hand out what is not in use: an
    address for the new instance, given the addresses of the live ones,
    and an identity for the new Java object, given the existing holders. *)
Record allocator := {
  new_address : gset Z -> Z;
  new_object : gset nat -> nat
}.

(** The Java class an object is allocated from: whether [AllocObject]
    can instantiate it (it is neither abstract nor an interface), and
    whether it declares the field [nativePointer] of type [long]. *)
Record holder_class := {
  hc_name : string;
  instantiable : bool;
  has_nativePointer : bool
}.

Section Create.
Variable alloc : allocator.

(** [new T(args...)]: the constructor runs; the instance is live once it
    has returned. *)
Definition new_instance {Ns} (ctor : Ns -> M unit) (a : Ns) : M Z :=
  let* _ := ctor a in
  fun w =>
    let ptr := new_address alloc (live w) in
    (set_live ({[ptr]} ∪ live w) w, Return ptr).

(** [env->AllocObject(objClass.ref())]: no constructor runs, the fields
    hold their zero values; [nullptr] with [InstantiationException]
    pending for a class that cannot be instantiated. *)
Definition JNI_AllocObject (c : holder_class) : M jobject :=
  let* _ := call [AllocObject (hc_name c)] in
  if instantiable c then
    fun w =>
      let id := new_object alloc (dom (nativePointer w)) in
      (if has_nativePointer c
       then set_nativePointer (<[id := 0]> (nativePointer w)) w
       else w,
       Return (JHolder id))
  else
    let* _ := modify (raise "java/lang/InstantiationException" (Some (hc_name c))) in
    ret JNull.

(** The lines [CreateObjectAdapter::invoke] and
    [NativeClassArgType::java_value] share: the Java object is
    instantiated without its constructor and the native pointer is
    stored in its field. *)
Definition new_holder (c : holder_class) (ptr : Z) : M jobject :=
  let* obj := JNI_AllocObject c in
  match obj with
  | JNull => throw_JavaException
  | _ =>
      let* _ := call [GetFieldID "nativePointer" "J"] in
      if has_nativePointer c then
        let* _ := store_pointer obj ptr in
        ret obj
      else
        let* _ := modify (raise "java/lang/NoSuchFieldError" (Some "nativePointer")) in
        throw_JavaException
  end.

(** The [try] block of [CreateObjectAdapter<T, Args...>::invoke]; [c] is
    the class the static method was called on. *)
Definition create_body {Ns Js} (c : holder_class) (Args : ArgPack Ns Js)
    (ctor : Ns -> M unit) (args : Js) : M jobject :=
  let* a := pack_native Args args in
  let* ptr := new_instance ctor a in
  new_holder c ptr.

(** [CreateObjectAdapter<T, Args...>::invoke]. *)
Definition invoke_create {Ns Js} (c : holder_class) (Args : ArgPack Ns Js)
    (ctor : Ns -> M unit) (args : Js) : M jobject :=
  catch_at_boundary JNull (create_body c Args ctor args).

(** [NativeClassArgType<T>].  A native value is told by the address of
    the instance.  [native_value] returns [*ptr] without looking at
    [ptr]; [java_value] copies or moves its argument into a new instance
    ([copy] is that constructor) and wraps it in a new object of the
    class [ArgType<T>::class_name], which [FindClass] has to resolve. *)
Definition NativeClassArgType (dm : data_model) (T : ctype) (c : holder_class)
    (class_found : bool) (copy : Z -> M unit) : ArgType Z jobject :=
  {| wire_sig := Traits.composite_sig dm T;
     native_value := fun obj =>
       let* ptr := native_pointer obj in
       fun w =>
         if Z.eqb ptr 0 then (w, Undefined)
         else if decide (ptr ∈ live w) then (w, Return ptr)
         else (w, Undefined);
     java_value := fun native_object =>
       let* ptr := new_instance copy native_object in
       let* _ := call [FindClass (Traits.class_name dm T)] in
       if class_found then new_holder c ptr
       else
         let* _ := modify (raise "java/lang/NoClassDefFoundError"
                             (Some (Traits.class_name dm T))) in
         throw_JavaException;
     java_box := fun value => ret value;
     java_unbox := fun obj => ret obj;
     to_field := JObjV;
     of_field := obj_of_field |}.

End Create.

End Lifecycle.

(** * Properties *)

(** ** Compile-time strings compute plain concatenation *)

Module TextFacts.
Import Text.

Definition total_length (strs : list string) : nat :=
  fold_right (fun s acc => (String.length s + acc)%nat) O strs.

Lemma length_chars_of_string s : length (list_ascii_of_string s) = String.length s.
Proof. induction s as [|c s IH]; simpl; [reflexivity | now rewrite IH]. Qed.

Lemma insert_middle {A} (pre : list A) x y rest :
  <[length pre := y]> (pre ++ x :: rest) = pre ++ y :: rest.
Proof. induction pre as [|p pre IH]; simpl; [reflexivity | now rewrite IH]. Qed.

(** Writing [cs] from the end of [pre] overwrites the next [length cs]
    cells. *)
Lemma join_append_window cs : forall (pre rest : list ascii),
  (length cs <= length rest)%nat ->
  join_append cs (length pre, pre ++ rest)
    = ((length pre + length cs)%nat, pre ++ cs ++ drop (length cs) rest).
Proof.
  induction cs as [|c cs IH]; intros pre rest Hlen; simpl in *.
  - now rewrite Nat.add_0_r.
  - destruct rest as [|r rest]; simpl in *; [lia|].
    rewrite insert_middle.
    replace (S (length pre)) with (length (pre ++ [c])) by (rewrite length_app; simpl; lia).
    replace (pre ++ c :: rest) with ((pre ++ [c]) ++ rest) by (now rewrite <- app_assoc).
    rewrite IH by lia.
    rewrite length_app, <- app_assoc. simpl. f_equal. lia.
Qed.

Lemma join_fold strs : forall (pre rest : list ascii),
  (total_length strs <= length rest)%nat ->
  snd (fold_left (fun st s => join_append (list_ascii_of_string s) st) strs
         (length pre, pre ++ rest))
    = pre ++ concat (map list_ascii_of_string strs) ++ drop (total_length strs) rest.
Proof.
  induction strs as [|s strs IH]; intros pre rest Hlen; simpl in *.
  - reflexivity.
  - rewrite join_append_window by (rewrite length_chars_of_string; lia).
    rewrite <- length_app, app_assoc.
    rewrite IH by (rewrite length_drop, length_chars_of_string; lia).
    rewrite drop_drop, length_chars_of_string, <- !app_assoc.
    reflexivity.
Qed.

Lemma view_app l k : view (l ++ k) = (view l +:+ view k)%string.
Proof. unfold view. induction l as [|c l IH]; simpl; [reflexivity | now rewrite IH]. Qed.

Lemma view_chars s : view (list_ascii_of_string s) = s.
Proof. apply string_of_list_ascii_of_string. Qed.

(** [join] is concatenation. *)
Lemma join_spec strs : join strs = fold_right String.append EmptyString strs.
Proof.
  unfold join. fold (total_length strs).
  pose proof (join_fold strs [] (zero_array (total_length strs))) as H.
  simpl in H. rewrite H by (unfold zero_array; rewrite length_replicate; lia).
  rewrite drop_ge by (unfold zero_array; rewrite length_replicate; lia).
  rewrite app_nil_r. clear H.
  induction strs as [|s strs IH]; simpl; [reflexivity|].
  now rewrite view_app, view_chars, IH.
Qed.
End TextFacts.

(** ** Signature derivation *)

Module SignatureFacts.
Import Traits.

(** The canonical form [(ParamTypes)ReturnType]: the parameter type
    signatures one after the other between parentheses, then the return
    type signature. *)
Definition canonical_signature (dm : data_model) (R : ctype) (Params : list ctype)
    : string :=
  ("(" +:+ fold_right String.append EmptyString (map (type_sig dm) Params)
       +:+ ")" +:+ type_sig dm R)%string.

Lemma append_empty_r (s : string) : (s +:+ EmptyString)%string = s.
Proof. induction s as [|c s IH]; unfold String.append; fold String.append;
         [reflexivity | now rewrite IH]. Qed.

Lemma plain_signature_canonical dm R Args :
  plain_signature dm R Args = canonical_signature dm R Args.
Proof.
  unfold plain_signature, callable_sig, canonical_signature.
  rewrite !TextFacts.join_spec. cbn [fold_right].
  now rewrite append_empty_r.
Qed.

(** C7: a free function pointer, a member function pointer and a
    const-qualified member function pointer with return type [R] and
    parameter types [Args] all derive the canonical signature over the
    (decayed) parameter types; the receiver type [T] takes no part. *)
Theorem C7_signature_canonical dm T R Args :
  signature dm (FreePointer R Args) = canonical_signature dm R (map decay Args)
  /\ signature dm (MemberPointer T R Args) = canonical_signature dm R (map decay Args)
  /\ signature dm (ConstMemberPointer T R Args)
       = canonical_signature dm R (map decay Args).
Proof.
  unfold signature. repeat split; apply plain_signature_canonical.
Qed.

(** The signatures the test module registers, computed. *)
Example signature_pass_arguments_by_reference :
  signature LP64
    (FreePointer Bool
       [LRef (Const StdString); LRef (Const Bool); LRef (Const Short); LRef (Const Int);
        LRef (Const Long); LRef (Const int16_t); LRef (Const int32_t); LRef (Const Long);
        LRef (Const Float); LRef (Const Double)])
  = "(Ljava/lang/String;ZSIJSIJFD)Z"%string.
Proof. reflexivity. Qed.

Example signature_set_data :
  signature LP64
    (MemberPointer (NativeClass "com.kheiron.ktbind.Sample") Void
       [LRef (Const (DataClass "com.kheiron.ktbind.Data"))])
  = "(Lcom/kheiron/ktbind/Data;)V"%string.
Proof. reflexivity. Qed.

Example signature_get_data :
  signature LP64
    (ConstMemberPointer (NativeClass "com.kheiron.ktbind.Sample")
       (DataClass "com.kheiron.ktbind.Data") [])
  = "()Lcom/kheiron/ktbind/Data;"%string.
Proof. reflexivity. Qed.

End SignatureFacts.

(** ** Reasoning about native computations *)

Module MonadFacts.

(** [m] returns [a] from every world, leaving it unchanged but for the
    calls [cs] added to the trace. *)
Definition emits {A} (m : M A) (a : A) (cs : list jni_call) : Prop :=
  forall w, m w = (emit cs w, Return a).

Lemma emit_nil w : emit [] w = w.
Proof. destruct w. unfold emit. simpl. now rewrite app_nil_r. Qed.

Lemma emit_app cs1 cs2 w : emit cs2 (emit cs1 w) = emit (cs1 ++ cs2) w.
Proof. unfold emit. simpl. now rewrite app_assoc. Qed.

Lemma emits_ret {A} (a : A) : emits (ret a) a [].
Proof. intros w. unfold ret. now rewrite emit_nil. Qed.

Lemma emits_call cs : emits (call cs) tt cs.
Proof. intros w. reflexivity. Qed.

Lemma emits_bind {A B} (m : M A) (k : A -> M B) a b cs1 cs2 :
  emits m a cs1 -> emits (k a) b cs2 -> emits (bind m k) b (cs1 ++ cs2).
Proof.
  intros Hm Hk w. unfold bind. rewrite Hm, Hk. now rewrite emit_app.
Qed.

Lemma emits_eq {A} (m : M A) a a' cs cs' :
  emits m a cs -> a = a' -> cs = cs' -> emits m a' cs'.
Proof. now intros H <- <-. Qed.

(** A computation that emits is deterministic in its result and trace. *)
Lemma emits_fun {A} (m : M A) a a' cs cs' :
  emits m a cs -> emits m a' cs' -> a = a' /\ cs = cs'.
Proof.
  intros H H'. specialize (H Wire.quiet). specialize (H' Wire.quiet).
  rewrite H in H'. injection H' as Ht Ha. simpl in Ht. auto.
Qed.

End MonadFacts.

Module SequenceFacts.
Import Traits Wire MonadFacts.

Section Sequences.
Variable dm : data_model.
Variable char_signed : bool.
Variable java_slot : string -> jobject -> list jobject -> nat.
Variable number_conversion : string -> string -> Z -> Z.

(** One element on the way out: its conversion, its boxing, one [add]. *)
Definition element_out {N J} (E : ArgType N J) (x : N) (r : jobject * list jni_call)
    : Prop :=
  exists j c1 c2,
    emits (java_value E x) j c1 /\ emits (java_box E j) (fst r) c2
    /\ snd r = c1 ++ c2 ++ [CallMethod "add"].

(** One element on the way in: one [get], its unboxing, its conversion. *)
Definition element_in {N J} (E : ArgType N J) (o : jobject) (r : N * list jni_call)
    : Prop :=
  exists j c1 c2,
    emits (java_unbox E o) j c1 /\ emits (native_value E j) (fst r) c2
    /\ snd r = [CallMethod "get"] ++ c1 ++ c2.

Lemma list_java_loop_emits {N J} (E : ArgType N J) xs : forall rs acc,
  Forall2 (element_out E) xs rs ->
  emits (list_java_loop E xs acc) (acc ++ map fst rs) (concat (map snd rs)).
Proof.
  induction xs as [|x xs IH]; intros rs acc H; inversion H; subst; simpl.
  - rewrite app_nil_r. apply emits_ret.
  - match goal with Hx : element_out _ _ _ |- _ =>
      destruct Hx as (j & c1 & c2 & Hj & Hb & ->) end.
    eapply emits_eq.
    + eapply emits_bind; [exact Hj|].
      eapply emits_bind; [exact Hb|].
      eapply emits_bind; [apply emits_call|].
      apply IH. eassumption.
    + now rewrite <- app_assoc.
    + now rewrite <- !app_assoc.
Qed.

Lemma list_native_loop_emits {N J} (E : ArgType N J) os : forall rs acc,
  Forall2 (element_in E) os rs ->
  emits (list_native_loop E os acc) (acc ++ map fst rs) (concat (map snd rs)).
Proof.
  induction os as [|o os IH]; intros rs acc H; inversion H; subst; simpl.
  - rewrite app_nil_r. apply emits_ret.
  - match goal with Hx : element_in _ _ _ |- _ =>
      destruct Hx as (j & c1 & c2 & Hj & Hn & ->) end.
    eapply emits_eq.
    + eapply emits_bind; [apply emits_call|].
      eapply emits_bind; [exact Hj|].
      eapply emits_bind; [exact Hn|].
      apply IH. eassumption.
    + now rewrite <- app_assoc.
    + now rewrite <- !app_assoc.
Qed.

(** The calls [ListArgType::java_value] makes before its loop, and
    [native_value] before its. *)
Definition list_out_header : list jni_call :=
  [FindClass "java/util/ArrayList";
   GetMethodID "<init>" "(I)V";
   NewObject "java/util/ArrayList";
   GetMethodID "add" "(Ljava/lang/Object;)Z"].

Definition list_in_header : list jni_call :=
  [GetObjectClass; GetMethodID "size" "()I"; CallMethod "size";
   GetMethodID "get" "(I)Ljava/lang/Object;"].

Lemma list_java_value_emits {N J} (E : ArgType N J) xs rs :
  Forall2 (element_out E) xs rs ->
  emits (java_value (ListArgType dm E) xs) (JList (map fst rs))
    (list_out_header ++ concat (map snd rs)).
Proof.
  intros H. simpl.
  eapply emits_eq.
  - eapply emits_bind; [apply emits_call|].
    eapply emits_bind; [apply (list_java_loop_emits E xs rs []); exact H|].
    apply emits_ret.
  - reflexivity.
  - rewrite app_nil_r. destruct dm; reflexivity.
Qed.

Lemma list_native_value_emits {N J} (E : ArgType N J) os rs :
  Forall2 (element_in E) os rs ->
  emits (native_value (ListArgType dm E) (JList os)) (map fst rs)
    (list_in_header ++ concat (map snd rs)).
Proof.
  intros H. simpl.
  eapply emits_eq.
  - eapply emits_bind; [apply emits_call|].
    apply (list_native_loop_emits E os rs []); exact H.
  - reflexivity.
  - destruct dm; reflexivity.
Qed.

(** The flat array: one allocation and one region copy out, the length
    and one region copy in, whatever the number of elements. *)
Lemma array_java_value_emits p xs :
  emits (java_value (FundamentalArgArrayType dm char_signed p) xs)
    (JPrimArray (type_sig dm (ctype_of_prim p)) (map (cast (java_repr dm p)) xs))
    [NewPrimitiveArray (type_sig dm (ctype_of_prim p)) (length xs);
     SetArrayRegion (type_sig dm (ctype_of_prim p)) 0 (length xs)].
Proof.
  simpl. eapply emits_eq.
  - eapply emits_bind; [apply emits_call | apply emits_ret].
  - reflexivity.
  - reflexivity.
Qed.

Lemma array_native_value_emits p vs :
  emits (native_value (FundamentalArgArrayType dm char_signed p)
           (JPrimArray (type_sig dm (ctype_of_prim p)) vs))
    (map (cast (native_repr dm char_signed p)) vs)
    [GetArrayLength; GetArrayRegion (type_sig dm (ctype_of_prim p)) 0 (length vs)].
Proof.
  simpl. rewrite String.eqb_refl. eapply emits_eq.
  - eapply emits_bind; [apply emits_call | apply emits_ret].
  - reflexivity.
  - reflexivity.
Qed.

(** *** Which representation a sequence type gets *)

Lemma vector_of_array_type T :
  has_array_specialization T = true ->
  type_sig dm (Vector T) = ("[" +:+ type_sig dm T)%string
  /\ String.length (type_sig dm T) = 1%nat.
Proof.
  intros H. split.
  - simpl. rewrite H. rewrite TextFacts.join_spec. simpl.
    now rewrite SignatureFacts.append_empty_r.
  - destruct T; try discriminate H; destruct dm; reflexivity.
Qed.

Lemma vector_of_other_type T :
  has_array_specialization T = false ->
  class_name dm (Vector T) = "java/util/List"%string
  /\ type_sig dm (Vector T) = "Ljava/util/List;"%string.
Proof. intros H. split; [reflexivity|]. simpl. rewrite H. reflexivity. Qed.

Lemma list_of_any_type T :
  class_name dm (StdList T) = "java/util/List"%string
  /\ type_sig dm (StdList T) = "Ljava/util/List;"%string.
Proof. split; reflexivity. Qed.

End Sequences.

(** The two sequence templates of the header. *)
Inductive sequence := StdVector | StdLinkedList.

Definition sequence_type (s : sequence) (T : ctype) : ctype :=
  match s with StdVector => Vector T | StdLinkedList => StdList T end.

(** The rule as the specification words it: a sequence of a numeric
    primitive travels as a flat array. *)
Definition flat_array_rule (dm : data_model) (s : sequence) (T : ctype) : Prop :=
  has_array_specialization T = true ->
  type_sig dm (sequence_type s T) = ("[" +:+ type_sig dm T)%string.

(** C8, as stated, fails: [std::list<int>] is an ordered sequence of a
    fixed-width numeric primitive and travels as [java.util.List]. *)
Lemma C8_list_of_int_is_not_flat : ~ flat_array_rule LP64 StdLinkedList Int.
Proof. intros H. specialize (H eq_refl). discriminate H. Qed.

(** C8, amended: [std::vector<T>] travels as the flat array ["[" ++ code]
    exactly for the thirteen element types with a
    [FundamentalArgArrayType] specialisation (the integer and floating
    types, not [bool]), converted by one allocation or length query and
    one region copy; [std::vector] of any other element type and
    [std::list] of every element type travel as [java/util/List],
    converted element by element: out, each element's conversion and
    boxing followed by one [add]; in, one [get] followed by the element's
    unboxing and conversion. *)
Theorem C8_sequence_representation dm char_signed java_slot number_conversion h1 h2 :
  (forall T, has_array_specialization T = true ->
      type_sig dm (Vector T) = ("[" +:+ type_sig dm T)%string
      /\ String.length (type_sig dm T) = 1%nat)
  /\ (forall p, has_array p = true ->
      ArgType_of dm char_signed java_slot number_conversion h1 h2 (VVector (VPrim p))
        = FundamentalArgArrayType dm char_signed p
      /\ (forall xs,
           emits (java_value (FundamentalArgArrayType dm char_signed p) xs)
             (JPrimArray (type_sig dm (ctype_of_prim p)) (map (cast (java_repr dm p)) xs))
             [NewPrimitiveArray (type_sig dm (ctype_of_prim p)) (length xs);
              SetArrayRegion (type_sig dm (ctype_of_prim p)) 0 (length xs)])
      /\ (forall vs,
           emits (native_value (FundamentalArgArrayType dm char_signed p)
                    (JPrimArray (type_sig dm (ctype_of_prim p)) vs))
             (map (cast (native_repr dm char_signed p)) vs)
             [GetArrayLength;
              GetArrayRegion (type_sig dm (ctype_of_prim p)) 0 (length vs)]))
  /\ (forall T, has_array_specialization T = false ->
      class_name dm (Vector T) = "java/util/List"%string
      /\ type_sig dm (Vector T) = "Ljava/util/List;"%string)
  /\ (forall T,
      class_name dm (StdList T) = "java/util/List"%string
      /\ type_sig dm (StdList T) = "Ljava/util/List;"%string)
  /\ (forall u,
      ArgType_of dm char_signed java_slot number_conversion h1 h2 (VList u)
        = ListArgType dm
            (ArgType_of dm char_signed java_slot number_conversion h1 h2 u)
      /\ (array_specialization dm char_signed u = None ->
          ArgType_of dm char_signed java_slot number_conversion h1 h2 (VVector u)
            = ListArgType dm
                (ArgType_of dm char_signed java_slot number_conversion h1 h2 u)))
  /\ (forall N J (E : ArgType N J) xs rs,
      Forall2 (element_out E) xs rs ->
      emits (java_value (ListArgType dm E) xs) (JList (map fst rs))
        (list_out_header ++ concat (map snd rs)))
  /\ (forall N J (E : ArgType N J) os rs,
      Forall2 (element_in E) os rs ->
      emits (native_value (ListArgType dm E) (JList os)) (map fst rs)
        (list_in_header ++ concat (map snd rs))).
Proof.
  split; [apply vector_of_array_type|].
  split.
  { intros p Hp. split; [|split].
    - simpl. unfold array_specialization. now rewrite Hp.
    - apply array_java_value_emits.
    - apply array_native_value_emits. }
  split; [apply vector_of_other_type|].
  split; [apply list_of_any_type|].
  split.
  { intros u. split; [reflexivity|]. intros Hu. simpl. now rewrite Hu. }
  split.
  - intros. now apply list_java_value_emits.
  - intros. now apply list_native_value_emits.
Qed.

(** [std::list<int>] holding 7 and 5, on the way out. *)
Lemma C8_sequence_representation_witness :
  emits (java_value
           (ListArgType LP64 (FundamentalArgType LP64 true (fun _ _ z => z) PInt)) [7; 5])
    (JList [JBoxed "java/lang/Integer" 7; JBoxed "java/lang/Integer" 5])
    (list_out_header
       ++ [FindClass "java/lang/Integer";
           GetStaticMethodID "valueOf" "(I)Ljava/lang/Integer;";
           CallStaticMethod "valueOf"; CallMethod "add";
           FindClass "java/lang/Integer";
           GetStaticMethodID "valueOf" "(I)Ljava/lang/Integer;";
           CallStaticMethod "valueOf"; CallMethod "add"]).
Proof.
  pose proof (C8_sequence_representation LP64 true (fun _ _ _ => O) (fun _ _ z => z)
                (fun _ _ => O) (fun _ _ => O)) as (_ & _ & _ & _ & _ & Hout & _).
  apply (Hout _ _ (FundamentalArgType LP64 true (fun _ _ z => z) PInt) [7; 5]
           [(JBoxed "java/lang/Integer" 7,
             [FindClass "java/lang/Integer";
              GetStaticMethodID "valueOf" "(I)Ljava/lang/Integer;";
              CallStaticMethod "valueOf"; CallMethod "add"]);
            (JBoxed "java/lang/Integer" 5,
             [FindClass "java/lang/Integer";
              GetStaticMethodID "valueOf" "(I)Ljava/lang/Integer;";
              CallStaticMethod "valueOf"; CallMethod "add"])]).
  repeat constructor.
  - exists 7, [], [FindClass "java/lang/Integer";
                   GetStaticMethodID "valueOf" "(I)Ljava/lang/Integer;";
                   CallStaticMethod "valueOf"].
    split; [apply emits_ret|]. split; [|reflexivity].
    intros w. reflexivity.
  - exists 5, [], [FindClass "java/lang/Integer";
                   GetStaticMethodID "valueOf" "(I)Ljava/lang/Integer;";
                   CallStaticMethod "valueOf"].
    split; [apply emits_ret|]. split; [|reflexivity].
    intros w. reflexivity.
Defined.

End SequenceFacts.

(** ** Loading *)

Module LoadFacts.
Import Registry Load.

(** The natives a table of function bindings asks for. *)
Definition all_natives (table : list (string * list FunctionBinding)) : list native_method :=
  flat_map (fun entry => map (JNINativeMethod (fst entry)) (snd entry)) table.

Definition class_installs (rt : runtime) (entry : string * list FunctionBinding) : bool :=
  class_exists rt (fst entry) && accepts rt (fst entry) (snd entry).

(** The classes the first loop gets through before one fails. *)
Fixpoint installable (rt : runtime) (table : list (string * list FunctionBinding))
    : list (string * list FunctionBinding) :=
  match table with
  | [] => []
  | entry :: rest => if class_installs rt entry then entry :: installable rt rest else []
  end.

Definition class_verifies (rt : runtime) (entry : string * list AnyFieldBinding) : bool :=
  class_exists rt (fst entry)
  && forallb (fun b => field_declared rt (fst entry) (any_name b) (any_signature b))
       (snd entry).

(** Every registered class, method and field resolves. *)
Definition resolves (rt : runtime) (reg : registry) : bool :=
  forallb (class_installs rt) (function_bindings reg)
  && forallb (class_verifies rt) (field_bindings reg).

(** The first class of the table that does not install: its Java class
    is missing, or does not declare every registered method as native. *)
Definition failing_class (rt : runtime) (table : list (string * list FunctionBinding))
    : option (string * list FunctionBinding) :=
  List.find (fun entry => negb (class_installs rt entry)) table.

(** What the load returns for it: [JNI_ERR] for a missing class, the
    code of [RegisterNatives] for a method. *)
Definition failure_code (rt : runtime) (entry : string * list FunctionBinding) : jint :=
  if class_exists rt (fst entry) then RegisterNatives_failure rt else JNI_ERR.

Lemma failing_class_none rt table :
  failing_class rt table = None <-> forallb (class_installs rt) table = true.
Proof.
  unfold failing_class. induction table as [|entry rest IH]; simpl; [tauto|].
  destruct (class_installs rt entry); simpl; [exact IH|]. split; discriminate.
Qed.

Lemma installable_all rt table :
  forallb (class_installs rt) table = true -> installable rt table = table.
Proof.
  induction table as [|entry rest IH]; simpl; [reflexivity|].
  intros H. apply andb_prop in H as [-> H]. now rewrite IH.
Qed.

Lemma natives_emit cs w : natives (emit cs w) = natives w.
Proof. reflexivity. Qed.

Lemma natives_raise c m w : natives (raise c m w) = natives w.
Proof. reflexivity. Qed.

Lemma natives_throw_exception r w : natives (throw_exception r w) = natives w.
Proof. unfold throw_exception. destruct (ExceptionCheck w); reflexivity. Qed.

(** The first loop: what it returns, what it installs, and that it raises
    nothing while it succeeds. *)
Lemma register_functions_spec rt :
  RegisterNatives_failure rt < 0 ->
  forall table w, exists w1 r,
    register_functions rt table w = (w1, Return r)
    /\ natives w1 = natives w ++ all_natives (installable rt table)
    /\ match r with
       | None => forallb (class_installs rt) table = true /\ pending w1 = pending w
       | Some rc => forallb (class_installs rt) table = false
                    /\ (rc = JNI_ERR \/ rc = RegisterNatives_failure rt)
       end.
Proof.
  intros Hneg. induction table as [|[class_name bindings] rest IH]; intros w.
  - exists w, None. simpl. rewrite app_nil_r. auto.
  - simpl. unfold class_installs, bind, FindClass_nothrow, JNI_RegisterNatives,
      call, modify, ret, bind. simpl.
    destruct (class_exists rt class_name) eqn:Hc; simpl.
    + destruct (accepts rt class_name bindings) eqn:Ha; simpl.
      * destruct (IH (add_natives (map (JNINativeMethod class_name) bindings)
                        (emit [RegisterNatives class_name (length bindings)]
                           (emit [FindClass class_name] w))))
          as (w1 & r & Hrun & Hnat & Hr).
        exists w1, r. rewrite Hrun. split; [reflexivity|]. split.
        -- rewrite Hnat. simpl. now rewrite <- app_assoc.
        -- destruct r; [exact Hr|]. destruct Hr as [Hall Hp]. split; [exact Hall|].
           rewrite Hp. reflexivity.
      * assert (Hz : Z.eqb (RegisterNatives_failure rt) JNI_OK = false).
        { apply Z.eqb_neq. unfold JNI_OK. lia. }
        rewrite Hz. do 2 eexists.
        split; [reflexivity|]. split; [simpl; now rewrite app_nil_r|]. auto.
    + do 2 eexists. split; [reflexivity|]. split.
      * rewrite natives_throw_exception. simpl. now rewrite app_nil_r.
      * auto.
Qed.

(** The code the first loop returns: that of the first class that fails. *)
Lemma register_functions_code rt :
  RegisterNatives_failure rt < 0 ->
  forall table w w1 r,
    register_functions rt table w = (w1, Return r) ->
    r = option_map (failure_code rt) (failing_class rt table).
Proof.
  intros Hneg. induction table as [|[class_name bindings] rest IH]; intros w w1 r.
  - simpl. unfold ret. intros H. now injection H as _ <-.
  - simpl. unfold failing_class, failure_code, class_installs, bind, FindClass_nothrow,
      JNI_RegisterNatives, call, modify, ret, bind. simpl.
    destruct (class_exists rt class_name) eqn:Hc; simpl.
    + destruct (accepts rt class_name bindings) eqn:Ha; simpl.
      * apply IH.
      * assert (Hz : Z.eqb (RegisterNatives_failure rt) JNI_OK = false).
        { apply Z.eqb_neq. unfold JNI_OK. lia. }
        rewrite Hz. intros H. injection H as _ <-. now rewrite Hc.
    + intros H. injection H as _ <-. now rewrite Hc.
Qed.

Lemma check_fields_spec rt class_name : forall bindings w, exists w1 r,
  check_fields rt class_name bindings w = (w1, Return r)
  /\ natives w1 = natives w
  /\ match r with
     | None => forallb (fun b => field_declared rt class_name (any_name b) (any_signature b))
                 bindings = true
     | Some rc => forallb (fun b => field_declared rt class_name (any_name b) (any_signature b))
                    bindings = false /\ rc = JNI_ERR
     end.
Proof.
  induction bindings as [|b rest IH]; intros w.
  - exists w, None. auto.
  - simpl. unfold bind, call, modify, ret. simpl.
    destruct (field_declared rt class_name (any_name b) (any_signature b)) eqn:Hf; simpl.
    + destruct (IH (emit [GetFieldID (any_name b) (any_signature b)] w))
        as (w1 & r & Hrun & Hnat & Hr).
      exists w1, r. rewrite Hrun. auto.
    + do 2 eexists. split; [reflexivity|]. split; [|auto].
      now rewrite natives_throw_exception.
Qed.

Lemma check_properties_spec rt : forall table w, exists w1 r,
  check_properties rt table w = (w1, Return r)
  /\ natives w1 = natives w
  /\ match r with
     | None => forallb (class_verifies rt) table = true
     | Some rc => forallb (class_verifies rt) table = false /\ rc = JNI_ERR
     end.
Proof.
  induction table as [|[class_name bindings] rest IH]; intros w.
  - exists w, None. auto.
  - simpl. unfold class_verifies, bind, FindClass_nothrow, call, modify, ret, bind. simpl.
    destruct (class_exists rt class_name) eqn:Hc; simpl.
    + destruct (check_fields_spec rt class_name bindings (emit [FindClass class_name] w))
        as (w1 & r & Hrun & Hnat & Hr).
      rewrite Hrun. destruct r as [rc|].
      * destruct Hr as [Hr ->]. exists w1, (Some JNI_ERR). rewrite Hr. auto.
      * destruct (IH w1) as (w2 & r2 & Hrun2 & Hnat2 & Hr2).
        exists w2, r2. rewrite Hrun2, Hr. simpl. split; [reflexivity|].
        split; [now rewrite Hnat2, Hnat | exact Hr2].
    + do 2 eexists. split; [reflexivity|]. split; [|auto].
      now rewrite natives_throw_exception.
Qed.

(** The loading thread: attached by the host, which is calling
    [JNI_OnLoad] on it. *)
Definition loading_thread : Environment.state :=
  Environment.fresh None
    {| Environment.vm_attached := true; Environment.version_supported := true;
       Environment.attach_succeeds := true |}.

(** The load as the specification words it, for a registration step that
    leaves [reg] in the tables: it succeeds with every function binding
    installed, or it fails with [JNI_ERR] and none left installed. *)
Definition atomic_load (rt : runtime) (reg : registry) (w : world) : Prop :=
  exists w' rc e',
    java_initialization_impl rt 7%nat (fun _ => ret reg) loading_thread w
      = (w', Return (rc, e'))
    /\ ((rc = JNI_VERSION_1_6
         /\ natives w' = natives w ++ all_natives (function_bindings reg))
        \/ (rc = JNI_ERR /\ natives w' = natives w)).

(** Two native classes; the second one's Java class lacks the method
    registered as ["resize"]. *)
Definition two_classes : registry :=
  let r1 := native_class LP64 (NativeClass "demo.Alpha") Registry.empty in
  let r2 := native_class LP64 (NativeClass "demo.Beta") r1 in
  match function LP64 (NativeClass "demo.Beta") "Beta::resize"
          (Traits.MemberPointer (NativeClass "demo.Beta") Void [Int]) "resize" r2 with
  | Some r => r
  | None => r2
  end.

Definition beta_lacks_resize : runtime :=
  {| GetEnv_rc := JNI_OK;
     class_exists := fun c => String.eqb c "demo/Alpha" || String.eqb c "demo/Beta";
     native_declared := fun c n s => String.eqb n "close" && String.eqb s "()V";
     RegisterNatives_failure := JNI_ERR;
     field_declared := fun _ _ _ => true |}.

(** The same virtual machine, with a [RegisterNatives] that reports a
    failure by [JNI_EINVAL]: the JNI asks for a negative value, not for
    [JNI_ERR]. *)
Definition beta_lacks_resize_einval : runtime :=
  {| GetEnv_rc := JNI_OK;
     class_exists := fun c => String.eqb c "demo/Alpha" || String.eqb c "demo/Beta";
     native_declared := fun c n s => String.eqb n "close" && String.eqb s "()V";
     RegisterNatives_failure := JNI_EINVAL;
     field_declared := fun _ _ _ => true |}.

Lemma partial_bindings_stay_installed :
  ~ atomic_load beta_lacks_resize two_classes Wire.quiet.
Proof.
  intros (w' & rc & e' & Hrun & H).
  vm_compute in Hrun. injection Hrun as <- <- <-.
  destruct H as [[H _] | [_ H]]; discriminate H.
Qed.

(** C1, as stated, fails.  The load returns [JNI_ERR] because
    [Beta.resize] does not resolve, and [Alpha.close], registered before
    it, stays installed.  And the code is the one [RegisterNatives]
    returned: with a virtual machine that reports [JNI_EINVAL], the load
    returns [JNI_EINVAL], not [JNI_ERR]. *)
Lemma C1_partial_bindings_stay_installed :
  ~ atomic_load beta_lacks_resize two_classes Wire.quiet
  /\ exists w' e',
       java_initialization_impl beta_lacks_resize_einval 7%nat (fun _ => ret two_classes)
         loading_thread Wire.quiet = (w', Return (JNI_EINVAL, e'))
       /\ JNI_EINVAL <> JNI_ERR
       /\ map nm_class (natives w') = ["demo/Alpha"%string].
Proof.
  split; [exact partial_bindings_stay_installed|].
  do 2 eexists. split; [vm_compute; reflexivity|]. split; [discriminate | reflexivity].
Qed.

(** C1, amended: with the registration step leaving [reg] in the tables,
    the load returns [JNI_VERSION_1_6] when every class, method and field
    resolves (and the registration step left no Java exception pending),
    having installed every function binding of every class; when anything
    fails to resolve it returns a failure code, never [JNI_VERSION_1_6]:
    for the first native class that fails, [JNI_ERR] when the class is
    missing and what [RegisterNatives] returned when a method is; and
    [JNI_ERR] when the native classes resolve and a data class or one of
    its fields does not.  Nothing is uninstalled: the function bindings
    of the classes registered before the failing one remain. *)
Theorem C1_load_outcome rt vm initializer e w w0 reg w' rc e' :
  RegisterNatives_failure rt < 0 ->
  GetEnv_rc rt = JNI_OK ->
  initializer Registry.empty w = (w0, Return reg) ->
  java_initialization_impl rt vm initializer e w = (w', Return (rc, e')) ->
  natives w' = natives w0 ++ all_natives (installable rt (function_bindings reg))
  /\ (resolves rt reg = true -> pending w0 = None ->
        rc = JNI_VERSION_1_6
        /\ natives w' = natives w0 ++ all_natives (function_bindings reg))
  /\ (resolves rt reg = false ->
        rc <> JNI_VERSION_1_6
        /\ rc = match failing_class rt (function_bindings reg) with
                | Some entry =>
                    if class_exists rt (fst entry) then RegisterNatives_failure rt
                    else JNI_ERR
                | None => JNI_ERR
                end).
Proof.
  intros Hneg Henv Hinit Hrun.
  unfold java_initialization_impl in Hrun. rewrite Henv in Hrun. simpl in Hrun.
  destruct (Environment.load vm e) as [e1|]; [|discriminate Hrun].
  destruct (Environment.setEnv Environment.thread_env e1) as [e2|]; [|discriminate Hrun].
  unfold load_body, bind in Hrun. rewrite Hinit in Hrun.
  destruct (register_functions_spec rt Hneg (function_bindings reg) w0)
    as (w1 & r1 & Hreg & Hnat1 & Hr1).
  pose proof (register_functions_code rt Hneg _ _ _ _ Hreg) as Hcode.
  rewrite Hreg in Hrun. unfold resolves.
  destruct r1 as [rc1|].
  - (* a class or a method failed *)
    unfold ret in Hrun. injection Hrun as <- <- <-.
    destruct Hr1 as [Hfalse Hrc]. rewrite Hfalse. simpl.
    split; [exact Hnat1|]. split; [discriminate|]. intros _. split.
    + destruct Hrc as [-> | ->]; [discriminate|]. unfold JNI_VERSION_1_6. lia.
    + destruct (failing_class rt (function_bindings reg)) as [entry|];
        [|discriminate Hcode].
      simpl in Hcode. now injection Hcode as ->.
  - destruct Hr1 as [Hall Hpend]. rewrite Hall. simpl.
    rewrite (proj2 (failing_class_none rt (function_bindings reg)) Hall).
    unfold ExceptionCheck in Hrun. rewrite Hpend in Hrun.
    destruct (pending w0) as [t|] eqn:Hp.
    + (* the registration step left an exception pending *)
      unfold ret in Hrun. injection Hrun as <- <- <-.
      split; [exact Hnat1|]. split; [discriminate|].
      intros _. split; [discriminate | reflexivity].
    + destruct (check_properties_spec rt (field_bindings reg) w1)
        as (w2 & r2 & Hchk & Hnat2 & Hr2).
      rewrite Hchk in Hrun. destruct r2 as [rc2|]; unfold ret in Hrun;
        injection Hrun as <- <- <-.
      * destruct Hr2 as [Hfalse ->]. rewrite Hfalse.
        split; [now rewrite Hnat2|]. split; [discriminate|].
        intros _. split; [discriminate | reflexivity].
      * rewrite Hr2. split; [now rewrite Hnat2|]. split; [|discriminate].
        intros _ _. split; [reflexivity|].
        rewrite Hnat2, Hnat1. now rewrite installable_all.
Qed.

(** The scenario above with the virtual machine that reports
    [JNI_EINVAL], under the amended statement: the code is that of
    [RegisterNatives], and [Alpha.close] remains. *)
Lemma C1_load_outcome_witness :
  exists w' e',
    java_initialization_impl beta_lacks_resize_einval 7%nat (fun _ => ret two_classes)
      loading_thread Wire.quiet = (w', Return (JNI_EINVAL, e'))
    /\ map nm_class (natives w') = ["demo/Alpha"%string].
Proof.
  destruct (java_initialization_impl beta_lacks_resize_einval 7%nat
              (fun _ => ret two_classes) loading_thread Wire.quiet) as [w' out] eqn:Hrun.
  assert (Hout : exists rc, out = Return (rc,
            {| Environment._vm := Some 7%nat;
               Environment._env := Some Environment.thread_env;
               Environment._attached := false;
               Environment.vm_side := Environment.vm_side loading_thread;
               Environment.calls := [] |})).
  { vm_compute in Hrun. eexists. now injection Hrun as _ <-. }
  destruct Hout as [rc ->].
  destruct (C1_load_outcome beta_lacks_resize_einval 7%nat (fun _ => ret two_classes)
              loading_thread Wire.quiet Wire.quiet two_classes w' rc _
              ltac:(vm_compute; reflexivity) eq_refl eq_refl Hrun)
    as (Hnat & _ & Hfail).
  destruct (Hfail eq_refl) as [_ Hrc]. vm_compute in Hrc. subst rc.
  exists w'. eexists. split; [reflexivity|].
  rewrite Hnat. reflexivity.
Defined.

End LoadFacts.

(** ** Adapters: exception translation and the handle life cycle *)

Module AdapterFacts.
Import Wire Adapter.

(** The exception [ThrowNew] creates in [w]. *)
Definition new_exception (w : world) (what : string) : jthrowable :=
  {| thr_id := created w; thr_class := "java/lang/Exception"; thr_message := Some what |}.

Lemma exception_handler_pending what w :
  pending (exception_handler what w)
    = Some (match pending w with Some t => t | None => new_exception w what end).
Proof.
  unfold exception_handler, ExceptionCheck. destruct (pending w) eqn:Hp; simpl.
  - exact Hp.
  - reflexivity.
Qed.


(** What the last [catch] clause of every adapter does. *)
Lemma catch_std {JR} (d : JR) (body : M JR) w w1 what :
  body w = (w1, Throw (ThrowStd what)) ->
  catch_at_boundary d body w = (exception_handler what w1, Return d).
Proof. intros H. unfold catch_at_boundary. now rewrite H. Qed.

(** What the first [catch] clause does with a wrapper that holds a
    reference. *)
Lemma catch_java {JR} (d : JR) (body : M JR) w w1 t m :
  body w = (w1, Throw (ThrowJava {| ex := Some t; message := m |})) ->
  catch_at_boundary d body w = (set_pending (Some t) w1, Return d).
Proof. intros H. unfold catch_at_boundary. now rewrite H. Qed.




(** *** Returning a function object *)

Section ReturningFunctions.
Context {Ns NR JR : Type}.
Variable box_args : Ns -> M (list jobject).
Variable R : ArgType NR JR.
Variable has_env : bool.
Variable java_invoke : nat -> list jobject -> world -> world * jobject.
Variable arity : nat.
Variable dm : data_model.

Let F := FunctionArgType box_args R has_env java_invoke arity dm.

Lemma function_java_value_throws value w :
  java_value F value w = (w, Throw (ThrowStd unsupported)).
Proof. reflexivity. Qed.

Lemma returning_function_raises {As Js} (Args : ArgPack As Js)
    (func : As -> M (Ns -> M NR)) args w w1 f :
  (let* a := pack_native Args args in func a) w = (w1, Return f) ->
  invoke Args F JNull func args w = (exception_handler unsupported w1, Return JNull).
Proof.
  intros H. unfold invoke. apply catch_std.
  unfold invoke_body, bind in *.
  destruct (pack_native Args args w) as [w0 [a| |]]; try discriminate H.
  rewrite H. reflexivity.
Qed.

Lemma returning_function_never_returns_one {As Js} (Args : ArgPack As Js)
    (func : As -> M (Ns -> M NR)) args w w' j :
  invoke Args F JNull func args w = (w', Return j) -> j = JNull.
Proof.
  unfold invoke, catch_at_boundary, invoke_body, bind.
  destruct (pack_native Args args w) as [w0 [a| [e|what|] |]].
  - destruct (func a w0) as [w1 [f| [e|what|] |]].
    + simpl. intros H. now injection H as _ <-.
    + destruct (ex e); unfold JNI_Throw, modify, undefined, ret; simpl;
        intros H; [now injection H as _ <- | discriminate H].
    + intros H. now injection H as _ <-.
    + discriminate.
    + discriminate.
  - destruct (ex e); unfold JNI_Throw, modify, undefined, ret; simpl;
      intros H; [now injection H as _ <- | discriminate H].
  - intros H. now injection H as _ <-.
  - discriminate.
  - discriminate.
Qed.

End ReturningFunctions.

(** C10: [ArgType<std::function<R(Args...)>>::java_value] throws
    [std::runtime_error] with the fixed message on every call; an adapter
    around a function returning a [std::function] therefore, when the
    function itself returns, leaves a Java exception pending (the one
    already pending, else a new [java/lang/Exception] with that message)
    and hands back the null reference; and no run of such an adapter hands
    back anything but the null reference. *)
Theorem C10_function_results_unsupported :
  (forall Ns NR JR box_args (R : ArgType NR JR) has_env java_invoke arity dm
          (value : Ns -> M NR) w,
      java_value (FunctionArgType box_args R has_env java_invoke arity dm) value w
        = (w, Throw (ThrowStd
                 "C++ functions returning a function object to Java/Kotlin are not supported.")))
  /\ (forall Ns NR JR box_args (R : ArgType NR JR) has_env java_invoke arity dm
            As Js (Args : ArgPack As Js) (func : As -> M (Ns -> M NR)) args w w1 f,
      (let* a := pack_native Args args in func a) w = (w1, Return f) ->
      invoke Args (FunctionArgType box_args R has_env java_invoke arity dm) JNull func args w
        = (exception_handler unsupported w1, Return JNull)
      /\ pending (exception_handler unsupported w1)
           = Some (match pending w1 with
                   | Some already_pending => already_pending
                   | None => new_exception w1 unsupported
                   end))
  /\ (forall Ns NR JR box_args (R : ArgType NR JR) has_env java_invoke arity dm
            As Js (Args : ArgPack As Js) (func : As -> M (Ns -> M NR)) args w w' j,
      invoke Args (FunctionArgType box_args R has_env java_invoke arity dm) JNull func args w
        = (w', Return j) ->
      j = JNull).
Proof.
  split; [|split].
  - intros. reflexivity.
  - intros. split.
    + eapply returning_function_raises. eassumption.
    + apply exception_handler_pending.
  - intros. eapply returning_function_never_returns_one. eassumption.
Qed.

(** A free function [std::function<int(int)> make()] that returns some
    callable, called through its adapter. *)
Lemma C10_function_results_unsupported_witness :
  invoke pack_nil
    (FunctionArgType (fun (x : Z) => ret [JBoxed "java/lang/Integer" x])
       (FundamentalArgType LP64 true (fun _ _ z => z) PInt) true
       (fun _ _ w => (w, JNull)) 1 LP64)
    JNull (fun _ => ret (fun x : Z => ret x)) tt quiet
  = (exception_handler unsupported quiet, Return JNull).
Proof.
  destruct C10_function_results_unsupported as (_ & H & _).
  eapply H. reflexivity.
Defined.

(** *** Disposal *)

Definition pointer_calls : list jni_call :=
  [GetObjectClass; GetFieldID "nativePointer" "J"; GetField "nativePointer"].

Lemma native_pointer_holder id ptr w :
  nativePointer w !! id = Some ptr ->
  native_pointer (JHolder id) w = (emit pointer_calls w, Return ptr).
Proof.
  intros H. unfold native_pointer, bind, call. simpl. rewrite H.
  now rewrite MonadFacts.emit_app.
Qed.

(** Disposing a live holder. *)
Lemma dispose_live id ptr w :
  nativePointer w !! id = Some ptr -> ptr <> 0 -> ptr ∈ live w ->
  invoke_destroy (JHolder id) w
    = (emit [SetField "nativePointer"]
         (set_nativePointer (<[id := 0]> (nativePointer w))
            (set_live (live w ∖ {[ptr]}) (emit pointer_calls w))), Return tt).
Proof.
  intros Hp Hnz Hlive.
  unfold invoke_destroy, catch_at_boundary, destroy_body, bind.
  rewrite (native_pointer_holder _ _ _ Hp).
  unfold delete. destruct (Z.eqb_spec ptr 0) as [->|_]; [contradiction|].
  simpl. rewrite decide_True by exact Hlive. reflexivity.
Qed.

(** Disposing a holder whose handle is already null. *)
Lemma dispose_disposed id w :
  nativePointer w !! id = Some 0 ->
  invoke_destroy (JHolder id) w
    = (emit (pointer_calls ++ [SetField "nativePointer"]) w, Return tt).
Proof.
  intros Hp.
  unfold invoke_destroy, catch_at_boundary, destroy_body, bind.
  rewrite (native_pointer_holder _ _ _ Hp). simpl.
  unfold ret, store_pointer. simpl.
  rewrite (insert_id _ _ _ Hp). f_equal.
  destruct w. unfold emit, set_nativePointer. simpl. f_equal.
  now rewrite <- app_assoc.
Qed.

(** An instance method called on a holder whose handle is null. *)
Lemma member_on_disposed {Ns Js NR JR} class_name (Args : ArgPack Ns Js)
    (R : ArgType NR JR) (java_default : JR) func id args w :
  nativePointer w !! id = Some 0 ->
  invoke_member class_name Args R java_default func (JHolder id) args w
    = (exception_handler (disposed_message class_name) (emit pointer_calls w),
       Return java_default).
Proof.
  intros Hp. unfold invoke_member. apply catch_std.
  unfold member_body, bind. now rewrite (native_pointer_holder _ _ _ Hp).
Qed.

(** C2: the dispose adapter on a holder with a live handle destroys the
    native instance and stores the null handle; called again on the same
    holder it frees nothing, changes no handle and raises nothing, and
    both calls return normally.  Every instance-method adapter called on a
    holder whose handle is null returns the default value without calling
    the native method, with a [java/lang/Exception] pending whose message
    is ["Object <class> has already been disposed of."] (no exception
    being pending when the runtime enters the adapter). *)
Theorem C2_dispose_idempotent_and_gating :
  (forall id ptr w,
      nativePointer w !! id = Some ptr -> ptr <> 0 -> ptr ∈ live w ->
      exists w1 w2,
        invoke_destroy (JHolder id) w = (w1, Return tt)
        /\ nativePointer w1 !! id = Some 0
        /\ live w1 = live w ∖ {[ptr]}
        /\ pending w1 = pending w
        /\ invoke_destroy (JHolder id) w1 = (w2, Return tt)
        /\ live w2 = live w1
        /\ nativePointer w2 = nativePointer w1
        /\ pending w2 = pending w1)
  /\ (forall Ns Js NR JR class_name (Args : ArgPack Ns Js) (R : ArgType NR JR)
            (java_default : JR) func id args w,
      nativePointer w !! id = Some 0 -> pending w = None ->
      exists w',
        (forall func',
            invoke_member class_name Args R java_default func' (JHolder id) args w
              = (w', Return java_default))
        /\ invoke_member class_name Args R java_default func (JHolder id) args w
             = (w', Return java_default)
        /\ pending w'
             = Some {| thr_id := created w; thr_class := "java/lang/Exception";
                       thr_message :=
                         Some ("Object " +:+ class_name
                                 +:+ " has already been disposed of.")%string |}
        /\ live w' = live w
        /\ nativePointer w' = nativePointer w).
Proof.
  split.
  - intros id ptr w Hp Hnz Hlive.
    do 2 eexists. split; [apply (dispose_live id ptr w Hp Hnz Hlive)|].
    split; [simpl; apply lookup_insert_eq|].
    split; [reflexivity|]. split; [reflexivity|].
    split; [apply dispose_disposed; simpl; apply lookup_insert_eq|].
    repeat split.
  - intros Ns Js NR JR class_name Args R java_default func id args w Hp Hnone.
    eexists. split; [intros func'; apply member_on_disposed; exact Hp|].
    split; [apply member_on_disposed; exact Hp|].
    split; [|split].
    + rewrite exception_handler_pending. simpl. now rewrite Hnone.
    + unfold exception_handler. now destruct (negb _).
    + unfold exception_handler. now destruct (negb _).
Qed.

(** A holder with handle 4096 on a live instance. *)
Definition one_holder : world :=
  {| pending := None; created := O; nativePointer := {[ 1%nat := 4096 ]};
     live := {[ 4096 ]}; natives := []; trace := [] |}.

Lemma C2_dispose_idempotent_and_gating_witness :
  exists w1 w2,
    invoke_destroy (JHolder 1) one_holder = (w1, Return tt)
    /\ nativePointer w1 !! 1%nat = Some 0
    /\ live w1 = live one_holder ∖ {[4096]}
    /\ pending w1 = None
    /\ invoke_destroy (JHolder 1) w1 = (w2, Return tt)
    /\ live w2 = live w1
    /\ nativePointer w2 = nativePointer w1
    /\ pending w2 = pending w1.
Proof.
  destruct C2_dispose_idempotent_and_gating as [H _].
  apply (H 1%nat 4096 one_holder).
  - reflexivity.
  - discriminate.
  - vm_compute. reflexivity.
Defined.

(** *** Java exceptions through native code *)

Definition capture_calls : list jni_call :=
  [GetObjectClass; GetMethodID "getMessage" "()Ljava/lang/String;";
   CallMethod "getMessage"; GetStringUTFChars].

(** Capture: the wrapper takes the reference and the message, and the
    pending state is cleared. *)
Lemma capture_with_message t m w :
  pending w = Some t -> thr_message t = Some m ->
  JavaException_ctor w
    = (emit capture_calls (ExceptionClear w), Return {| ex := Some t; message := m |})
  /\ pending (emit capture_calls (ExceptionClear w)) = None.
Proof.
  intros Hp Hm. unfold JavaException_ctor. rewrite Hp, Hm.
  now rewrite MonadFacts.emit_app.
Qed.

(** Capture of a throwable whose [getMessage()] is [null]. *)
Lemma capture_without_message t w :
  pending w = Some t -> thr_message t = None ->
  snd (JavaException_ctor w) = Undefined.
Proof. intros Hp Hm. unfold JavaException_ctor. now rewrite Hp, Hm. Qed.

(** [void pass_callback(std::function<void()> fun) { fun(); }] of the
    test module. *)
Definition pass_callback : (unit -> M unit) * unit -> M unit :=
  fun args => fst args tt.

Section Callbacks.
Variable java_invoke : nat -> list jobject -> world -> world * jobject.
Variable dm : data_model.

(** [ArgType<std::function<void()>>]. *)
Definition VoidCallback : ArgType (unit -> M unit) jobject :=
  FunctionArgType (fun _ => ret []) VoidResult true java_invoke 0 dm.

Definition call_pass_callback (id : nat) : M unit :=
  invoke (pack_in [O] (one_more VoidCallback no_more)) VoidResult tt pass_callback
    (JFunction id, tt).

(** The world in which the Java function object runs. *)
Definition at_invoke (w : world) : world :=
  emit [CallMethod "invoke"]
    (emit [GetObjectClass; GetMethodID "invoke" (invoke_sig 0 dm)] w).

(** X1: a Java exception with a message, raised by the callback and left
    uncaught by the native function, is pending again, the very same
    object, when the adapter returns. *)
Lemma java_exception_identity id w w2 o t m :
  java_invoke id [] (at_invoke w) = (w2, o) ->
  pending w2 = Some t -> thr_message t = Some m ->
  call_pass_callback id w
    = (set_pending (Some t) (emit capture_calls (ExceptionClear w2)), Return tt).
Proof.
  intros Hcall Hp Hm.
  unfold call_pass_callback, invoke. eapply catch_java.
  unfold invoke_body, bind, pack_in, pass_callback. simpl.
  unfold bind, call, ret. simpl. unfold proxy. simpl.
  unfold bind, ret. simpl.
  unfold at_invoke in Hcall. rewrite Hcall.
  unfold ExceptionCheck. rewrite Hp.
  unfold throw_JavaException, bind.
  destruct (capture_with_message t m w2 Hp Hm) as [-> _]. reflexivity.
Qed.

End Callbacks.

(** A Kotlin lambda that runs [throw RuntimeException()]: the throwable
    has no detail message. *)
Definition throws_without_message : nat -> list jobject -> world -> world * jobject :=
  fun _ _ w => (raise "java/lang/RuntimeException" None w, JNull).

(** The same with [throw Exception("non-critical error")]. *)
Definition throws_with_message : nat -> list jobject -> world -> world * jobject :=
  fun _ _ w => (raise "java/lang/Exception" (Some "non-critical error"%string) w, JNull).

(** [Sample.pass_callback { throw RuntimeException() }]: the constructor
    of [JavaException] hands the null message object to
    [GetStringUTFChars], and the call has no defined outcome. *)
Lemma C3_message_less_exception_is_undefined :
  snd (call_pass_callback throws_without_message LP64 5 quiet) = Undefined.
Proof. reflexivity. Qed.

(** [Sample.pass_callback { throw Exception("non-critical error") }]: the
    exception the lambda raised is the one pending on return. *)
Lemma pass_callback_rethrows_original :
  exists w', call_pass_callback throws_with_message LP64 5 quiet = (w', Return tt)
    /\ pending w' = Some {| thr_id := 0; thr_class := "java/lang/Exception";
                            thr_message := Some "non-critical error"%string |}.
Proof.
  eexists. split.
  - eapply (java_exception_identity throws_with_message LP64 5 quiet); reflexivity.
  - reflexivity.
Defined.

End AdapterFacts.

(** ** Data classes: exactly the registered fields *)

Module DataClassFacts.
Import Wire DataClass MonadFacts.

(** One call [.field<member>(name)]: the member's type with its
    [ArgType], the member, and the Java field name. *)
Record registration (T : Type) := {
  r_native : Type;
  r_java : Type;
  r_ArgType : ArgType r_native r_java;
  r_member : member T r_native;
  r_name : string
}.
Arguments r_native {T} _.
Arguments r_java {T} _.
Arguments r_ArgType {T} _.
Arguments r_member {T} _.
Arguments r_name {T} _.

Definition r_sig {T} (r : registration T) : string := wire_sig (r_ArgType r).

Definition binding_of {T} (r : registration T) : FieldBinding T :=
  field (r_ArgType r) (r_member r) (r_name r).

Lemma lookup_store_same name sig v fs :
  is_Some (lookup_field name sig fs) ->
  lookup_field name sig (store_field name sig v fs) = Some v.
Proof.
  induction fs as [|[[n s] v'] fs IH]; simpl; intros [x Hx]; [discriminate|].
  destruct (String.eqb n name && String.eqb s sig) eqn:He; simpl; rewrite He.
  - reflexivity.
  - apply IH. eauto.
Qed.

Lemma lookup_store_other name sig v f s fs :
  f <> name ->
  lookup_field f s (store_field name sig v fs) = lookup_field f s fs.
Proof.
  intros Hne. induction fs as [|[[n s'] v'] fs IH]; simpl; [reflexivity|].
  destruct (String.eqb n name && String.eqb s' sig) eqn:He; simpl.
  - apply andb_prop in He as [Hn _]. apply String.eqb_eq in Hn. subst n.
    assert (Hf : String.eqb name f = false) by (apply String.eqb_neq; congruence).
    now rewrite Hf.
  - now rewrite IH.
Qed.

Lemma lookup_store_present name sig v f s fs :
  is_Some (lookup_field f s fs) -> is_Some (lookup_field f s (store_field name sig v fs)).
Proof.
  induction fs as [|[[n s'] v'] fs IH]; simpl; [trivial|].
  destruct (String.eqb n name && String.eqb s' sig) eqn:He; simpl.
  - destruct (String.eqb n f && String.eqb s' s); eauto.
  - destruct (String.eqb n f && String.eqb s' s); eauto.
Qed.

Section Conversion.
Context {T : Type}.
Variable type_sig : string.
Variable default_object : T.

(** *** Outbound: [java_value] *)

(** What one registered field contributes on the way out: the wire value
    the member converts to, and the calls made for it. *)
Definition field_out (x : T) (r : registration T) (res : jvalue * list jni_call) : Prop :=
  exists j c,
    emits (java_value (r_ArgType r) (member_get (r_member r) x)) j c
    /\ fst res = to_field (r_ArgType r) j
    /\ snd res = [GetFieldID (r_name r) (r_sig r)] ++ c ++ [SetField (r_name r)].

Definition declares (fs : list (string * string * jvalue)) (r : registration T) : Prop :=
  is_Some (lookup_field (r_name r) (r_sig r) fs).

Lemma java_loop_emits x regs : forall rs class fs,
  Forall (declares fs) regs ->
  Forall2 (field_out x) regs rs ->
  exists fs',
    emits (java_loop x (map binding_of regs) (JData class fs)) (JData class fs')
      (concat (map snd rs))
    /\ (forall f s, ~ In f (map r_name regs) -> lookup_field f s fs' = lookup_field f s fs)
    /\ (forall f s, is_Some (lookup_field f s fs) -> is_Some (lookup_field f s fs')).
Proof.
  induction regs as [|r regs IH]; intros rs class fs Hdecl Hout;
    inversion Hout as [|? res ? rs' Hr Hrest]; subst.
  - exists fs. split; [apply emits_ret|]. auto.
  - inversion Hdecl as [|? ? Hd Hdecl']; subst.
    destruct Hr as (j & c & Hj & Hv & Hc).
    destruct (IH rs' class
                (store_field (r_name r) (r_sig r) (to_field (r_ArgType r) j) fs))
      as (fs' & Hloop & Hother & Hpres).
    { eapply Forall_impl; [exact Hdecl'|]. intros r' Hr'. now apply lookup_store_present. }
    { exact Hrest. }
    exists fs'. split; [|split].
    + simpl. eapply emits_eq.
      * eapply emits_bind.
        { unfold getField. eapply emits_bind; [apply emits_call|].
          destruct Hd as [v0 Hv0]. simpl. unfold r_sig in Hv0. rewrite Hv0.
          apply emits_ret. }
        eapply emits_bind.
        { unfold java_field_value. eapply emits_bind; [exact Hj|].
          eapply emits_bind; [apply emits_call | apply emits_ret]. }
        exact Hloop.
      * reflexivity.
      * rewrite Hc. simpl. rewrite <- ?app_assoc. simpl. rewrite ?app_nil_r.
        rewrite <- ?app_assoc. reflexivity.
    + intros f s Hnot. rewrite Hother by (intros Hin; apply Hnot; now right).
      apply lookup_store_other. intros ->. apply Hnot. now left.
    + intros f s Hsome. apply Hpres. now apply lookup_store_present.
Qed.

Lemma zero_object_lookup decl f s :
  In (f, s) decl -> lookup_field f s (fields_of (zero_object type_sig decl)) = Some (zero_value s).
Proof.
  simpl. induction decl as [|[n s'] decl IH]; simpl; [contradiction|].
  intros [Heq | Hin].
  - injection Heq as -> ->. now rewrite !String.eqb_refl.
  - destruct (String.eqb n f && String.eqb s' s) eqn:He.
    + apply andb_prop in He as [_ Hs]. apply String.eqb_eq in Hs. now subst.
    + now apply IH.
Qed.

(** The native members not registered play no part on the way out. *)
Lemma java_loop_agrees (x x' : T) regs :
  Forall (fun r => member_get (r_member r) x = member_get (r_member r) x') regs ->
  forall obj w,
    java_loop x (map binding_of regs) obj w = java_loop x' (map binding_of regs) obj w.
Proof.
  induction 1 as [|r regs Hr _ IH]; intros obj w; simpl; [reflexivity|].
  unfold bind. destruct (getField obj (r_name r) (wire_sig (r_ArgType r)) w)
    as [w1 [fld| |]]; try reflexivity.
  rewrite Hr.
  destruct (java_field_value (r_ArgType r) obj fld (member_get (r_member r) x') w1)
    as [w2 [obj'| |]]; try reflexivity.
  apply IH.
Qed.

(** *** Inbound: [native_value] *)

(** The loop over the registered fields on the way in: from the native
    object [t] so far to the final one, with the calls made for each
    field. *)
Inductive inbound (fs : list (string * string * jvalue))
    : list (registration T) -> T -> T -> list (list jni_call) -> Prop :=
  | inbound_nil t : inbound fs [] t t []
  | inbound_cons r regs t t' v j n c blocks :
      lookup_field (r_name r) (r_sig r) fs = Some v ->
      of_field (r_ArgType r) v = Some j ->
      emits (native_value (r_ArgType r) j) n c ->
      inbound fs regs (member_set (r_member r) n t) t' blocks ->
      inbound fs (r :: regs) t t'
        (([GetFieldID (r_name r) (r_sig r); GetField (r_name r)] ++ c) :: blocks).

Lemma native_loop_emits class fs regs t t' blocks :
  inbound fs regs t t' blocks ->
  emits (native_loop (JData class fs) (map binding_of regs) t) t' (concat blocks).
Proof.
  induction 1 as [t | r regs t t' v j n c blocks Hv Hj Hn _ IH]; simpl.
  - apply emits_ret.
  - eapply emits_eq.
    + eapply emits_bind.
      { unfold getField. eapply emits_bind; [apply emits_call|].
        simpl. unfold r_sig in Hv. rewrite Hv. apply emits_ret. }
      eapply emits_bind.
      { eapply emits_bind; [|apply emits_ret].
        unfold native_field_value. simpl. unfold r_sig in Hv. rewrite Hv, Hj.
        eapply emits_bind; [apply emits_call | exact Hn]. }
      exact IH.
    + reflexivity.
    + simpl. rewrite ?app_nil_r. rewrite <- ?app_assoc. reflexivity.
Qed.

(** A member no registered member's assignment changes keeps its value. *)
Lemma inbound_frame {U} (u : member T U) fs regs t t' blocks :
  inbound fs regs t t' blocks ->
  (forall r v t0, In r regs ->
      member_get u (member_set (r_member r) v t0) = member_get u t0) ->
  member_get u t' = member_get u t.
Proof.
  induction 1 as [t | r regs t t' v j n c blocks Hv Hj Hn _ IH]; intros Hframe.
  - reflexivity.
  - rewrite IH by (intros; apply Hframe; now right).
    apply Hframe. now left.
Qed.

Lemma getField_agrees class class' fs fs' n sg :
  lookup_field n sg fs' = lookup_field n sg fs ->
  getField (JData class' fs') n sg = getField (JData class fs) n sg.
Proof. unfold getField. simpl. now intros ->. Qed.

Lemma getField_returns obj n sg w w1 fld :
  getField obj n sg w = (w1, Return fld) -> fld = (n, sg).
Proof.
  unfold getField, bind, call. simpl.
  destruct (lookup_field n sg (fields_of obj)).
  - unfold ret. intros H. now injection H as _ <-.
  - unfold modify, throw_JavaException, bind, JavaException_ctor. simpl.
    discriminate.
Qed.

Lemma native_field_value_agrees {N J} (A : ArgType N J) class class' fs fs' n sg :
  lookup_field n sg fs' = lookup_field n sg fs ->
  native_field_value A (JData class' fs') (n, sg)
  = native_field_value A (JData class fs) (n, sg).
Proof. unfold native_field_value. simpl. now intros ->. Qed.

(** The Java fields not registered play no part on the way in. *)
Lemma native_loop_agrees class class' fs fs' (regs : list (registration T)) :
  Forall (fun r => lookup_field (r_name r) (r_sig r) fs'
                   = lookup_field (r_name r) (r_sig r) fs) regs ->
  forall (t : T) w,
    native_loop (JData class' fs') (map binding_of regs) t w
    = native_loop (JData class fs) (map binding_of regs) t w.
Proof.
  induction 1 as [|r regs Hr _ IH]; intros t w; simpl; [reflexivity|].
  unfold r_sig in Hr.
  unfold bind. rewrite (getField_agrees class class' fs fs' _ _ Hr).
  destruct (getField (JData class fs) (r_name r) (wire_sig (r_ArgType r)) w)
    as [w1 [fld| |]] eqn:Hg; try reflexivity.
  apply getField_returns in Hg. subst fld.
  rewrite (native_field_value_agrees (r_ArgType r) class class' fs fs' _ _ Hr).
  destruct (native_field_value (r_ArgType r) (JData class fs) _ w1)
    as [w2 [n| |]]; try reflexivity.
  unfold ret. apply IH.
Qed.

(** [ArgType<T>] of the data class whose Java class declares [decl] and
    for which [regs] were registered, in this order. *)
Definition data_class (decl : list (string * string)) (regs : list (registration T))
    : ArgType T jobject :=
  DataClassArgType type_sig (Some decl) default_object (map binding_of regs).

(** C6: both conversions of a data class go through the registered
    fields, one after the other in registration order, and through nothing
    else.  Outbound, the calls are [FindClass], [AllocObject] and then, per
    registered field, [GetFieldID], the member's own conversion and one
    [Set...Field]; every declared Java field that is not registered holds
    its zero value in the result, and native members that are not
    registered do not influence the result.  Inbound, the calls are
    [GetObjectClass] and then, per registered field, [GetFieldID], one
    [Get...Field] and the member's own conversion; every native member
    that no registered member overlaps holds the value the
    default-constructed object gives it, and Java fields that are not
    registered do not influence the result. *)
Theorem C6_exactly_registered_fields decl regs :
  (forall x rs,
      Forall (declares (fields_of (zero_object type_sig decl))) regs ->
      Forall2 (field_out x) regs rs ->
      exists fs',
        emits (java_value (data_class decl regs) x) (JData type_sig fs')
          ([FindClass type_sig; AllocObject type_sig] ++ concat (map snd rs))
        /\ (forall f s, In (f, s) decl -> ~ In f (map r_name regs) ->
              lookup_field f s fs' = Some (zero_value s)))
  /\ (forall x x',
      Forall (fun r => member_get (r_member r) x = member_get (r_member r) x') regs ->
      forall w, java_value (data_class decl regs) x w = java_value (data_class decl regs) x' w)
  /\ (forall class fs t' blocks,
      inbound fs regs default_object t' blocks ->
      emits (native_value (data_class decl regs) (JData class fs)) t'
        ([GetObjectClass] ++ concat blocks)
      /\ (forall U (u : member T U),
            (forall r v t0, In r regs ->
                member_get u (member_set (r_member r) v t0) = member_get u t0) ->
            member_get u t' = member_get u default_object))
  /\ (forall class class' fs fs',
      Forall (fun r => lookup_field (r_name r) (r_sig r) fs'
                       = lookup_field (r_name r) (r_sig r) fs) regs ->
      forall w, native_value (data_class decl regs) (JData class' fs') w
                = native_value (data_class decl regs) (JData class fs) w).
Proof.
  split; [|split; [|split]].
  - intros x rs Hdecl Hout.
    destruct (java_loop_emits x regs rs type_sig _ Hdecl Hout) as (fs' & Hloop & Hother & _).
    exists fs'. split.
    + unfold data_class. simpl. eapply emits_eq.
      * eapply emits_bind; [apply emits_call|].
        eapply emits_bind; [apply emits_call | exact Hloop].
      * reflexivity.
      * reflexivity.
    + intros f s Hin Hnot. rewrite (Hother f s Hnot). now apply zero_object_lookup.
  - intros x x' Hagree w. unfold data_class. simpl. unfold bind, call. simpl.
    now apply java_loop_agrees.
  - intros class fs t' blocks Hin. split.
    + unfold data_class. simpl. eapply emits_eq.
      * eapply emits_bind; [apply emits_call | apply native_loop_emits; exact Hin].
      * reflexivity.
      * reflexivity.
    + intros U u Hframe. eapply inbound_frame; eassumption.
  - intros class class' fs fs' Hagree w. unfold data_class. simpl. unfold bind, call.
    simpl. now apply native_loop_agrees.
Qed.

End Conversion.

(** *** A data class with one member left out

    [struct Reading { int value = 1024; int scratch = 7; std::string unit = "mm"; }]
    against a Java class with the fields [value: Int], [unit: String] and
    [cached: Long]; [value] and [unit] are registered. *)
Record Reading := { value : Z; scratch : Z; unit_ : string }.

Definition Reading_default : Reading := {| value := 1024; scratch := 7; unit_ := "mm" |}.

Definition Reading_value : member Reading Z :=
  {| member_get := value;
     member_set := fun v r => {| value := v; scratch := scratch r; unit_ := unit_ r |} |}.
Definition Reading_scratch : member Reading Z :=
  {| member_get := scratch;
     member_set := fun v r => {| value := value r; scratch := v; unit_ := unit_ r |} |}.
Definition Reading_unit : member Reading string :=
  {| member_get := unit_;
     member_set := fun v r => {| value := value r; scratch := scratch r; unit_ := v |} |}.

Definition Reading_fields : list (registration Reading) :=
  [ {| r_ArgType := FundamentalArgType LP64 true (fun _ _ z => z) PInt;
       r_member := Reading_value; r_name := "value" |};
    {| r_ArgType := StringArgType LP64;
       r_member := Reading_unit; r_name := "unit" |} ].

Definition Reading_declared : list (string * string) :=
  [("value", "I"); ("unit", "Ljava/lang/String;"); ("cached", "J")]%string.

Definition Reading_sig : string := "Lcom/example/Reading;".

(** Inbound: the unregistered member [scratch] keeps its default 7;
    outbound: the unregistered Java field [cached] stays 0. *)
Lemma C6_exactly_registered_fields_witness :
  (exists fs',
      emits (java_value (data_class Reading_sig Reading_default Reading_declared Reading_fields)
               {| value := 5; scratch := 99; unit_ := "cm" |})
        (JData Reading_sig fs')
        [FindClass Reading_sig; AllocObject Reading_sig;
         GetFieldID "value" "I"; SetField "value";
         GetFieldID "unit" "Ljava/lang/String;"; NewStringUTF; SetField "unit"]
      /\ lookup_field "cached" "J" fs' = Some (JPrimV 0))
  /\ (emits (native_value (data_class Reading_sig Reading_default Reading_declared Reading_fields)
               (JData "com/example/Reading"
                  [("value", "I", JPrimV 5); ("unit", "Ljava/lang/String;", JObjV (JString "cm"));
                   ("cached", "J", JPrimV 12345)]%string))
        {| value := 5; scratch := 7; unit_ := "cm" |}
        [GetObjectClass; GetFieldID "value" "I"; GetField "value";
         GetFieldID "unit" "Ljava/lang/String;"; GetField "unit";
         GetStringUTFLength; GetStringUTFChars]).
Proof.
  destruct (C6_exactly_registered_fields Reading_sig Reading_default
              Reading_declared Reading_fields) as (Hout & _ & Hin & _).
  split.
  - destruct (Hout {| value := 5; scratch := 99; unit_ := "cm" |}
                [(JPrimV 5, [GetFieldID "value" "I"; SetField "value"]);
                 (JObjV (JString "cm"),
                  [GetFieldID "unit" "Ljava/lang/String;"; NewStringUTF; SetField "unit"])])
      as (fs' & Hemits & Hzero).
    + repeat constructor; eexists; reflexivity.
    + repeat constructor.
      * exists 5, []. split; [apply emits_ret|]. split; reflexivity.
      * exists (JString "cm"), [NewStringUTF]. split; [|split; reflexivity].
        intros w. reflexivity.
    + exists fs'. split; [exact Hemits|].
      apply (Hzero "cached"%string "J"%string).
      * right. right. now left.
      * simpl. intros [H|[H|[]]]; discriminate H.
  - refine (proj1 (Hin "com/example/Reading"%string _ _
                     [[GetFieldID "value" "I"; GetField "value"];
                      [GetFieldID "unit" "Ljava/lang/String;"; GetField "unit";
                       GetStringUTFLength; GetStringUTFChars]] _)).
    eapply inbound_cons with (v := JPrimV 5) (j := 5) (n := 5) (c := []);
      [reflexivity | reflexivity | apply emits_ret |].
    eapply inbound_cons with (v := JObjV (JString "cm")) (j := JString "cm")
                             (n := "cm"%string)
                             (c := [GetStringUTFLength; GetStringUTFChars]);
      [reflexivity | reflexivity | |].
    { eapply emits_eq;
        [eapply emits_bind; [apply emits_call|]; simpl;
         eapply emits_bind; [apply emits_call | apply emits_ret]
        | reflexivity | reflexivity]. }
    apply inbound_nil.
Defined.

End DataClassFacts.

(** ** Round trips of values *)

Module RoundTripFacts.
Import Traits Wire MonadFacts.

(** [m] returns [a], whatever the world. *)
Definition returns {A} (m : M A) (a : A) : Prop := exists cs, emits m a cs.

Lemma returns_ret {A} (a : A) : returns (ret a) a.
Proof. exists []. apply emits_ret. Qed.

Lemma returns_bind {A B} (m : M A) (k : A -> M B) a b :
  returns m a -> returns (k a) b -> returns (bind m k) b.
Proof. intros [c1 H1] [c2 H2]. exists (c1 ++ c2). eapply emits_bind; eassumption. Qed.

Lemma returns_call {B} cs (k : unit -> M B) b :
  returns (k tt) b -> returns (bind (call cs) k) b.
Proof. intros H. eapply returns_bind; [|exact H]. exists cs. apply emits_call. Qed.

(** *** Casts *)

Lemma wrap_signed_small b z :
  0 < b -> - 2 ^ (b - 1) <= z < 2 ^ (b - 1) -> wrap_signed b z = z.
Proof.
  intros Hb Hz. unfold wrap_signed.
  assert (H2 : 2 ^ b = 2 * 2 ^ (b - 1)).
  { replace b with (Z.succ (b - 1)) at 1 by lia. rewrite Z.pow_succ_r by lia. lia. }
  rewrite Z.mod_small by lia. lia.
Qed.

Lemma wrap_unsigned_small b z : 0 <= z < 2 ^ b -> wrap_unsigned b z = z.
Proof. intros Hz. unfold wrap_unsigned. now apply Z.mod_small. Qed.

Lemma wrap_unsigned_signed b z :
  0 < b -> 0 <= z < 2 ^ b -> wrap_unsigned b (wrap_signed b z) = z.
Proof.
  intros Hb Hz. unfold wrap_unsigned, wrap_signed.
  assert (H2 : 2 ^ b = 2 * 2 ^ (b - 1)).
  { replace b with (Z.succ (b - 1)) at 1 by lia. rewrite Z.pow_succ_r by lia. lia. }
  assert (Hp : 0 < 2 ^ (b - 1)) by (apply Z.pow_pos_nonneg; lia).
  rewrite Zminus_mod_idemp_l.
  replace (z + 2 ^ (b - 1) - 2 ^ (b - 1)) with z by lia.
  now apply Z.mod_small.
Qed.

(** *** Insertion into the native containers *)

Lemma insert_at_perm {A} i (x : A) l : Permutation (insert_at i x l) (x :: l).
Proof.
  unfold insert_at. rewrite <- (take_drop i l) at 3.
  symmetry. apply Permutation_middle.
Qed.

Lemma insert_at_map {A B} (f : A -> B) i x l :
  map f (insert_at i x l) = insert_at i (f x) (map f l).
Proof.
  unfold insert_at. rewrite map_app. simpl.
  now rewrite <- !fmap_take, <- !fmap_drop.
Qed.

Section Keyed.
Context {A K : Type}.
Variable key : A -> K.
Variable less : K -> K -> bool.
Hypothesis less_irrefl : forall a, less a a = false.
Hypothesis less_trans : forall a b c, less a b = true -> less b c = true -> less a c = true.
Hypothesis less_total : forall a b, less a b = false -> less b a = false -> a = b.

(** Insertion of an element whose key is not present yet. *)
Fixpoint keyed_insert (a : A) (l : list A) : list A :=
  match l with
  | [] => [a]
  | b :: l' => if less (key a) (key b) then a :: l else b :: keyed_insert a l'
  end.

(** Strictly increasing keys. *)
Inductive keyed_sorted : list A -> Prop :=
  | keyed_sorted_nil : keyed_sorted []
  | keyed_sorted_cons a l :
      Forall (fun b => less (key a) (key b) = true) l -> keyed_sorted l ->
      keyed_sorted (a :: l).

Lemma keyed_insert_perm a l : Permutation (keyed_insert a l) (a :: l).
Proof using Type.
  induction l as [|b l IH]; simpl; [reflexivity|].
  destruct (less (key a) (key b)); [reflexivity|].
  rewrite IH. apply perm_swap.
Qed.

Lemma keyed_insert_sorted a l :
  keyed_sorted l -> Forall (fun b => key b <> key a) l -> keyed_sorted (keyed_insert a l).
Proof using less_trans less_total.
  induction 1 as [|b l Hb Hs IH]; intros Hfresh; simpl.
  - constructor; constructor.
  - inversion Hfresh as [|? ? Hne Hfresh']; subst.
    destruct (less (key a) (key b)) eqn:Hab.
    + constructor; [|now constructor].
      constructor; [exact Hab|].
      eapply Forall_impl; [exact Hb|]. intros c Hc. simpl in Hc. eauto.
    + constructor; [|now apply IH].
      assert (Hba : less (key b) (key a) = true).
      { destruct (less (key b) (key a)) eqn:Hba; [reflexivity|].
        exfalso. apply Hne. symmetry. now apply less_total. }
      eapply Permutation_Forall; [symmetry; apply keyed_insert_perm|].
      now constructor.
Qed.

Lemma keyed_sorted_unique l1 : forall l2,
  keyed_sorted l1 -> keyed_sorted l2 -> Permutation l1 l2 -> l1 = l2.
Proof using less_irrefl less_trans.
  induction l1 as [|a l1 IH]; intros l2 H1 H2 Hp.
  - apply Permutation_nil in Hp. now subst.
  - destruct l2 as [|b l2]; [now apply Permutation_sym, Permutation_nil in Hp|].
    inversion H1 as [|? ? Ha Hs1]; subst. inversion H2 as [|? ? Hb Hs2]; subst.
    assert (Hab : a = b).
    { assert (Hina : In a (b :: l2)) by (eapply Permutation_in; [exact Hp | now left]).
      assert (Hinb : In b (a :: l1))
        by (eapply Permutation_in; [symmetry; exact Hp | now left]).
      destruct Hina as [-> | Hina]; [reflexivity|].
      destruct Hinb as [-> | Hinb]; [reflexivity|].
      rewrite Forall_forall in Ha, Hb.
      apply list_elem_of_In in Hina, Hinb.
      specialize (Ha b Hinb). specialize (Hb a Hina). simpl in Ha, Hb.
      pose proof (less_trans _ _ _ Ha Hb) as Hc. rewrite less_irrefl in Hc. discriminate. }
    subst b. f_equal. apply IH; [assumption | assumption |].
    eapply Permutation_cons_inv. exact Hp.
Qed.

(** A container filled by inserting elements with distinct keys one by
    one holds exactly these elements, in key order when it is an ordered
    container. *)
Section Fill.
Variable ins : A -> list A -> list A.
Variable ordered : Prop.
Hypothesis ins_fresh : forall a acc,
  key a ∉ map key acc ->
  Permutation (ins a acc) (a :: acc)
  /\ (ordered -> keyed_sorted acc -> keyed_sorted (ins a acc)).

Lemma fill_fresh l : forall acc,
  NoDup (map key (l ++ acc)) -> (ordered -> keyed_sorted acc) ->
  Permutation (fold_left (fun m a => ins a m) l acc) (l ++ acc)
  /\ (ordered -> keyed_sorted (fold_left (fun m a => ins a m) l acc)).
Proof using ins_fresh.
  induction l as [|a l IH]; intros acc Hnd Hs; simpl.
  - auto.
  - simpl in Hnd. apply NoDup_cons in Hnd as [Hnotin Hnd].
    assert (Hfresh : key a ∉ map key acc).
    { intros Hin. apply Hnotin. rewrite map_app. apply elem_of_app. now right. }
    destruct (ins_fresh a acc Hfresh) as [Hp Hso].
    assert (Hperm : Permutation (l ++ ins a acc) (a :: l ++ acc)).
    { rewrite Hp. symmetry. apply Permutation_middle. }
    destruct (IH (ins a acc)) as [Hp' Hs'].
    + rewrite Hperm. simpl. apply NoDup_cons. now split.
    + auto.
    + split; [now rewrite Hp'|exact Hs'].
Qed.
End Fill.

(** Being sorted is a matter of the keys alone. *)
Lemma keyed_sorted_keys l l' :
  map key l = map key l' -> keyed_sorted l -> keyed_sorted l'.
Proof using Type.
  intros Hk Hs. revert l' Hk.
  induction Hs as [|a l Ha Hs IH]; intros l' Hk.
  - symmetry in Hk. apply map_eq_nil in Hk. subst. constructor.
  - destruct l' as [|a' l']; [discriminate|]. simpl in Hk.
    injection Hk as Hk1 Hk2. constructor; [|now apply IH].
    rewrite <- Hk1.
    assert (H : Forall (fun k => less (key a) k = true) (map key l))
      by (apply Forall_fmap; exact Ha).
    rewrite Hk2 in H. apply Forall_fmap in H. exact H.
Qed.

End Keyed.

Lemma ordered_insert_fresh {K} (less : K -> K -> bool) x s :
  (forall a b, less a b = false -> less b a = false -> a = b) ->
  x ∉ s -> ordered_insert less x s = keyed_insert (fun a => a) less x s.
Proof.
  intros Htotal. induction s as [|y s IH]; intros Hx; simpl; [reflexivity|].
  apply not_elem_of_cons in Hx as [Hne Hx].
  destruct (less x y) eqn:Hxy; [reflexivity|].
  destruct (less y x) eqn:Hyx; [now rewrite IH|].
  exfalso. apply Hne. now apply Htotal.
Qed.

Lemma ordered_assign_fresh {K V} (less : K -> K -> bool) k (v : V) m :
  (forall a b, less a b = false -> less b a = false -> a = b) ->
  k ∉ map fst m -> ordered_assign less k v m = keyed_insert fst less (k, v) m.
Proof.
  intros Htotal. induction m as [|[k' v'] m IH]; intros Hk; simpl; [reflexivity|].
  simpl in Hk. apply not_elem_of_cons in Hk as [Hne Hk].
  destruct (less k k') eqn:Hxy; [reflexivity|].
  destruct (less k' k) eqn:Hyx; [now rewrite IH|].
  exfalso. apply Hne. now apply Htotal.
Qed.

Lemma existsb_fresh {K} (eqb : K -> K -> bool) x s :
  (forall a b, eqb a b = true -> a = b) -> x ∉ s -> existsb (eqb x) s = false.
Proof.
  intros Heq Hx. apply not_true_is_false. intros H.
  apply existsb_exists in H as (y & Hy & Hxy).
  apply Heq in Hxy. subst y. apply Hx. now apply list_elem_of_In.
Qed.

(** What the native operators provide: a strict total order, and an
    equality that is the identity of values. *)
Record lawful {K} (ops : NativeKey K) : Prop := {
  less_irrefl : forall a, key_less ops a a = false;
  less_trans : forall a b c,
    key_less ops a b = true -> key_less ops b c = true -> key_less ops a c = true;
  less_total : forall a b,
    key_less ops a b = false -> key_less ops b a = false -> a = b;
  equal_eq : forall a b, key_equal ops a b = true -> a = b
}.


Lemma native_insert_fresh {K} (ops : NativeKey K) c a acc :
  lawful ops -> a ∉ map (fun a => a) acc ->
  Permutation (native_insert ops c a acc) (a :: acc)
  /\ (c = Ordered -> keyed_sorted (fun a => a) (key_less ops) acc ->
      keyed_sorted (fun a => a) (key_less ops) (native_insert ops c a acc)).
Proof.
  intros L Ha. rewrite map_id in Ha. destruct c; simpl.
  - rewrite ordered_insert_fresh by (try exact Ha; apply L). split.
    + apply keyed_insert_perm.
    + intros _ Hs. apply keyed_insert_sorted; try apply L; [exact Hs|].
      apply Forall_forall. intros b Hb ->. now apply Ha.
  - rewrite existsb_fresh by (try exact Ha; apply L).
    split; [apply insert_at_perm | discriminate].
Qed.

Lemma native_assign_fresh {K V} (ops : NativeKey K) c (e : K * V) acc :
  lawful ops -> fst e ∉ map fst acc ->
  Permutation (native_assign ops c (fst e) (snd e) acc) (e :: acc)
  /\ (c = Ordered -> keyed_sorted fst (key_less ops) acc ->
      keyed_sorted fst (key_less ops) (native_assign ops c (fst e) (snd e) acc)).
Proof.
  intros L Ha. destruct e as [k v]. destruct c; simpl in *.
  - rewrite ordered_assign_fresh by (try exact Ha; apply L). split.
    + apply keyed_insert_perm.
    + intros _ Hs. apply keyed_insert_sorted; try apply L; [exact Hs|].
      apply Forall_forall. intros b Hb Heq. apply Ha. simpl in Heq. rewrite <- Heq.
      now apply list_elem_of_fmap_2.
  - rewrite existsb_fresh by (try exact Ha; apply L).
    split; [apply insert_at_perm | discriminate].
Qed.

(** *** Insertion among keys that the container tells apart

    A native container holds keys of which no two are equivalent; what
    is inserted with a key that is apart from those present goes in, and
    an ordered container stays in order.  Nothing else is asked of the
    operators here: the two zeros of a floating type are equal without
    being the same, and a NaN is unordered. *)

Definition told_apart {K} (apart : K -> K -> Prop) (ks : list K) : Prop :=
  NoDup ks /\ forall a b, a ∈ ks -> b ∈ ks -> a <> b -> apart a b.

Lemma told_apart_perm {K} (apart : K -> K -> Prop) ks ks' :
  Permutation ks ks' -> told_apart apart ks -> told_apart apart ks'.
Proof.
  intros Hp [Hnd Ha]. split; [now rewrite <- Hp|].
  intros a b Hina Hinb. rewrite <- Hp in Hina, Hinb. auto.
Qed.

Lemma told_apart_impl {K} (apart apart' : K -> K -> Prop) ks :
  (forall a b, a ∈ ks -> b ∈ ks -> apart a b -> apart' a b) ->
  told_apart apart ks -> told_apart apart' ks.
Proof. intros Himp [Hnd Ha]. split; [exact Hnd|]. auto. Qed.

Lemma told_apart_cons {K} (apart : K -> K -> Prop) a ks :
  told_apart apart (a :: ks) -> Forall (apart a) ks /\ told_apart apart ks.
Proof.
  intros [Hnd Ha]. apply NoDup_cons in Hnd as [Hnotin Hnd]. split.
  - apply Forall_forall. intros b Hb. apply Ha.
    + apply elem_of_cons. now left.
    + apply elem_of_cons. now right.
    + intros ->. contradiction.
  - split; [exact Hnd|]. intros x y Hx Hy. apply Ha; apply elem_of_cons; now right.
Qed.

Lemma told_apart_pairs {K} (R : K -> K -> Prop) l :
  (forall a, ~ R a a) -> (forall a b, R a b -> R b a) ->
  ForallOrdPairs R l -> told_apart R l.
Proof.
  intros Hirr Hsym Hl. split.
  - induction Hl as [|a l Ha _ IH]; constructor; [|exact IH].
    intros Hin. rewrite Forall_forall in Ha. exact (Hirr a (Ha a Hin)).
  - intros a b Hina Hinb Hne.
    apply list_elem_of_In in Hina, Hinb.
    destruct (ForallOrdPairs_In Hl a b Hina Hinb) as [Heq | [H | H]]; auto.
    contradiction.
Qed.

Section Among.
Context {A K : Type}.
Variable key : A -> K.
Variable less : K -> K -> bool.
Hypothesis less_irrefl : forall a, less a a = false.
Hypothesis less_trans : forall a b c, less a b = true -> less b c = true -> less a c = true.

(** One of the two comes before the other. *)
Definition in_order (a b : K) : Prop := less a b = true \/ less b a = true.

Lemma keyed_insert_among a l :
  keyed_sorted key less l -> Forall (fun b => in_order (key a) (key b)) l ->
  keyed_sorted key less (keyed_insert key less a l).
Proof using less_trans.
  induction 1 as [|b l Hb Hs IH]; intros Hall; simpl.
  - constructor; constructor.
  - inversion Hall as [|? ? Hab Hall']; subst.
    destruct (less (key a) (key b)) eqn:E.
    + constructor; [|now constructor].
      constructor; [exact E|].
      eapply Forall_impl; [exact Hb|]. intros c Hc. simpl in Hc. eauto.
    + constructor; [|now apply IH].
      assert (Hba : less (key b) (key a) = true)
        by (destruct Hab as [H | H]; [congruence | exact H]).
      eapply Permutation_Forall; [symmetry; apply keyed_insert_perm|].
      now constructor.
Qed.

Lemma keyed_sorted_told_apart l :
  keyed_sorted key less l -> told_apart in_order (map key l).
Proof using less_irrefl.
  induction 1 as [|a l Ha Hs [Hnd IH]].
  - split; [constructor|]. intros a b Hin. now apply elem_of_nil in Hin.
  - assert (Hk : Forall (fun k => less (key a) k = true) (map key l))
      by (apply Forall_fmap; exact Ha).
    rewrite Forall_forall in Hk. split.
    + simpl. apply NoDup_cons. split; [|exact Hnd].
      intros Hin. specialize (Hk _ Hin). rewrite less_irrefl in Hk. discriminate.
    + simpl. intros x y Hx Hy Hne.
      apply elem_of_cons in Hx as [-> | Hx]; apply elem_of_cons in Hy as [-> | Hy].
      * contradiction.
      * left. now apply Hk.
      * right. now apply Hk.
      * now apply IH.
Qed.

Lemma keyed_sorted_fmap l :
  keyed_sorted (fun k => k) less (map key l) <-> keyed_sorted key less l.
Proof using Type.
  induction l as [|a l IH]; simpl.
  - split; constructor.
  - split; intros H; inversion H as [|? ? Ha Hs]; subst; constructor.
    + exact (proj1 (Forall_fmap key (fun k => less (key a) k = true) l) Ha).
    + now apply IH.
    + exact (proj2 (Forall_fmap key (fun k => less (key a) k = true) l) Ha).
    + now apply IH.
Qed.

(** A container filled by inserting one by one elements whose keys
    are told apart holds exactly these elements, in key order when it is
    an ordered container. *)
Section FillAmong.
Variable ins : A -> list A -> list A.
Variable ordered : Prop.
Variable apart : K -> K -> Prop.
Hypothesis ins_among : forall a acc,
  Forall (fun b => apart (key a) (key b)) acc ->
  Permutation (ins a acc) (a :: acc)
  /\ (ordered -> keyed_sorted key less acc -> keyed_sorted key less (ins a acc)).

Lemma fill_among l : forall acc,
  told_apart apart (map key (l ++ acc)) -> (ordered -> keyed_sorted key less acc) ->
  Permutation (fold_left (fun m a => ins a m) l acc) (l ++ acc)
  /\ (ordered -> keyed_sorted key less (fold_left (fun m a => ins a m) l acc)).
Proof using ins_among.
  induction l as [|a l IH]; intros acc Ht Hs; simpl.
  - auto.
  - pose proof Ht as Ht0. simpl in Ht. apply told_apart_cons in Ht as [Hall _].
    assert (Hacc : Forall (fun b => apart (key a) (key b)) acc).
    { rewrite map_app in Hall. apply Forall_app in Hall as [_ Hall].
      exact (proj1 (Forall_fmap key (apart (key a)) acc) Hall). }
    destruct (ins_among a acc Hacc) as [Hp Hso].
    assert (Hperm : Permutation (l ++ ins a acc) (a :: l ++ acc)).
    { rewrite Hp. symmetry. apply Permutation_middle. }
    destruct (IH (ins a acc)) as [Hp' Hs'].
    + eapply told_apart_perm; [|exact Ht0].
      symmetry. now apply Permutation_map.
    + auto.
    + split; [now rewrite Hp'|exact Hs'].
Qed.
End FillAmong.

End Among.

Lemma ordered_insert_among {K} (less : K -> K -> bool) x s :
  Forall (in_order less x) s ->
  ordered_insert less x s = keyed_insert (fun a => a) less x s.
Proof.
  induction 1 as [|y s Hxy _ IH]; simpl; [reflexivity|].
  destruct (less x y) eqn:E; [reflexivity|].
  destruct Hxy as [H | H]; [congruence|]. now rewrite H, IH.
Qed.

Lemma ordered_assign_among {K V} (less : K -> K -> bool) k (v : V) m :
  Forall (fun e => in_order less k (fst e)) m ->
  ordered_assign less k v m = keyed_insert fst less (k, v) m.
Proof.
  induction 1 as [|[k' v'] m Hk _ IH]; simpl; [reflexivity|].
  simpl in Hk. destruct (less k k') eqn:E; [reflexivity|].
  destruct Hk as [H | H]; [congruence|]. now rewrite H, IH.
Qed.

Lemma existsb_among {K} (eqb : K -> K -> bool) x s :
  Forall (fun y => eqb x y = false) s -> existsb (eqb x) s = false.
Proof. induction 1 as [|y s Hy _ IH]; simpl; [reflexivity|]. now rewrite Hy, IH. Qed.

(** What tells two keys of a native container apart: [operator<] in
    an ordered one, [operator==] in a hashed one. *)
Definition native_apart {K} (ops : NativeKey K) (c : container) (a b : K) : Prop :=
  match c with
  | Ordered => in_order (key_less ops) a b
  | Unordered => key_equal ops a b = false
  end.

Lemma native_insert_among {K} (ops : NativeKey K) c a acc :
  (forall x y z, key_less ops x y = true -> key_less ops y z = true ->
                 key_less ops x z = true) ->
  Forall (native_apart ops c a) acc ->
  Permutation (native_insert ops c a acc) (a :: acc)
  /\ (c = Ordered -> keyed_sorted (fun a => a) (key_less ops) acc ->
      keyed_sorted (fun a => a) (key_less ops) (native_insert ops c a acc)).
Proof.
  intros Htrans Ha. destruct c; simpl in *.
  - rewrite ordered_insert_among by exact Ha. split.
    + apply keyed_insert_perm.
    + intros _ Hs. now apply keyed_insert_among.
  - rewrite existsb_among by exact Ha.
    split; [apply insert_at_perm | discriminate].
Qed.

Lemma native_assign_among {K V} (ops : NativeKey K) c (e : K * V) acc :
  (forall x y z, key_less ops x y = true -> key_less ops y z = true ->
                 key_less ops x z = true) ->
  Forall (fun b => native_apart ops c (fst e) (fst b)) acc ->
  Permutation (native_assign ops c (fst e) (snd e) acc) (e :: acc)
  /\ (c = Ordered -> keyed_sorted fst (key_less ops) acc ->
      keyed_sorted fst (key_less ops) (native_assign ops c (fst e) (snd e) acc)).
Proof.
  intros Htrans Ha. destruct e as [k v]. destruct c; simpl in *.
  - rewrite ordered_assign_among by exact Ha. split.
    + apply keyed_insert_perm.
    + intros _ Hs. now apply (keyed_insert_among fst).
  - rewrite existsb_among
      by exact (proj2 (Forall_fmap fst (fun y => key_equal ops k y = false) acc) Ha).
    split; [apply insert_at_perm | discriminate].
Qed.

(** Whether a string holds a NUL character. *)
Fixpoint has_nul (s : string) : bool :=
  match s with
  | EmptyString => false
  | String c s' => Ascii.eqb c Ascii.zero || has_nul s'
  end.

Lemma zero_byte c : Ascii.eqb c Ascii.zero = (nat_of_ascii c =? 0)%nat.
Proof.
  destruct (Ascii.eqb_spec c Ascii.zero) as [-> | Hne]; [reflexivity|].
  symmetry. apply Nat.eqb_neq. intros H0. apply Hne.
  rewrite <- (ascii_nat_embedding c), H0. reflexivity.
Qed.

Lemma continuation_not_zero c : continuation c = true -> Ascii.eqb c Ascii.zero = false.
Proof.
  unfold continuation. intros H. apply andb_prop in H as [H _].
  apply Nat.leb_le in H. rewrite zero_byte. apply Nat.eqb_neq. lia.
Qed.

(** Modified UTF-8 has no zero byte: U+0000 is [C0 80]. *)
Lemma modified_utf8_no_nul s : modified_utf8 s = true -> has_nul s = false.
Proof.
  remember (String.length s) as n eqn:Hn. revert s Hn.
  induction n as [n IH] using lt_wf_ind. intros s Hn.
  destruct s as [|c s1]; [reflexivity|].
  cbn [modified_utf8 has_nul]. rewrite zero_byte.
  destruct (nat_of_ascii c =? 0)%nat; [discriminate|]. cbn [orb].
  simpl in Hn.
  destruct (nat_of_ascii c <? 128)%nat.
  { apply (IH (String.length s1)); [lia | reflexivity]. }
  destruct (nat_of_ascii c <? 192)%nat; [discriminate|].
  destruct (nat_of_ascii c <? 224)%nat.
  { destruct s1 as [|c2 s2]; [discriminate|]. intros H.
    apply andb_prop in H as [H H2]. apply andb_prop in H as [Hc _].
    cbn [has_nul]. rewrite (continuation_not_zero c2 Hc). cbn [orb].
    simpl in Hn. apply (IH (String.length s2)); [lia | reflexivity | exact H2]. }
  destruct (nat_of_ascii c <? 240)%nat; [|discriminate].
  destruct s1 as [|c2 [|c3 s3]]; try discriminate. intros H.
  apply andb_prop in H as [H H3]. apply andb_prop in H as [H _].
  apply andb_prop in H as [Hc2 Hc3].
  cbn [has_nul]. rewrite (continuation_not_zero c2 Hc2), (continuation_not_zero c3 Hc3).
  cbn [orb]. simpl in Hn. apply (IH (String.length s3)); [lia | reflexivity | exact H3].
Qed.

Section RoundTrip.
Variable dm : data_model.
Variable char_signed : bool.
Variable java_slot : string -> jobject -> list jobject -> nat.
Variable number_conversion : string -> string -> Z -> Z.
Variable hash_slot_int : Z -> list Z -> nat.
Variable hash_slot_string : string -> list string -> nat.

Local Abbreviation native_repr := (native_repr dm char_signed).
Local Abbreviation java_repr := (java_repr dm).
Local Abbreviation Fundamental := (FundamentalArgType dm char_signed number_conversion).

Local Abbreviation KeyArg := (KeyArgType dm char_signed number_conversion).
Local Abbreviation ops := (key_ops hash_slot_int hash_slot_string).
Local Abbreviation Arg :=
  (ArgType_of dm char_signed java_slot number_conversion hash_slot_int hash_slot_string).

Lemma sizeof_long_cases : sizeof_long dm = 8%nat \/ sizeof_long dm = 4%nat.
Proof. destruct dm; auto. Qed.

(** A native value in range comes back from its Java representation. *)
Lemma cast_round_trip p z :
  in_range (native_repr p) z -> cast (native_repr p) (cast (java_repr p) z) = z.
Proof.
  assert (H8 : 8 * Z.of_nat 8 = 64) by reflexivity.
  assert (H4 : 8 * Z.of_nat 4 = 32) by reflexivity.
  destruct p; simpl;
    try (destruct char_signed; simpl);
    try (destruct dm; simpl);
    rewrite ?H8, ?H4; intros H;
    first
      [ destruct H as [-> | ->]; reflexivity
      | rewrite !(wrap_signed_small _ z) by (first [exact H | lia]); reflexivity
      | rewrite (wrap_unsigned_signed _ z) by (first [exact H | lia]); reflexivity
      | rewrite !(wrap_unsigned_small _ z) by exact H; reflexivity
      | reflexivity ].
Qed.

(** *** Strings *)

Lemma c_str_without_nul s : has_nul s = false -> c_str s = s.
Proof.
  induction s as [|c s IH]; simpl; [reflexivity|].
  destruct (Ascii.eqb c Ascii.zero); simpl; [discriminate|].
  intros H. now rewrite IH.
Qed.

Lemma c_str_fixed s : c_str s = s -> has_nul s = false.
Proof.
  induction s as [|c s IH]; simpl; [reflexivity|].
  destruct (Ascii.eqb c Ascii.zero); simpl; [discriminate|].
  intros H. injection H as H. auto.
Qed.

(** A Java string arrives as its modified UTF-8 form. *)
Lemma string_comes_back utf :
  returns (native_value (StringArgType dm) (JString utf)) utf.
Proof.
  simpl. apply returns_call.
  destruct (0 <? String.length utf)%nat eqn:Hlen.
  - apply returns_call, returns_ret.
  - destruct utf; [apply returns_ret | discriminate].
Qed.

(** What a string becomes on the way out: its C string, when that is
    modified UTF-8. *)
Lemma string_goes_out s :
  modified_utf8 (c_str s) = true ->
  returns (java_value (StringArgType dm) s) (JString (c_str s)).
Proof. intros Hs. simpl. apply returns_call. rewrite Hs. apply returns_ret. Qed.

Lemma string_went_out s j :
  returns (java_value (StringArgType dm) s) j ->
  modified_utf8 (c_str s) = true /\ j = JString (c_str s).
Proof.
  intros [cs H]. specialize (H quiet). cbn [java_value StringArgType] in H.
  unfold bind, call in H.
  destruct (modified_utf8 (c_str s)); [|discriminate H].
  unfold ret in H. injection H as _ H. auto.
Qed.

(** *** The element of a collection: conversion, boxing, unboxing,
    conversion *)

Definition round_trip {N J} (A : ArgType N J) (x : N) (o : jobject) (y : N) : Prop :=
  exists j,
    returns (java_value A x) j /\ returns (java_box A j) o
    /\ returns (java_unbox A o) j /\ returns (native_value A j) y.

(** Objects are their own boxes. *)
Lemma round_trip_object {N} (A : ArgType N jobject) x o y :
  java_box A = ret -> java_unbox A = ret ->
  returns (java_value A x) o -> returns (native_value A o) y ->
  round_trip A x o y.
Proof.
  intros Hb Hu Hj Hn. exists o. rewrite Hb, Hu.
  repeat split; try assumption; apply returns_ret.
Qed.

Lemma accessor_found p :
  has_accessor (class_name dm (ctype_of_prim p))
    (Text.join [primitive_type dm p; "Value"]) = true.
Proof. destruct p, dm; reflexivity. Qed.

Definition box (p : prim) (z : Z) : jobject :=
  JBoxed (class_name dm (ctype_of_prim p)) (cast (java_repr p) z).

Lemma prim_round_trip p z :
  in_range (native_repr p) z -> round_trip (Fundamental p) z (box p z) z.
Proof.
  intros Hz. exists (cast (java_repr p) z). repeat split.
  - apply returns_ret.
  - simpl. apply returns_call, returns_ret.
  - unfold box. cbn [java_unbox FundamentalArgType].
    rewrite accessor_found, String.eqb_refl.
    apply returns_call, returns_ret.
  - simpl. rewrite cast_round_trip by exact Hz. apply returns_ret.
Qed.

Lemma string_round_trip s :
  modified_utf8 s = true -> round_trip (StringArgType dm) s (JString s) s.
Proof.
  intros Hs. pose proof (c_str_without_nul s (modified_utf8_no_nul s Hs)) as Hc.
  apply round_trip_object; try reflexivity.
  - rewrite <- Hc at 2. apply string_goes_out. now rewrite Hc.
  - apply string_comes_back.
Qed.

(** *** Keys

    The elements of sets and the keys of maps: numbers, [bool] and
    strings.  [wf_key] is what native code can be handed as a key of an
    integer type or as a string; [key_value] is what a native container
    can hold: a number within the range of its type, floating ones
    included, or a string in modified UTF-8. *)


Definition key_value (k : ktype) : key_native k -> Prop :=
  match k as k0 return key_native k0 -> Prop with
  | KPrim p => in_range (native_repr p)
  | KString => fun s => modified_utf8 s = true
  end.

(** The Java object that stands for a key. *)
Definition key_enc (k : ktype) : key_native k -> jobject :=
  match k as k0 return key_native k0 -> jobject with
  | KPrim p => box p
  | KString => JString
  end.

Lemma key_round_trip k a : key_value k a -> round_trip (KeyArg k) a (key_enc k a) a.
Proof.
  destruct k as [p|]; simpl.
  - apply prim_round_trip.
  - apply string_round_trip.
Qed.

(** The way in alone. *)
Definition comes_back (k : ktype) (a : key_native k) : Prop :=
  exists j,
    returns (java_unbox (KeyArg k) (key_enc k a)) j
    /\ returns (native_value (KeyArg k) j) a.

Lemma key_value_comes_back k a : key_value k a -> comes_back k a.
Proof.
  intros Ha. destruct (key_round_trip k a Ha) as (j & _ & _ & Hu & Hn).
  now exists j.
Qed.


Lemma key_enc_comparable k a l :
  comparable_with (key_enc k a) (map (key_enc k) l) = true.
Proof.
  unfold comparable_with. apply andb_true_iff. split.
  - now destruct k.
  - apply forallb_forall. intros o Ho.
    apply in_map_iff in Ho as (b & <- & _).
    destruct k; simpl; [apply String.eqb_refl | reflexivity].
Qed.


Lemma string_ltb_irrefl a : String.ltb a a = false.
Proof.
  unfold String.ltb.
  pose proof (proj2 (OrderedTypeEx.String_as_OT.cmp_eq a a) eq_refl) as Haa.
  unfold OrderedTypeEx.String_as_OT.cmp in Haa. now rewrite Haa.
Qed.

Lemma string_ltb_trans a b c :
  String.ltb a b = true -> String.ltb b c = true -> String.ltb a c = true.
Proof.
  unfold String.ltb.
  destruct (String.compare a b) eqn:Hab; try discriminate.
  destruct (String.compare b c) eqn:Hbc; try discriminate.
  intros _ _.
  apply OrderedTypeEx.String_as_OT.cmp_lt in Hab, Hbc.
  pose proof (OrderedTypeEx.String_as_OT.lt_trans _ _ _ Hab Hbc) as Hac.
  apply OrderedTypeEx.String_as_OT.cmp_lt in Hac.
  unfold OrderedTypeEx.String_as_OT.cmp in Hac. now rewrite Hac.
Qed.


(** For every key type [operator<] is irreflexive and transitive, and
    [operator==] is symmetric. *)
Lemma key_less_irrefl k a : key_less (ops k) a a = false.
Proof.
  destruct k as [p|]; simpl; [destruct (integral p); simpl|].
  - apply Z.ltb_irrefl.
  - unfold float_less. rewrite Z.ltb_irrefl. apply andb_false_r.
  - apply string_ltb_irrefl.
Qed.

Lemma key_less_trans k a b c :
  key_less (ops k) a b = true -> key_less (ops k) b c = true ->
  key_less (ops k) a c = true.
Proof.
  destruct k as [p|]; simpl; [destruct (integral p); simpl|].
  - rewrite !Z.ltb_lt. lia.
  - unfold float_less. rewrite !andb_true_iff, !Z.ltb_lt.
    intros [[Ha Hb] Hab] [[_ Hc] Hbc]. repeat split; try assumption. lia.
  - apply string_ltb_trans.
Qed.

Lemma key_equal_sym k a b : key_equal (ops k) a b = key_equal (ops k) b a.
Proof.
  destruct k as [p|]; simpl; [destruct (integral p); simpl|].
  - apply Z.eqb_sym.
  - unfold float_equal. rewrite (Z.eqb_sym (float_rank _ a)).
    now rewrite (andb_comm (negb (is_nan _ a))).
  - apply String.eqb_sym.
Qed.

(** What Java makes of two keys. *)
Definition java_apart (k : ktype) (a b : key_native k) : Prop :=
  jequal (key_enc k a) (key_enc k b) = false.

Lemma jequal_sym a b : jequal a b = jequal b a.
Proof.
  destruct a, b; simpl; try reflexivity.
  - apply String.eqb_sym.
  - rewrite (String.eqb_sym class0 class).
    destruct (String.eqb_spec class class0) as [-> | _]; [|reflexivity].
    rewrite (Z.eqb_sym v0 v). cbn [andb]. f_equal.
    destruct (boxed_float class0); [apply andb_comm | reflexivity].
Qed.

Lemma java_apart_sym k a b : java_apart k a b -> java_apart k b a.
Proof. unfold java_apart. now rewrite jequal_sym. Qed.

Lemma key_enc_same k a : jequal (key_enc k a) (key_enc k a) = true.
Proof.
  destruct k as [p|]; simpl.
  - now rewrite String.eqb_refl, Z.eqb_refl.
  - apply String.eqb_refl.
Qed.

Lemma integral_not_boxed_float p :
  integral p = true -> boxed_float (class_name dm (ctype_of_prim p)) = None.
Proof. destruct p, dm; first [discriminate | reflexivity]. Qed.

Lemma floating_boxed_float p :
  integral p = false ->
  boxed_float (class_name dm (ctype_of_prim p)) = Some (float_bits p)
  /\ forall z, cast (java_repr p) z = z.
Proof. destruct p, dm; first [discriminate | split; reflexivity]. Qed.

(** Keys that [operator<] orders are two keys for Java. *)
Lemma less_java_apart k a b :
  key_value k a -> key_value k b -> key_less (ops k) a b = true -> java_apart k a b.
Proof.
  unfold java_apart. destruct k as [p|]; simpl.
  - intros Ha Hb. unfold box. rewrite String.eqb_refl. cbn [andb].
    destruct (integral p) eqn:Hp; simpl.
    + rewrite (integral_not_boxed_float p Hp), orb_false_r.
      intros Hlt. apply Z.ltb_lt in Hlt. apply Z.eqb_neq. intros Heq.
      rewrite <- (cast_round_trip p a Ha), <- (cast_round_trip p b Hb), Heq in Hlt. lia.
    + destruct (floating_boxed_float p Hp) as [-> Hcast]. rewrite !Hcast.
      unfold float_less. rewrite !andb_true_iff, !negb_true_iff, Z.ltb_lt.
      intros [[Hna Hnb] Hlt]. rewrite Hna. cbn [andb]. rewrite orb_false_r.
      apply Z.eqb_neq. intros ->. lia.
  - intros _ _ Hlt. apply String.eqb_neq. intros ->.
    rewrite string_ltb_irrefl in Hlt. discriminate.
Qed.

(** What keeps two keys apart in a container of kind [c] and in the
    Java collection that stands for it. *)
Definition apart (c : container) (k : ktype) (a b : key_native k) : Prop :=
  java_apart k a b /\ native_apart (ops k) c a b.

(** The keys of a native container, in the order of the container:
    strictly increasing under [operator<] in an ordered one; in a hashed
    one no two equal under [operator==], and no two that are one key for
    Java, as two NaN are. *)
Definition distinct_keys (c : container) (k : ktype) (l : list (key_native k)) : Prop :=
  match c with
  | Ordered => keyed_sorted (fun a => a) (key_less (ops k)) l
  | Unordered =>
      ForallOrdPairs (fun a b => key_equal (ops k) a b = false /\ java_apart k a b) l
  end.

Lemma distinct_told_apart c k l :
  Forall (key_value k) l -> distinct_keys c k l -> told_apart (apart c k) l.
Proof.
  intros Hl Hd. rewrite Forall_forall in Hl. destruct c; simpl in Hd.
  - pose proof (keyed_sorted_told_apart (fun a => a) (key_less (ops k))
                  (key_less_irrefl k) l Hd) as Ht.
    rewrite map_id in Ht.
    eapply told_apart_impl; [|exact Ht].
    intros a b Ha Hb Hab. split; [|exact Hab].
    destruct Hab as [H | H].
    + apply less_java_apart; auto.
    + apply java_apart_sym. apply less_java_apart; auto.
  - eapply told_apart_impl; [|apply told_apart_pairs; [| |exact Hd]].
    + intros a b _ _ [He Hj]. split; [exact Hj | exact He].
    + intros a [_ Hj]. unfold java_apart in Hj. rewrite key_enc_same in Hj. discriminate.
    + intros a b [He Hj]. split; [now rewrite key_equal_sym | now apply java_apart_sym].
Qed.

(** *** Sets *)

Lemma java_add_among k class a acc :
  Forall (java_apart k a) acc ->
  returns (java_add java_slot class (key_enc k a) (map (key_enc k) acc))
    (map (key_enc k)
       (insert_at (java_slot class (key_enc k a) (map (key_enc k) acc)) a acc)).
Proof.
  intros Hacc. unfold java_add. apply returns_call.
  rewrite key_enc_comparable. simpl negb. rewrite andb_false_r.
  rewrite existsb_among
    by exact (proj2 (Forall_fmap (key_enc k)
                       (fun o => jequal (key_enc k a) o = false) acc) Hacc).
  rewrite insert_at_map. apply returns_ret.
Qed.

Lemma set_java_loop_returns k class l : forall acc,
  Forall (key_value k) l -> told_apart (java_apart k) (l ++ acc) ->
  exists res,
    returns (set_java_loop java_slot (KeyArg k) class l (map (key_enc k) acc))
      (map (key_enc k) res)
    /\ Permutation res (l ++ acc).
Proof.
  induction l as [|a l IH]; intros acc Hl Ht; simpl.
  - exists acc. split; [apply returns_ret | reflexivity].
  - inversion Hl as [|? ? Ha Hl']; subst.
    pose proof Ht as Ht0. simpl in Ht. apply told_apart_cons in Ht as [Hall _].
    apply Forall_app in Hall as [_ Hacc].
    set (acc' := insert_at (java_slot class (key_enc k a) (map (key_enc k) acc)) a acc).
    assert (Hp : Permutation acc' (a :: acc)) by apply insert_at_perm.
    assert (Hperm : Permutation (l ++ acc') (a :: l ++ acc)).
    { rewrite Hp. symmetry. apply Permutation_middle. }
    destruct (IH acc') as (res & Hres & Hpres).
    + exact Hl'.
    + eapply told_apart_perm; [symmetry; exact Hperm | exact Ht0].
    + exists res. split; [|now rewrite Hpres].
      destruct (key_round_trip k a Ha) as (j & Hj & Hb & _ & _).
      eapply returns_bind; [exact Hj|].
      eapply returns_bind; [exact Hb|].
      eapply returns_bind; [now apply java_add_among|].
      exact Hres.
Qed.

Lemma set_native_loop_comes_back k c l : forall acc,
  Forall (comes_back k) l ->
  returns (set_native_loop (KeyArg k) (ops k) c (map (key_enc k) l) acc)
    (fold_left (fun s a => native_insert (ops k) c a s) l acc).
Proof.
  induction l as [|a l IH]; intros acc Hl; simpl.
  - apply returns_ret.
  - inversion Hl as [|? ? (j & Hu & Hn) Hl']; subst.
    apply returns_call.
    eapply returns_bind; [exact Hu|].
    eapply returns_bind; [exact Hn|].
    apply returns_call. now apply IH.
Qed.


(** A [std::set] or [std::unordered_set] as the list of its elements,
    in the order of the container. *)
Definition wf_set (c : container) (k : ktype) (x : list (key_native k)) : Prop :=
  Forall (key_value k) x /\ distinct_keys c k x.

Definition equiv_set (c : container) {A} (x y : list A) : Prop :=
  match c with Ordered => x = y | Unordered => Permutation x y end.

Lemma set_round_trip c k x :
  wf_set c k x ->
  exists o y,
    round_trip (SetArgType dm java_slot (KeyArg k) (ops k) c) x o y
    /\ equiv_set c x y.
Proof.
  intros [Hwf Hd].
  pose proof (distinct_told_apart c k x Hwf Hd) as Ht.
  destruct (set_java_loop_returns k (concrete_set_class c) x [])
    as (res & Hres & Hperm); [exact Hwf | |].
  { rewrite app_nil_r. eapply told_apart_impl; [|exact Ht]. now intros a b _ _ [H _]. }
  rewrite app_nil_r in Hperm.
  assert (Hwfres : Forall (key_value k) res) by now rewrite Hperm.
  assert (Hback : Forall (comes_back k) res)
    by (eapply Forall_impl; [exact Hwfres | apply key_value_comes_back]).
  apply (set_native_loop_comes_back k c res []) in Hback.
  set (y := fold_left (fun s a => native_insert (ops k) c a s) res []) in *.
  destruct (fill_among (fun a => a) (key_less (ops k))
              (fun a s => native_insert (ops k) c a s) (c = Ordered)
              (native_apart (ops k) c)
              (fun a acc => native_insert_among (ops k) c a acc (key_less_trans k))
              res [])
    as [Hpy Hsy].
  { rewrite map_id, app_nil_r. eapply told_apart_perm; [symmetry; exact Hperm|].
    eapply told_apart_impl; [|exact Ht]. now intros a b _ _ [_ H]. }
  { intros _. constructor. }
  fold y in Hpy, Hsy. rewrite app_nil_r in Hpy.
  exists (JSet (concrete_set_class c) (map (key_enc k) res)), y. split.
  - apply round_trip_object; try reflexivity.
    + simpl. apply returns_call.
      eapply returns_bind; [exact Hres|]. apply returns_ret.
    + simpl. apply returns_call. exact Hback.
  - destruct c; simpl in *.
    + symmetry.
      apply (keyed_sorted_unique (fun a => a) (key_less (ops k))
               (key_less_irrefl k) (key_less_trans k)); auto.
      now rewrite Hpy.
    + now rewrite Hpy.
Qed.

(** *** Sequences

    An element on its way: what it is, the object that carries it, what
    comes back. *)

Definition src {N} (t : N * jobject * N) : N := fst (fst t).
Definition obj {N} (t : N * jobject * N) : jobject := snd (fst t).
Definition dst {N} (t : N * jobject * N) : N := snd t.

Definition tripped {N J} (E : ArgType N J) (eqv : N -> N -> Prop)
    (t : N * jobject * N) : Prop :=
  round_trip E (src t) (obj t) (dst t) /\ eqv (src t) (dst t).

Lemma trips_exist {N J} (E : ArgType N J) (good : N -> Prop) eqv l :
  (forall x, good x -> exists o y, round_trip E x o y /\ eqv x y) ->
  Forall good l -> exists ts, map src ts = l /\ Forall (tripped E eqv) ts.
Proof.
  intros Hrt. induction 1 as [|x l Hx _ (ts & Hts & Hall)].
  - exists []. split; [reflexivity | constructor].
  - destruct (Hrt x Hx) as (o & y & Hxy & He).
    exists ((x, o, y) :: ts). split; [simpl; now rewrite Hts|].
    constructor; [now split | exact Hall].
Qed.

Lemma trips_equiv {N J} (E : ArgType N J) eqv ts :
  Forall (tripped E eqv) ts -> Forall2 eqv (map src ts) (map dst ts).
Proof.
  induction 1 as [|t ts [_ Ht] _ IH]; simpl; constructor; assumption.
Qed.

Lemma list_java_loop_returns {N J} (E : ArgType N J) eqv ts : forall acc,
  Forall (tripped E eqv) ts ->
  returns (list_java_loop E (map src ts) acc) (acc ++ map obj ts).
Proof.
  induction ts as [|t ts IH]; intros acc Hts; simpl.
  - rewrite app_nil_r. apply returns_ret.
  - inversion Hts as [|? ? [(j & Hj & Hb & _ & _) _] Hts']; subst.
    eapply returns_bind; [exact Hj|].
    eapply returns_bind; [exact Hb|].
    apply returns_call.
    replace (acc ++ obj t :: map obj ts) with ((acc ++ [obj t]) ++ map obj ts)
      by now rewrite <- app_assoc.
    now apply IH.
Qed.

Lemma list_native_loop_returns {N J} (E : ArgType N J) eqv ts : forall acc,
  Forall (tripped E eqv) ts ->
  returns (list_native_loop E (map obj ts) acc) (acc ++ map dst ts).
Proof.
  induction ts as [|t ts IH]; intros acc Hts; simpl.
  - rewrite app_nil_r. apply returns_ret.
  - inversion Hts as [|? ? [(j & _ & _ & Hu & Hn) _] Hts']; subst.
    apply returns_call.
    eapply returns_bind; [exact Hu|].
    eapply returns_bind; [exact Hn|].
    replace (acc ++ dst t :: map dst ts) with ((acc ++ [dst t]) ++ map dst ts)
      by now rewrite <- app_assoc.
    now apply IH.
Qed.

Lemma list_round_trip {N J} (E : ArgType N J) eqv ts :
  Forall (tripped E eqv) ts ->
  round_trip (ListArgType dm E) (map src ts) (JList (map obj ts)) (map dst ts).
Proof.
  intros Hts. apply round_trip_object; try reflexivity; simpl.
  - apply returns_call.
    eapply returns_bind; [exact (list_java_loop_returns E eqv ts [] Hts)|].
    apply returns_ret.
  - apply returns_call. exact (list_native_loop_returns E eqv ts [] Hts).
Qed.

(** The flat primitive array. *)
Lemma array_round_trip p xs :
  Forall (in_range (native_repr p)) xs ->
  round_trip (FundamentalArgArrayType dm char_signed p) xs
    (JPrimArray (type_sig dm (ctype_of_prim p)) (map (cast (java_repr p)) xs)) xs.
Proof.
  intros Hxs. apply round_trip_object; try reflexivity.
  - simpl. apply returns_call, returns_ret.
  - cbn [native_value FundamentalArgArrayType]. rewrite String.eqb_refl.
    apply returns_call.
    replace (map (cast (native_repr p)) (map (cast (java_repr p)) xs)) with xs;
      [apply returns_ret|].
    induction Hxs as [|x xs Hx _ IH]; simpl; [reflexivity|].
    now rewrite cast_round_trip, <- IH.
Qed.

(** *** Maps

    An entry on its way: its key and the trip of its value. *)

Section Entries.
Variable k : ktype.
Context {N J : Type}.
Variable V : ArgType N J.
Variable eqv : N -> N -> Prop.

Local Abbreviation entry := (key_native k * (N * jobject * N))%type.

Definition entry_src (e : entry) : key_native k * N := (fst e, src (snd e)).
Definition entry_java (e : entry) : jobject * jobject := (key_enc k (fst e), obj (snd e)).
Definition entry_dst (e : entry) : key_native k * N := (fst e, dst (snd e)).

Definition entry_tripped (e : entry) : Prop :=
  key_value k (fst e) /\ tripped V eqv (snd e).

Lemma entry_java_keys (l : list entry) :
  map fst (map entry_java l) = map (key_enc k) (map fst l).
Proof. rewrite !map_map. reflexivity. Qed.

Lemma entry_src_keys (l : list entry) : map fst (map entry_src l) = map fst l.
Proof. rewrite map_map. reflexivity. Qed.

Lemma entry_dst_keys (l : list entry) : map fst (map entry_dst l) = map fst l.
Proof. rewrite map_map. reflexivity. Qed.

Lemma entry_keys_wf (l : list entry) :
  Forall entry_tripped l -> Forall (key_value k) (map fst l).
Proof. induction 1 as [|e l [He _] _ IH]; simpl; constructor; assumption. Qed.

Lemma java_put_among class (e : entry) acc :
  Forall (fun b => java_apart k (fst e) (fst b)) acc ->
  returns
    (java_put java_slot class (key_enc k (fst e)) (obj (snd e)) (map entry_java acc))
    (map entry_java
       (insert_at (java_slot class (key_enc k (fst e)) (map fst (map entry_java acc)))
          e acc)).
Proof.
  intros Hacc. unfold java_put. apply returns_call.
  rewrite entry_java_keys.
  rewrite key_enc_comparable. simpl negb. rewrite andb_false_r.
  rewrite existsb_among.
  - rewrite insert_at_map. apply returns_ret.
  - apply (proj2 (Forall_fmap (key_enc k)
                    (fun o => jequal (key_enc k (fst e)) o = false) (map fst acc))).
    exact (proj2 (Forall_fmap fst (java_apart k (fst e)) acc) Hacc).
Qed.

Lemma map_java_loop_returns class (l : list entry) : forall acc,
  Forall entry_tripped l ->
  told_apart (java_apart k) (map fst (l ++ acc)) ->
  exists res,
    returns (map_java_loop java_slot (KeyArg k) V class (map entry_src l)
               (map entry_java acc))
      (map entry_java res)
    /\ Permutation res (l ++ acc).
Proof.
  induction l as [|e l IH]; intros acc Hl Ht; simpl.
  - exists acc. split; [apply returns_ret | reflexivity].
  - inversion Hl as [|? ? He Hl']; subst.
    pose proof Ht as Ht0. simpl in Ht. apply told_apart_cons in Ht as [Hall _].
    rewrite map_app in Hall. apply Forall_app in Hall as [_ Hacc].
    pose proof (proj1 (Forall_fmap fst (java_apart k (fst e)) acc) Hacc) as Hacc'.
    set (acc' := insert_at (java_slot class (key_enc k (fst e))
                              (map fst (map entry_java acc))) e acc).
    assert (Hp : Permutation acc' (e :: acc)) by apply insert_at_perm.
    assert (Hperm : Permutation (l ++ acc') (e :: l ++ acc)).
    { rewrite Hp. symmetry. apply Permutation_middle. }
    destruct (IH acc') as (res & Hres & Hpres).
    + exact Hl'.
    + eapply told_apart_perm; [|exact Ht0].
      symmetry. now apply Permutation_map.
    + exists res. split; [|now rewrite Hpres].
      pose proof He as [Hk [(jv & Hjv & Hbv & _ & _) _]].
      destruct (key_round_trip k (fst e) Hk) as (jk & Hjk & Hbk & _ & _).
      eapply returns_bind; [exact Hjk|].
      eapply returns_bind; [exact Hbk|].
      eapply returns_bind; [exact Hjv|].
      eapply returns_bind; [exact Hbv|].
      eapply returns_bind; [now apply java_put_among|].
      exact Hres.
Qed.

Lemma map_native_loop_returns c (l : list entry) : forall acc,
  Forall entry_tripped l ->
  returns (map_native_loop (KeyArg k) V (ops k) c (map entry_java l) acc)
    (fold_left (fun m e => native_assign (ops k) c (fst e) (snd e) m)
       (map entry_dst l) acc).
Proof.
  induction l as [|e l IH]; intros acc Hl; simpl.
  - apply returns_ret.
  - inversion Hl as [|? ? [Hk [(jv & _ & _ & Huv & Hnv) _]] Hl']; subst.
    destruct (key_round_trip k (fst e) Hk) as (jk & _ & _ & Huk & Hnk).
    apply returns_call.
    eapply returns_bind; [exact Huk|].
    eapply returns_bind; [exact Huv|].
    eapply returns_bind; [exact Hnv|].
    eapply returns_bind; [exact Hnk|].
    apply returns_call. now apply IH.
Qed.

(** Two maps agree when their entries do, one by one for an ordered
    container and in some order for a hashed one. *)
Definition equiv_map (c : container) (x y : list (key_native k * N)) : Prop :=
  exists ys,
    Forall2 (fun a b => fst a = fst b /\ eqv (snd a) (snd b)) x ys
    /\ equiv_set c ys y.

Lemma entries_equiv (l : list entry) :
  Forall entry_tripped l ->
  Forall2 (fun a b => fst a = fst b /\ eqv (snd a) (snd b))
    (map entry_src l) (map entry_dst l).
Proof.
  induction 1 as [|e l [_ [_ He]] _ IH]; simpl; constructor; auto.
Qed.

Lemma map_round_trip c (l : list entry) :
  Forall entry_tripped l -> distinct_keys c k (map fst l) ->
  exists o y,
    round_trip (MapArgType dm java_slot (KeyArg k) V (ops k) c) (map entry_src l) o y
    /\ equiv_map c (map entry_src l) y.
Proof.
  intros Hl Hd.
  pose proof (distinct_told_apart c k (map fst l) (entry_keys_wf l Hl) Hd) as Ht.
  destruct (map_java_loop_returns (concrete_map_class c) l [])
    as (res & Hres & Hperm); [exact Hl | |].
  { rewrite app_nil_r. eapply told_apart_impl; [|exact Ht]. now intros a b _ _ [H _]. }
  rewrite app_nil_r in Hperm.
  assert (Hlres : Forall entry_tripped res) by now rewrite Hperm.
  pose proof (map_native_loop_returns c res [] Hlres) as Hback.
  set (y := fold_left (fun m e => native_assign (ops k) c (fst e) (snd e) m)
              (map entry_dst res) []) in *.
  destruct (fill_among fst (key_less (ops k))
              (fun e m => native_assign (ops k) c (fst e) (snd e) m) (c = Ordered)
              (native_apart (ops k) c)
              (fun e acc => native_assign_among (ops k) c e acc (key_less_trans k))
              (map entry_dst res) [])
    as [Hpy Hsy].
  { rewrite app_nil_r, entry_dst_keys.
    eapply told_apart_perm; [symmetry; apply Permutation_map; exact Hperm|].
    eapply told_apart_impl; [|exact Ht]. now intros a b _ _ [_ H]. }
  { intros _. constructor. }
  fold y in Hpy, Hsy. rewrite app_nil_r in Hpy.
  assert (Hpy' : Permutation y (map entry_dst l)) by now rewrite Hpy, Hperm.
  exists (JMap (concrete_map_class c) (map entry_java res)), y. split.
  - apply round_trip_object; try reflexivity.
    + simpl. apply returns_call.
      eapply returns_bind; [exact Hres|]. apply returns_ret.
    + simpl. apply returns_call. exact Hback.
  - exists (map entry_dst l). split; [now apply entries_equiv|].
    destruct c; simpl in *; [|now symmetry].
    symmetry.
    apply (keyed_sorted_unique fst (key_less (ops k))
             (key_less_irrefl k) (key_less_trans k)); auto.
    apply (keyed_sorted_fmap fst (key_less (ops k))).
    rewrite entry_dst_keys. exact Hd.
Qed.

Lemma entries_exist (good : N -> Prop) (x : list (key_native k * N)) :
  (forall v, good v -> exists o y, round_trip V v o y /\ eqv v y) ->
  Forall (fun e => key_value k (fst e) /\ good (snd e)) x ->
  exists l : list entry, map entry_src l = x /\ Forall entry_tripped l.
Proof.
  intros Hrt. induction 1 as [|[a v] x [Ha Hv] _ (l & Hl & Hall)].
  - exists []. split; [reflexivity | constructor].
  - destruct (Hrt v Hv) as (o & y & Hvy & He).
    exists ((a, (v, o, y)) :: l). split; [simpl; now rewrite <- Hl|].
    constructor; [|exact Hall]. split; [exact Ha | now split].
Qed.

End Entries.

(** *** The values the conversions are defined on

    Numbers within the range of their C++ type, strings in modified
    UTF-8, and the associative containers as the lists of what a C++
    container holds, in its order. *)
Fixpoint wf (t : vtype) : ntype t -> Prop :=
  match t as t0 return ntype t0 -> Prop with
  | VPrim p => in_range (native_repr p)
  | VString => fun s => modified_utf8 s = true
  | VVector u => Forall (wf u)
  | VList u => Forall (wf u)
  | VSet c k => wf_set c k
  | VMap c k v => fun x =>
      Forall (fun e => key_value k (fst e) /\ wf v (snd e)) x
      /\ distinct_keys c k (map fst x)
  end.

(** Equality of values: of the elements one by one in sequences and
    ordered containers, up to the order of the elements in hashed ones. *)
Fixpoint equiv (t : vtype) : ntype t -> ntype t -> Prop :=
  match t as t0 return ntype t0 -> ntype t0 -> Prop with
  | VPrim _ => eq
  | VString => eq
  | VVector u => Forall2 (equiv u)
  | VList u => Forall2 (equiv u)
  | VSet c _ => equiv_set c
  | VMap c k v => equiv_map k (equiv v) c
  end.

(** Whether a type is built without hashed containers. *)
Fixpoint order_preserving (t : vtype) : bool :=
  match t with
  | VPrim _ | VString => true
  | VVector u | VList u => order_preserving u
  | VSet c _ => match c with Ordered => true | Unordered => false end
  | VMap c _ v => match c with Ordered => order_preserving v | Unordered => false end
  end.

Lemma Forall2_eq {A} (R : A -> A -> Prop) l l' :
  (forall a b, R a b -> a = b) -> Forall2 R l l' -> l = l'.
Proof.
  intros HR. induction 1 as [|a b l l' Hab _ IH]; [reflexivity|].
  now rewrite (HR a b Hab), IH.
Qed.

Lemma equiv_exact t : forall x y,
  order_preserving t = true -> equiv t x y -> x = y.
Proof.
  induction t as [p| |u IH|u IH|c k|c k v IH]; simpl; intros x y Hop Hxy.
  - exact Hxy.
  - exact Hxy.
  - eapply Forall2_eq; [|exact Hxy]. auto.
  - eapply Forall2_eq; [|exact Hxy]. auto.
  - destruct c; [exact Hxy | discriminate].
  - destruct c; [|discriminate].
    destruct Hxy as (ys & Hys & <-).
    eapply Forall2_eq; [|exact Hys].
    intros [a v1] [b v2] [Hk Hv]. simpl in *. subst b. f_equal. auto.
Qed.

(** Every value, as an element of a collection, goes out and comes back
    as an equal value. *)
Lemma element_round_trip t : forall x,
  wf t x -> exists o y, round_trip (Arg t) x o y /\ equiv t x y.
Proof.
  induction t as [p| |u IH|u IH|c k|c k v IH]; intros x Hx.
  - exists (box p x), x. split; [now apply prim_round_trip | reflexivity].
  - exists (JString x), x. split; [now apply string_round_trip | reflexivity].
  - simpl in Hx.
    assert (Hlist : exists o y,
      round_trip (ListArgType dm (Arg u)) x o y /\ Forall2 (equiv u) x y).
    { destruct (trips_exist (Arg u) (wf u) (equiv u) x IH Hx) as (ts & <- & Hts).
      exists (JList (map obj ts)), (map dst ts). split.
      - now apply list_round_trip with (eqv := equiv u).
      - now apply trips_equiv with (E := Arg u). }
    destruct u as [p| | | | |]; try exact Hlist.
    cbn [ArgType_of array_specialization]. destruct (has_array p); [|exact Hlist].
    eexists _, x. split; [now apply array_round_trip|].
    simpl. clear. induction x; constructor; auto.
  - simpl in Hx.
    destruct (trips_exist (Arg u) (wf u) (equiv u) x IH Hx) as (ts & <- & Hts).
    exists (JList (map obj ts)), (map dst ts). split.
    + now apply list_round_trip with (eqv := equiv u).
    + now apply trips_equiv with (E := Arg u).
  - now apply set_round_trip.
  - destruct Hx as (Hall & Hd).
    destruct (entries_exist k (Arg v) (equiv v) (wf v) x IH Hall) as (l & <- & Hl).
    apply map_round_trip; try assumption.
    now rewrite entry_src_keys in Hd.
Qed.

(** An empty sequence, set or map goes out and comes back empty,
    whatever the types of its elements and keys. *)
Lemma empty_round_trips {N J NV JV} (E : ArgType N J) (V : ArgType NV JV)
    (o : NativeKey N) (c : container) :
  (returns (java_value (ListArgType dm E) []) (JList [])
   /\ returns (native_value (ListArgType dm E) (JList [])) [])
  /\ (returns (java_value (SetArgType dm java_slot E o c) [])
        (JSet (concrete_set_class c) [])
      /\ returns (native_value (SetArgType dm java_slot E o c)
                    (JSet (concrete_set_class c) [])) [])
  /\ (returns (java_value (MapArgType dm java_slot E V o c) [])
        (JMap (concrete_map_class c) [])
      /\ returns (native_value (MapArgType dm java_slot E V o c)
                    (JMap (concrete_map_class c) [])) []).
Proof.
  repeat split; simpl; apply returns_call;
    first [ apply returns_ret
          | eapply returns_bind; apply returns_ret ].
Qed.

(** C5, amended.  Every value of a primitive, string, sequence, set or
    map type that native code can both hand out and receive (no flat
    array as the element of a sequence or the value of a map), with
    numbers, [bool] or strings as set elements and map keys, whose
    strings are modified UTF-8 and whose hashed containers hold no two
    NaN, is converted to its Java representation without an exception,
    and the conversion of that representation back returns an equal
    value: the same elements in the same order in sequences and ordered
    containers, the same elements in some order in hashed containers.
    Where no hashed container is involved the value that comes back is
    the value itself.  The empty string and the empty collections are
    among these values; and an empty sequence, set or map comes back
    empty whatever the types of its elements and keys. *)
Theorem C5_round_trip :
  (forall t x,
     inbound t = true -> wf t x ->
     exists j y,
       returns (java_value (Arg t) x) j
       /\ returns (native_value (Arg t) j) y
       /\ equiv t x y
       /\ (order_preserving t = true -> y = x))
  /\ (forall N J NV JV (E : ArgType N J) (V : ArgType NV JV) (o : NativeKey N) c,
        (returns (java_value (ListArgType dm E) []) (JList [])
         /\ returns (native_value (ListArgType dm E) (JList [])) [])
        /\ (returns (java_value (SetArgType dm java_slot E o c) [])
              (JSet (concrete_set_class c) [])
            /\ returns (native_value (SetArgType dm java_slot E o c)
                          (JSet (concrete_set_class c) [])) [])
        /\ (returns (java_value (MapArgType dm java_slot E V o c) [])
              (JMap (concrete_map_class c) [])
            /\ returns (native_value (MapArgType dm java_slot E V o c)
                          (JMap (concrete_map_class c) [])) [])).
Proof.
  split.
  - intros t x _ Hx.
    destruct (element_round_trip t x Hx) as (o & y & (j & Hj & _ & _ & Hn) & He).
    exists j, y. repeat split; try assumption.
    intros Hop. symmetry. now apply equiv_exact.
  - intros N J NV JV E V o c. apply empty_round_trips.
Qed.

End RoundTrip.

Lemma returns_fun {A} (m : M A) a b : returns m a -> returns m b -> a = b.
Proof. intros [c1 H1] [c2 H2]. exact (proj1 (emits_fun m a b c1 c2 H1 H2)). Qed.

Lemma string_back_is_modified_utf8 dm s :
  (exists j,
     returns (java_value (StringArgType dm) s) j
     /\ returns (native_value (StringArgType dm) j) s) ->
  modified_utf8 s = true.
Proof.
  intros (j & Hj & Hn).
  destruct (string_went_out dm s j Hj) as [Hv ->].
  pose proof (returns_fun _ _ _ (string_comes_back dm (c_str s)) Hn) as Hc.
  now rewrite Hc in Hv.
Qed.

(** X2: a [std::string] goes out and comes back as itself exactly when
    its bytes are modified UTF-8: no NUL among them, no four-byte form,
    every character in its one encoding. *)
Theorem string_identity_iff_modified_utf8 dm s :
  (exists j,
     returns (java_value (StringArgType dm) s) j
     /\ returns (native_value (StringArgType dm) j) s)
  <-> modified_utf8 s = true.
Proof.
  split; [apply string_back_is_modified_utf8|].
  intros Hs.
  pose proof (c_str_without_nul s (modified_utf8_no_nul s Hs)) as Hc.
  exists (JString s). split; [|apply string_comes_back].
  rewrite <- Hc at 2. apply string_goes_out. now rewrite Hc.
Qed.

(** *** Values that do not come back *)

(** A [std::string] of three characters, the second of them NUL. *)
Definition nul_inside : string := String "a" (String Ascii.zero (String "b" EmptyString)).

(** U+1F600 in UTF-8, the encoding the header names for [std::string]:
    the four bytes [F0 9F 98 80]. *)
Definition four_byte_character : string :=
  String (ascii_of_nat 240) (String (ascii_of_nat 159)
    (String (ascii_of_nat 152) (String (ascii_of_nat 128) EmptyString))).

(** A target: LP64 with a signed [char], hash collections that put a new
    key first on the Java side and last on the native side. *)
Definition sample_ArgType (t : vtype) : ArgType (ntype t) (jtype t) :=
  ArgType_of LP64 true (fun _ _ _ => O) (fun _ _ z => z)
    (fun _ _ => O) (fun _ l => length l) t.

(** A quiet NaN of type [double]. *)
Definition nan : Z := 9221120237041090560. (* 0x7FF8000000000000 *)

(** [std::list<int>] as the element of a [std::set]: [operator<] is the
    lexicographic order. *)
Fixpoint lexicographic (a b : list Z) : bool :=
  match a, b with
  | _, [] => false
  | [], _ :: _ => true
  | x :: a', y :: b' => (x <? y) || ((x =? y) && lexicographic a' b')
  end.

Definition list_key : NativeKey (list Z) :=
  {| key_less := lexicographic;
     key_equal := fun a b => negb (lexicographic a b) && negb (lexicographic b a);
     key_slot := fun _ _ => O |}.

Definition set_of_lists : ArgType (list (list Z)) jobject :=
  SetArgType LP64 (fun _ _ _ => O)
    (ListArgType LP64 (FundamentalArgType LP64 true (fun _ _ z => z) PInt))
    list_key Ordered.

Lemma string_with_nul_is_cut :
  (exists j,
     returns (java_value (StringArgType LP64) nul_inside) j
     /\ returns (native_value (StringArgType LP64) j) "a"%string)
  /\ ~ (exists j,
         returns (java_value (StringArgType LP64) nul_inside) j
         /\ returns (native_value (StringArgType LP64) j) nul_inside).
Proof.
  split.
  - exists (JString "a"). split.
    + exact (string_goes_out LP64 nul_inside eq_refl).
    + apply string_comes_back.
  - intros H. apply string_back_is_modified_utf8 in H. discriminate H.
Qed.

(** C5, as stated, fails, in four ways.  A [std::string] with a NUL
    character inside comes back cut before the NUL.  A [std::string]
    with a character outside the Basic Multilingual Plane, in UTF-8,
    does not come back as itself: [NewStringUTF] takes modified UTF-8.
    A [std::unordered_set<double>] that holds NaN twice (NaN is not equal
    to itself) comes back holding it once: for [java.util.HashSet] every
    NaN is the same key.  A [std::set<std::list<int>>] with an element
    leaves Java with an empty [java.util.TreeSet] and a
    [ClassCastException] pending, lists not being [Comparable], and
    comes back empty. *)
Lemma C5_values_that_do_not_come_back :
  ((exists j,
      returns (java_value (StringArgType LP64) nul_inside) j
      /\ returns (native_value (StringArgType LP64) j) "a"%string)
   /\ ~ (exists j,
          returns (java_value (StringArgType LP64) nul_inside) j
          /\ returns (native_value (StringArgType LP64) j) nul_inside))
  /\ ~ (exists j,
         returns (java_value (StringArgType LP64) four_byte_character) j
         /\ returns (native_value (StringArgType LP64) j) four_byte_character)
  /\ (native_insert (key_ops (fun _ _ => O) (fun _ l => length l) (KPrim PDouble))
        Unordered nan [nan] = [nan; nan]
      /\ exists w1 j w2,
           java_value (sample_ArgType (VSet Unordered (KPrim PDouble))) [nan; nan] quiet
             = (w1, Return j)
           /\ native_value (sample_ArgType (VSet Unordered (KPrim PDouble))) j w1
              = (w2, Return [nan]))
  /\ (exists w1 w2,
        java_value set_of_lists [[1]] quiet = (w1, Return (JSet "java/util/TreeSet" []))
        /\ option_map thr_class (pending w1) = Some "java/lang/ClassCastException"%string
        /\ native_value set_of_lists (JSet "java/util/TreeSet" []) w1 = (w2, Return [])).
Proof.
  split; [exact string_with_nul_is_cut|].
  split.
  { intros H. apply string_back_is_modified_utf8 in H. vm_compute in H. discriminate H. }
  split.
  { split; [vm_compute; reflexivity|].
    do 3 eexists. split.
    - vm_compute. reflexivity.
    - vm_compute. reflexivity. }
  do 2 eexists. split.
  { vm_compute. reflexivity. }
  split.
  - vm_compute. reflexivity.
  - vm_compute. reflexivity.
Qed.

(** *** Values that do *)

(** A hashed map from strings to vectors of strings, one of them empty. *)
Definition labels_type : vtype := VMap Unordered KString (VVector VString).

Definition labels : ntype labels_type :=
  [("one", ["a"; "b"; "c"]); ("two", []); ("three", ["x"])]%string.

Definition labels_ArgType : ArgType (ntype labels_type) (jtype labels_type) :=
  sample_ArgType labels_type.

Lemma labels_wf : wf LP64 true (fun _ _ => O) (fun _ l => length l) labels_type labels.
Proof. split; repeat constructor. Qed.

(** A [std::map<double, std::vector<std::string>>] with the keys
    [-1.5], [-0.0] and [2.0], in this order. *)
Definition readings_type : vtype := VMap Ordered (KPrim PDouble) (VVector VString).

Definition readings : ntype readings_type :=
  [(13832806255468478464, ["low"]); (9223372036854775808, []);
   (4611686018427387904, ["high"; "peak"])]%string.

Lemma readings_wf : wf LP64 true (fun _ _ => O) (fun _ l => length l) readings_type readings.
Proof.
  split.
  - repeat constructor; simpl; lia.
  - repeat constructor.
Qed.

(** The readings, there and back. *)
Lemma C5_round_trip_witness :
  inbound readings_type = true
  /\ wf LP64 true (fun _ _ => O) (fun _ l => length l) readings_type readings
  /\ exists j,
       returns (java_value (sample_ArgType readings_type) readings) j
       /\ returns (native_value (sample_ArgType readings_type) j) readings.
Proof.
  split; [reflexivity|]. split; [exact readings_wf|].
  destruct (proj1 (C5_round_trip LP64 true (fun _ _ _ => O) (fun _ _ z => z)
                     (fun _ _ => O) (fun _ l => length l))
              readings_type readings eq_refl readings_wf)
    as (j & y & Hj & Hn & _ & Hy).
  exists j. split; [exact Hj|]. now rewrite <- (Hy eq_refl).
Defined.

End RoundTripFacts.

(** ** Compile-time strings: digits, replacement, separators *)

Module TextLaws.
Import Text TextFacts.

(** *** [integer_to_digits] *)

(** The character of the decimal digit [d]. *)
Definition digit (d : nat) : ascii := ascii_of_nat (nat_of_ascii "0" + d).

(** The [i] low-order decimal digits of [n], the most significant first. *)
Fixpoint low_digits (i n : nat) : list ascii :=
  match i with
  | O => []
  | S i' => low_digits i' (n / 10) ++ [digit (n mod 10)]
  end.

(** Reading decimal digits back; [None] at a character that is no digit. *)
Definition digit_value (c : ascii) : option nat :=
  let k := nat_of_ascii c in
  if ((48 <=? k) && (k <=? 57))%nat then Some (k - 48)%nat else None.

Fixpoint read_decimal (acc : nat) (cs : list ascii) : option nat :=
  match cs with
  | [] => Some acc
  | c :: cs' =>
      match digit_value c with
      | Some d => read_decimal (10 * acc + d) cs'
      | None => None
      end
  end.

Lemma drop_insert_here {A} (l : list A) : forall i x,
  (i < length l)%nat -> drop i (<[i := x]> l) = x :: drop (S i) l.
Proof.
  induction l as [|a l IH]; intros [|i] x Hi; simpl in *; try lia.
  - reflexivity.
  - apply IH. lia.
Qed.

Lemma digits_loop_spec i : forall n arr,
  (i <= length arr)%nat -> digits_loop i n arr = low_digits i n ++ drop i arr.
Proof.
  induction i as [|i IH]; intros n arr Hi; simpl.
  - reflexivity.
  - rewrite IH by (rewrite length_insert; lia).
    rewrite drop_insert_here by lia.
    now rewrite <- app_assoc.
Qed.

Lemma num_digits_fuel_bounds fuel : forall n,
  (n <= fuel)%nat ->
  (1 <= num_digits_fuel fuel n)%nat
  /\ (n < 10 ^ num_digits_fuel fuel n)%nat
  /\ (0 < n -> 10 ^ (num_digits_fuel fuel n - 1) <= n)%nat.
Proof.
  induction fuel as [|fuel IH]; intros n Hn; cbn [num_digits_fuel].
  - assert (n = 0)%nat as -> by lia. simpl. lia.
  - destruct (Nat.ltb_spec n 10) as [Hlt|Hge].
    + simpl. lia.
    + pose proof (Nat.div_mod_eq n 10) as Hdm.
      pose proof (Nat.mod_upper_bound n 10 ltac:(lia)) as Hm.
      destruct (IH (n / 10)%nat ltac:(lia)) as (H1 & H2 & H3).
      set (k := num_digits_fuel fuel (n / 10)) in *.
      specialize (H3 ltac:(lia)).
      assert (Hk1 : (10 ^ (k + 1) = 10 * 10 ^ k)%nat)
        by (rewrite Nat.add_1_r; apply Nat.pow_succ_r').
      assert (Hk0 : (10 ^ (k + 1 - 1) = 10 * 10 ^ (k - 1))%nat).
      { replace (k + 1 - 1)%nat with (S (k - 1)) by lia. apply Nat.pow_succ_r'. }
      rewrite Hk1, Hk0. lia.
Qed.

Lemma digit_value_digit d : (d < 10)%nat -> digit_value (digit d) = Some d.
Proof.
  intros Hd. unfold digit_value, digit.
  change (nat_of_ascii "0") with 48%nat.
  rewrite nat_ascii_embedding by lia.
  destruct (Nat.leb_spec 48 (48 + d)); [|lia].
  destruct (Nat.leb_spec (48 + d) 57); [|lia].
  simpl. f_equal. lia.
Qed.

Lemma read_decimal_app l : forall acc k,
  read_decimal acc (l ++ k)
  = match read_decimal acc l with Some a => read_decimal a k | None => None end.
Proof.
  induction l as [|c l IH]; intros acc k; simpl; [reflexivity|].
  destruct (digit_value c); [apply IH | reflexivity].
Qed.

Lemma read_low_digits i : forall n acc,
  read_decimal acc (low_digits i n) = Some (acc * 10 ^ i + n mod 10 ^ i)%nat.
Proof.
  induction i as [|i IH]; intros n acc.
  - simpl. f_equal. lia.
  - cbn [low_digits]. rewrite read_decimal_app, IH. cbn [read_decimal].
    rewrite digit_value_digit by (apply Nat.mod_upper_bound; lia).
    f_equal. rewrite Nat.pow_succ_r'.
    rewrite (Nat.Div0.mod_mul_r n 10 (10 ^ i)). lia.
Qed.

Lemma low_digits_leading i : forall n,
  (10 ^ i <= n < 10 ^ S i)%nat ->
  exists d rest, low_digits (S i) n = digit d :: rest /\ (1 <= d <= 9)%nat.
Proof.
  induction i as [|i IH]; intros n Hn.
  - rewrite Nat.pow_0_r, Nat.pow_1_r in Hn.
    exists n, []. cbn [low_digits app].
    rewrite Nat.mod_small by lia. split; [reflexivity | lia].
  - pose proof (Nat.div_mod_eq n 10) as Hdm.
    pose proof (Nat.mod_upper_bound n 10 ltac:(lia)) as Hm.
    rewrite !Nat.pow_succ_r' in Hn.
    destruct (IH (n / 10)%nat) as (d & rest & Heq & Hd).
    { rewrite Nat.pow_succ_r'. lia. }
    exists d, (rest ++ [digit (n mod 10)]).
    split; [|exact Hd].
    change (low_digits (S (S i)) n)
      with (low_digits (S i) (n / 10) ++ [digit (n mod 10)]).
    now rewrite Heq.
Qed.

Lemma digit_injective d d' : (d < 10)%nat -> (d' < 10)%nat -> digit d = digit d' -> d = d'.
Proof.
  intros Hd Hd' H.
  assert (Hv : digit_value (digit d) = digit_value (digit d')) by now rewrite H.
  rewrite !digit_value_digit in Hv by assumption. now injection Hv.
Qed.

Lemma integer_to_digits_low n :
  list_ascii_of_string (integer_to_digits n) = low_digits (num_digits n) n.
Proof.
  unfold integer_to_digits, view.
  rewrite list_ascii_of_string_of_list_ascii.
  rewrite digits_loop_spec by (unfold zero_array; rewrite length_replicate; lia).
  rewrite drop_ge by (unfold zero_array; rewrite length_replicate; lia).
  apply app_nil_r.
Qed.

Lemma length_low_digits i : forall n, length (low_digits i n) = i.
Proof.
  induction i as [|i IH]; intros n; simpl; [reflexivity|].
  rewrite length_app, IH. simpl. lia.
Qed.

(** X3: [integer_to_digits<N>] is the decimal numeral of [N]: read back
    as decimal digits it gives [N], it has [num_digits(N)] characters, and
    it starts with the digit zero only for [N = 0] (whose numeral is
    ["0"]). *)
Theorem integer_to_digits_decimal n :
  read_decimal 0 (list_ascii_of_string (integer_to_digits n)) = Some n
  /\ String.length (integer_to_digits n) = num_digits n
  /\ (forall rest, integer_to_digits n = String "0" rest -> n = O /\ rest = EmptyString).
Proof.
  pose proof (num_digits_fuel_bounds n n (le_n n)) as (H1 & H2 & H3).
  fold (num_digits n) in H1, H2, H3.
  split; [|split].
  - rewrite integer_to_digits_low, read_low_digits.
    rewrite Nat.mod_small by exact H2. f_equal.
  - rewrite <- length_chars_of_string, integer_to_digits_low.
    apply length_low_digits.
  - intros rest Hrest.
    assert (Hl : low_digits (num_digits n) n = "0"%char :: list_ascii_of_string rest).
    { rewrite <- integer_to_digits_low, Hrest. reflexivity. }
    destruct (Nat.eq_dec n O) as [->|Hpos].
    + split; [reflexivity|].
      change (low_digits (num_digits O) O) with ["0"%char] in Hl.
      injection Hl as Hl. destruct rest; [reflexivity | discriminate Hl].
    + exfalso. specialize (H3 ltac:(lia)).
      destruct (num_digits n) as [|k] eqn:Hk; [lia|].
      replace (S k - 1)%nat with k in H3 by lia.
      destruct (low_digits_leading k n ltac:(lia)) as (d & rest' & Heq & Hd).
      rewrite Heq in Hl. injection Hl as Hd0 _.
      apply (digit_injective d O) in Hd0; lia.
Qed.

(** *** [replace] *)

Lemma replace_loop_window cs o n : forall (pre rest : list ascii),
  (length cs <= length rest)%nat ->
  replace_loop cs (length pre) o n (pre ++ rest)
  = pre ++ map (fun c => if Ascii.eqb c o then n else c) cs ++ drop (length cs) rest.
Proof.
  induction cs as [|c cs IH]; intros pre rest Hlen; simpl in *.
  - reflexivity.
  - destruct rest as [|r rest]; simpl in *; [lia|].
    rewrite insert_middle.
    replace (S (length pre)) with (length (pre ++ [if Ascii.eqb c o then n else c]))
      by (rewrite length_app; simpl; lia).
    replace (pre ++ (if Ascii.eqb c o then n else c) :: rest)
      with ((pre ++ [if Ascii.eqb c o then n else c]) ++ rest)
      by (now rewrite <- app_assoc).
    rewrite IH by lia. now rewrite <- app_assoc.
Qed.

(** X4: [replace<S, O, N>] has the length of [S] and, position by
    position, [N] where [S] has [O] and the character of [S] elsewhere;
    when [O] and [N] differ no [O] is left in it. *)
Theorem replace_pointwise s o n :
  list_ascii_of_string (replace s o n)
    = map (fun c => if Ascii.eqb c o then n else c) (list_ascii_of_string s)
  /\ String.length (replace s o n) = String.length s
  /\ (o <> n -> ~ In o (list_ascii_of_string (replace s o n))).
Proof.
  assert (H : list_ascii_of_string (replace s o n)
              = map (fun c => if Ascii.eqb c o then n else c) (list_ascii_of_string s)).
  { unfold replace, view. rewrite list_ascii_of_string_of_list_ascii.
    pose proof (replace_loop_window (list_ascii_of_string s) o n []
                  (zero_array (length (list_ascii_of_string s)))) as Hw.
    simpl in Hw. rewrite Hw by (unfold zero_array; now rewrite length_replicate).
    rewrite drop_ge by (unfold zero_array; now rewrite length_replicate).
    apply app_nil_r. }
  split; [exact H|]. split.
  - rewrite <- !length_chars_of_string, H. apply length_map.
  - intros Hne Hin. rewrite H in Hin. apply in_map_iff in Hin as (c & Hc & _).
    destruct (Ascii.eqb c o) eqn:E; [congruence|].
    apply Ascii.eqb_neq in E. congruence.
Qed.

(** *** [join] and [join_sep] *)

Lemma append_assoc (a b c : string) : ((a +:+ b) +:+ c = a +:+ (b +:+ c))%string.
Proof.
  induction a as [|x a IH]; unfold String.append; fold String.append;
    [reflexivity | now rewrite IH].
Qed.

Lemma append_nil_r (s : string) : (s +:+ EmptyString)%string = s.
Proof.
  induction s as [|c s IH]; unfold String.append; fold String.append;
    [reflexivity | now rewrite IH].
Qed.

Lemma length_append (a b : string) :
  String.length (a +:+ b) = (String.length a + String.length b)%nat.
Proof.
  induction a as [|x a IH]; unfold String.append; fold String.append; simpl;
    [reflexivity | now rewrite IH].
Qed.

(** X5: [join<Strs...>] is the strings one after the other, nothing
    between them and nothing left of the zero-filled array: its length is
    the sum of theirs. *)
Theorem join_concatenates strs :
  join strs = String.concat EmptyString strs
  /\ String.length (join strs) = total_length strs.
Proof.
  rewrite join_spec. split.
  - induction strs as [|s [|t strs] IH].
    + reflexivity.
    + simpl. apply append_nil_r.
    + change (String.concat "" (s :: t :: strs))
        with (s +:+ "" +:+ String.concat "" (t :: strs))%string.
      cbn [fold_right] in *. now rewrite IH.
  - induction strs as [|s strs IH]; [reflexivity|].
    cbn [fold_right total_length]. rewrite length_append.
    unfold total_length in IH. now rewrite IH.
Qed.

Lemma join_tail sep t tail :
  fold_right String.append EmptyString (map (fun t => join [sep; t]) (t :: tail))
  = (sep +:+ String.concat sep (t :: tail))%string.
Proof.
  revert t. induction tail as [|u tail IH]; intros t.
  - cbn [map fold_right String.concat]. rewrite join_spec. cbn [fold_right].
    now rewrite !append_nil_r.
  - change (String.concat sep (t :: u :: tail))
      with (t +:+ sep +:+ String.concat sep (u :: tail))%string.
    cbn [map fold_right]. cbn [map fold_right] in IH. rewrite IH.
    rewrite join_spec. cbn [fold_right].
    now rewrite append_nil_r, append_assoc.
Qed.

Lemma join_sep_concat sep items :
  join_sep sep items = String.concat sep items.
Proof.
  destruct items as [|head [|t tail]]; try reflexivity.
  unfold join_sep. rewrite join_spec. cbn [fold_right].
  change (String.concat sep (head :: t :: tail))
    with (head +:+ sep +:+ String.concat sep (t :: tail))%string.
  now rewrite join_tail.
Qed.

Lemma length_concat sep items :
  String.length (String.concat sep items)
  = (total_length items + (List.length items - 1) * String.length sep)%nat.
Proof.
  induction items as [|head [|t tail] IH].
  - reflexivity.
  - cbn. lia.
  - change (String.concat sep (head :: t :: tail))
      with (head +:+ sep +:+ String.concat sep (t :: tail))%string.
    rewrite !length_append, IH.
    cbn [total_length fold_right map List.length] in *. lia.
Qed.

(** X6: [join_sep<Sep, Items...>] is the items in order with [Sep]
    between neighbours: the empty string for no item, the item itself for
    one, and no separator before the first or after the last; its length is
    the items' total length plus one separator per gap. *)
Theorem join_sep_intercalates sep items :
  join_sep sep items = String.concat sep items
  /\ String.length (join_sep sep items)
     = (total_length items + (List.length items - 1) * String.length sep)%nat.
Proof.
  rewrite join_sep_concat. split; [reflexivity | apply length_concat].
Qed.

End TextLaws.

(** ** Kotlin declarations *)

Module KotlinFacts.
Import Traits Kotlin TextFacts TextLaws.

(** The declaration of parameter [i]: [arg<i>: <type>]. *)
Definition parameter (dm : data_model) (i : nat) (a : ctype) : string :=
  ("arg" +:+ Text.integer_to_digits i +:+ ": " +:+ kotlin_type dm a)%string.

(** [(arg0: T0, arg1: T1, ...): R]. *)
Definition declaration (dm : data_model) (R : ctype) (Params : list ctype) : string :=
  ("(" +:+ String.concat ", " (imap (parameter dm) Params) +:+ ")" +:+ ": "
       +:+ kotlin_type dm R)%string.

Lemma function_params_numbered dm Args : forall i,
  function_params_from (kotlin_type dm) i Args
  = imap (fun j => parameter dm (i + j)) Args.
Proof.
  induction Args as [|a Args IH]; intros i; [reflexivity|].
  cbn [function_params_from]. rewrite imap_cons, IH.
  rewrite join_spec. cbn [fold_right]. rewrite append_nil_r.
  unfold parameter at 2. rewrite Nat.add_0_r. f_equal.
  apply imap_ext. intros j x _. simpl. f_equal. lia.
Qed.

Lemma plain_kotlin_type_declaration dm R Args :
  plain_kotlin_type dm R Args = declaration dm R Args.
Proof.
  unfold plain_kotlin_type, callable_sig, declaration.
  rewrite !join_spec, join_sep_concat, function_params_numbered.
  cbn [fold_right]. now rewrite !append_nil_r.
Qed.

(** X7: the Kotlin declaration derived for a function lists its
    parameters as [arg0], [arg1], ... in order, numbered in decimal and
    separated by a comma and a space, each followed by the Kotlin name of
    its decayed type, then the Kotlin name of the return type; the
    receiver of a member function takes no part. *)
Theorem friendly_signature_form dm T R Args :
  friendly dm (Plain R Args) = declaration dm R Args
  /\ friendly dm (FreePointer R Args) = declaration dm R (map decay Args)
  /\ friendly dm (MemberPointer T R Args) = declaration dm R (map decay Args)
  /\ friendly dm (ConstMemberPointer T R Args) = declaration dm R (map decay Args).
Proof.
  unfold friendly. repeat split; apply plain_kotlin_type_declaration.
Qed.

(** [void Sample::resize(int width, const std::string& unit)]. *)
Example friendly_resize :
  friendly LP64 (MemberPointer (NativeClass "demo.Sample") Void [Int; LRef (Const StdString)])
  = "(arg0: Int, arg1: java.lang.String): Unit"%string.
Proof. reflexivity. Qed.

End KotlinFacts.

(** ** The per-thread environment: attaching *)

Module AttachFacts.
Import Environment EnvironmentFacts.

(** The successful [AttachCurrentThread] calls among [cs]. *)
Definition attach_count (cs : list vm_call) : nat :=
  length (List.filter (fun c => match c with
                           | AttachCurrentThread rc => Z.eqb rc JNI_OK
                           | _ => false
                           end) cs).

Record attach_inv (s : state) : Prop := {
  counted : attach_count (calls s) = if _attached s then 1%nat else O;
  cached : _attached s = true -> is_Some (_env s)
}.

Lemma attach_count_snoc cs c :
  attach_count (cs ++ [c])
  = (attach_count cs
     + match c with
       | AttachCurrentThread rc => if Z.eqb rc JNI_OK then 1 else 0
       | _ => 0
       end)%nat.
Proof.
  unfold attach_count. rewrite List.filter_app, length_app. f_equal.
  destruct c as [rc|rc|]; simpl; try reflexivity.
  now destruct (Z.eqb rc JNI_OK).
Qed.

Lemma getEnv_attach_inv s s' e :
  attach_inv s -> getEnv s = Some (s', e) -> attach_inv s'.
Proof.
  intros [Hc He] H. unfold getEnv, vm_GetEnv in H.
  destruct (_vm s); [|discriminate].
  destruct (_env s) eqn:Henv.
  { injection H as <- <-. now split. }
  assert (Hoff : _attached s = false).
  { destruct (_attached s); [|reflexivity].
    destruct (He eq_refl) as [? ?]; discriminate. }
  rewrite Hoff in Hc.
  destruct (negb (version_supported (vm_side s))); simpl in H.
  { injection H as <- <-. split; simpl;
      rewrite ?attach_count_snoc, ?Hc, ?Hoff; simpl; auto; discriminate. }
  destruct (vm_attached (vm_side s)); simpl in H.
  { injection H as <- <-. split; simpl;
      rewrite ?attach_count_snoc, ?Hc, ?Hoff; simpl; eauto; discriminate. }
  destruct (attach_succeeds (vm_side s)); injection H as <- <-; split; simpl;
    rewrite ?attach_count_snoc, ?Hc, ?Hoff; simpl; eauto; discriminate.
Qed.

Lemma step_attach_inv o s s' : attach_inv s -> step o s = Some s' -> attach_inv s'.
Proof.
  intros Hi H. destruct o; simpl in H.
  - unfold load in H. destruct (_vm s); [discriminate|]. injection H as <-.
    destruct Hi. now split.
  - unfold unload in H. destruct (_vm s); [|discriminate]. injection H as <-.
    destruct Hi. now split.
  - unfold setEnv in H. destruct Hi as [Hc He].
    destruct (_vm s); [|discriminate].
    destruct (_env s); [destruct (Nat.eqb _ _); [|discriminate]|];
      injection H as <-; split; simpl; eauto.
  - destruct (getEnv s) as [[s1 e]|] eqn:Hg; [|discriminate].
    injection H as <-. eauto using getEnv_attach_inv.
Qed.

Lemma run_attach_inv ops : forall s s', attach_inv s -> run ops s = Some s' -> attach_inv s'.
Proof.
  induction ops as [|o ops IH]; intros s s' Hi H; simpl in H.
  - now injection H as <-.
  - destruct (step o s) eqn:Hs; [|discriminate]. eauto using step_attach_inv.
Qed.

(** X8: whatever a thread does with [load], [unload], [setEnv] and
    [getEnv], this layer attaches it to the virtual machine at most once,
    and never when the host had attached it; and once [getEnv] has
    returned an environment, the next [getEnv] returns the same one
    without another call into the virtual machine. *)
Theorem attached_at_most_once vm t ops s :
  run ops (fresh vm t) = Some s ->
  (attach_count (calls s) <= 1)%nat
  /\ (vm_attached t = true -> attach_count (calls s) = O)
  /\ (forall s1 e, getEnv s = Some (s1, Some e) -> getEnv s1 = Some (s1, Some e)).
Proof.
  intros Hrun.
  assert (Hfresh : attach_inv (fresh vm t)) by (split; simpl; [reflexivity | discriminate]).
  pose proof (run_attach_inv _ _ _ Hfresh Hrun) as [Hc He].
  split; [|split].
  - rewrite Hc. destruct (_attached s); lia.
  - intros Hhost.
    assert (Hh : host_inv (fresh vm t)) by (now split).
    destruct (run_host_inv _ _ _ Hh Hrun) as [_ Hoff].
    now rewrite Hc, Hoff.
  - intros s1 e Hg. unfold getEnv, vm_GetEnv in Hg. unfold getEnv.
    destruct (_vm s) eqn:Hvm; [|discriminate].
    destruct (_env s) eqn:Henv.
    { injection Hg as <- <-. now rewrite Hvm, Henv. }
    destruct (negb (version_supported (vm_side s))); simpl in Hg.
    { discriminate Hg. }
    destruct (vm_attached (vm_side s)); simpl in Hg.
    { injection Hg as <- <-. simpl. now rewrite Hvm. }
    destruct (attach_succeeds (vm_side s)); [|discriminate Hg].
    injection Hg as <- <-. simpl. now rewrite Hvm.
Qed.

(** A native thread that asks for its environment three times. *)
Lemma attached_at_most_once_witness :
  exists s,
    run [Load 7%nat; GetEnvOp; GetEnvOp; GetEnvOp] (fresh None native_thread) = Some s
    /\ (attach_count (calls s) <= 1)%nat
    /\ calls s = [GetEnv JNI_EDETACHED; AttachCurrentThread JNI_OK].
Proof.
  eexists. split; [reflexivity|]. split; [|reflexivity].
  exact (proj1 (attached_at_most_once None native_thread
                  [Load 7%nat; GetEnvOp; GetEnvOp; GetEnvOp] _ eq_refl)).
Defined.

End AttachFacts.

(** ** The binding tables *)

Module RegistryFacts.
Import Registry StdMap RoundTripFacts.

Lemma ltb_lt a b : String.ltb a b = true <-> String.compare a b = Lt.
Proof. unfold String.ltb. destruct (String.compare a b); split; congruence. Qed.

Lemma compare_lt_trans a b c :
  String.compare a b = Lt -> String.compare b c = Lt -> String.compare a c = Lt.
Proof.
  intros Hab Hbc.
  apply OrderedTypeEx.String_as_OT.cmp_lt in Hab, Hbc.
  apply OrderedTypeEx.String_as_OT.cmp_lt.
  eapply OrderedTypeEx.String_as_OT.lt_trans; eassumption.
Qed.

Lemma compare_gt_lt a b : String.compare a b = Gt -> String.compare b a = Lt.
Proof. intros H. rewrite String.compare_antisym, H. reflexivity. Qed.

Lemma compare_refl a : String.compare a a = Eq.
Proof. exact (proj2 (OrderedTypeEx.String_as_OT.cmp_eq a a) eq_refl). Qed.

Section Tables.
Context {V : Type}.
Implicit Types (m : list (string * V)) (f : V -> V) (d : V).

(** A [std::map]: keys strictly increasing. *)
Definition well_formed m : Prop := keyed_sorted fst String.ltb m.

Lemma update_keys (P : string -> Prop) k f d m :
  P k -> Forall (fun e => P (fst e)) m -> Forall (fun e => P (fst e)) (update k f d m).
Proof.
  intros Hk. induction 1 as [|[k' v] m Hk' Hm IH]; simpl.
  - repeat constructor. exact Hk.
  - destruct (String.compare k k') eqn:Hc.
    + constructor; [exact Hk' | exact Hm].
    + constructor; [exact Hk|]. constructor; [exact Hk' | exact Hm].
    + constructor; [exact Hk' | exact IH].
Qed.

Lemma update_well_formed k f d m : well_formed m -> well_formed (update k f d m).
Proof.
  unfold well_formed. induction 1 as [|[k' v] m Hall Hs IH]; simpl.
  - constructor; constructor.
  - destruct (String.compare k k') eqn:Hc.
    + constructor; assumption.
    + constructor; [|now constructor].
      constructor; [now apply ltb_lt|].
      eapply Forall_impl; [exact Hall|]. intros e He. simpl in *.
      apply ltb_lt. apply ltb_lt in He. eauto using compare_lt_trans.
    + constructor; [|exact IH].
      apply (update_keys (fun x => String.ltb k' x = true)); [|exact Hall].
      apply ltb_lt. now apply compare_gt_lt.
Qed.

Lemma find_below k m :
  Forall (fun e => String.compare k (fst e) = Lt) m -> find k m = None.
Proof.
  induction 1 as [|[k' v] m Hk _ IH]; simpl; [reflexivity|].
  destruct (String.eqb_spec k k') as [->|_]; [|exact IH].
  simpl in Hk. rewrite compare_refl in Hk. discriminate.
Qed.

Lemma find_update_same k f d m :
  well_formed m -> find k (update k f d m) = Some (f (default d (find k m))).
Proof.
  unfold well_formed. induction 1 as [|[k' v] m Hall Hs IH]; simpl.
  - now rewrite String.eqb_refl.
  - destruct (String.compare k k') eqn:Hc.
    + apply String.compare_eq_iff in Hc. subst k'. simpl. now rewrite String.eqb_refl.
    + simpl. rewrite String.eqb_refl.
      destruct (String.eqb_spec k k') as [->|_];
        [rewrite compare_refl in Hc; discriminate|].
      rewrite find_below; [reflexivity|].
      eapply Forall_impl; [exact Hall|]. intros e He. simpl in *.
      apply ltb_lt in He. eauto using compare_lt_trans.
    + simpl. destruct (String.eqb_spec k k') as [->|_];
        [rewrite compare_refl in Hc; discriminate | exact IH].
Qed.

Lemma find_update_other k k0 f d m : k0 <> k -> find k0 (update k f d m) = find k0 m.
Proof.
  intros Hne. induction m as [|[k' v] m IH]; simpl.
  - destruct (String.eqb_spec k0 k); [contradiction | reflexivity].
  - destruct (String.compare k k') eqn:Hc; simpl.
    + apply String.compare_eq_iff in Hc. subst k'.
      destruct (String.eqb_spec k0 k); [contradiction | reflexivity].
    + destruct (String.eqb_spec k0 k); [contradiction | reflexivity].
    + now rewrite IH.
Qed.

End Tables.

(** Registration calls one after the other: each names a class and the
    binding it pushes. *)
Definition pushes (ps : list (string * FunctionBinding)) (r : registry) : registry :=
  fold_left (fun r p => push_function (fst p) (snd p) r) ps r.

(** The bindings pushed for [class], in the order of the calls. *)
Definition pushed (class : string) (ps : list (string * FunctionBinding))
    : list FunctionBinding :=
  map snd (List.filter (fun p => String.eqb (fst p) class) ps).

Definition table_after (ps : list (string * FunctionBinding))
    : list (string * list FunctionBinding) :=
  function_bindings (pushes ps Registry.empty).

Lemma pushes_spec ps : forall r,
  well_formed (function_bindings r) ->
  well_formed (function_bindings (pushes ps r))
  /\ forall class,
       find class (function_bindings (pushes ps r))
       = match find class (function_bindings r), pushed class ps with
         | None, [] => None
         | o, bs => Some (default [] o ++ bs)
         end.
Proof.
  induction ps as [|[c b] ps IH]; intros r Hwf.
  - split; [exact Hwf|]. intros class. unfold pushed. simpl.
    destruct (find class (function_bindings r)); [|reflexivity].
    simpl. now rewrite app_nil_r.
  - destruct (IH (push_function c b r)) as [Hwf' Hfind].
    { simpl. now apply update_well_formed. }
    split; [exact Hwf'|]. intros class.
    change (pushes ((c, b) :: ps) r) with (pushes ps (push_function c b r)).
    rewrite Hfind. unfold pushed. cbn [List.filter fst snd push_function function_bindings].
    destruct (String.eqb_spec c class) as [->|Hne].
    + rewrite find_update_same by exact Hwf. cbn [map].
      destruct (find class (function_bindings r)); simpl;
        rewrite <- ?app_assoc; reflexivity.
    + rewrite find_update_other by congruence. reflexivity.
Qed.

(** X9: however the registration calls for the classes are interleaved,
    the table of function bindings holds one entry per class in increasing
    order of class name (the order in which the load goes through them),
    and the entry of a class holds exactly the bindings pushed for it, in
    the order of the calls; a class nothing was pushed for has no entry. *)
Theorem bindings_grouped_by_class ps :
  well_formed (table_after ps)
  /\ forall class,
       find class (table_after ps)
       = match pushed class ps with
         | [] => None
         | bs => Some bs
         end.
Proof.
  destruct (pushes_spec ps Registry.empty) as [Hwf Hfind]; [constructor|].
  split; [exact Hwf|]. intros class. unfold table_after. rewrite Hfind. reflexivity.
Qed.

End RegistryFacts.

(** ** Native classes: from creation to disposal *)

Module LifecycleFacts.
Import Wire Adapter Lifecycle AdapterFacts.

(** What [operator new] and [AllocObject] guarantee. *)
Record sound (alloc : allocator) : Prop := {
  address_fresh : forall l, new_address alloc l ∉ l;
  address_nonnull : forall l, new_address alloc l <> 0;
  object_fresh : forall ids, new_object alloc ids ∉ ids
}.

(** An allocator to run the adapters with. *)
Definition first_free : allocator :=
  {| new_address := fun l => fresh ({[0]} ∪ l); new_object := fun ids => fresh ids |}.

Lemma first_free_sound : sound first_free.
Proof.
  split; simpl.
  - intros l Hin. apply (is_fresh ({[0]} ∪ l)). set_solver.
  - intros l Heq. apply (is_fresh ({[0]} ∪ l)). rewrite Heq. set_solver.
  - intros ids. apply is_fresh.
Qed.

(** A class a native class can be bound to. *)
Definition bindable (c : holder_class) : Prop :=
  instantiable c = true /\ has_nativePointer c = true.

(** What holds of the parameter at position [i] and the argument it
    is handed. *)
Fixpoint at_position {Ns Js} (cs : conversions Ns Js) (i : nat)
    (P : forall N J : Type, ArgType N J -> J -> Prop) : Js -> Prop :=
  match cs in conversions _ Js0 return Js0 -> Prop with
  | no_more => fun _ => False
  | @one_more N J _ _ A rest => fun args =>
      match i with
      | O => P N J A (fst args)
      | S i' => at_position rest i' P (snd args)
      end
  end.

(** An argument that converts: [native_value] returns, and leaves the
    handles of the native objects as they are. *)
Definition converts (N J : Type) (A : ArgType N J) (j : J) : Prop :=
  forall w, exists w' n,
    native_value A j w = (w', Return n) /\ nativePointer w' = nativePointer w.

Lemma convert_at_converts {Ns Js} (cs : conversions Ns Js) : forall i args s w,
  at_position cs i converts args ->
  exists w' s',
    convert_at cs i args s w = (w', Return s') /\ nativePointer w' = nativePointer w.
Proof.
  induction cs as [|N J Ns Js A rest IH]; intros i args s w Hat; simpl in Hat.
  - contradiction.
  - destruct i as [|i]; simpl; unfold bind.
    + destruct (Hat w) as (w' & n & Hrun & Hn). rewrite Hrun.
      now exists w', (Some n, snd s).
    + destruct (IH i (snd args) (snd s) w Hat) as (w' & s' & Hrun & Hn). rewrite Hrun.
      now exists w', (fst s, s').
Qed.

Section Created.
Variable alloc : allocator.
Hypothesis alloc_sound : sound alloc.

(** The world once [new_holder] has wrapped [ptr]. *)
Definition wrapped (c : holder_class) (ptr : Z) (w : world) : world :=
  let id := new_object alloc (dom (nativePointer w)) in
  emit [SetField "nativePointer"]
    (set_nativePointer (<[id := ptr]> (<[id := 0]> (nativePointer w)))
       (emit [GetFieldID "nativePointer" "J"] (emit [AllocObject (hc_name c)] w))).

Lemma new_holder_bindable c ptr w :
  bindable c ->
  new_holder alloc c ptr w
  = (wrapped c ptr w, Return (JHolder (new_object alloc (dom (nativePointer w))))).
Proof using Type.
  intros [Hi Hf]. unfold new_holder, JNI_AllocObject, bind, call. simpl.
  rewrite Hi, Hf. reflexivity.
Qed.

(** The world in which the constructor has run and its instance is
    live. *)
Definition constructed (w : world) : world :=
  set_live ({[new_address alloc (live w)]} ∪ live w) w.

Lemma create_bindable {Ns Js} c (Args : ArgPack Ns Js) ctor args w w1 a w2 :
  bindable c ->
  pack_native Args args w = (w1, Return a) ->
  ctor a w1 = (w2, Return tt) ->
  invoke_create alloc c Args ctor args w
  = (wrapped c (new_address alloc (live w2)) (constructed w2),
     Return (JHolder (new_object alloc (dom (nativePointer w2))))).
Proof using Type.
  intros Hc Hargs Hctor.
  unfold invoke_create, catch_at_boundary, create_body, new_instance, bind.
  rewrite Hargs, Hctor.
  rewrite (new_holder_bindable c _ _ Hc). reflexivity.
Qed.

(** X10: [CreateObjectAdapter::invoke] on a class that can be
    instantiated and declares [nativePointer], with arguments that
    convert and a constructor that returns: the object handed back is
    a new one, its [nativePointer] is the non-null address of a new
    live instance, all other objects and instances are as the
    constructor left them and no exception is raised; and an instance
    method called on that object runs the native method on that very
    instance. *)
Theorem created_object_reaches_its_instance {Ns Js} c (Args : ArgPack Ns Js)
    ctor args w w1 a w2 :
  bindable c ->
  pack_native Args args w = (w1, Return a) ->
  ctor a w1 = (w2, Return tt) ->
  exists id ptr w3,
    invoke_create alloc c Args ctor args w = (w3, Return (JHolder id))
    /\ (id ∉ dom (nativePointer w2))
    /\ ptr <> 0 /\ (ptr ∉ live w2)
    /\ nativePointer w3 = <[id := ptr]> (nativePointer w2)
    /\ live w3 = {[ptr]} ∪ live w2
    /\ pending w3 = pending w2
    /\ forall NR JR class_name (R : ArgType NR JR) (java_default : JR)
              (func : Z -> unit -> M NR),
         invoke_member class_name pack_nil R java_default func (JHolder id) tt w3
         = catch_at_boundary java_default
             (let* result := func ptr tt in java_value R result)
             (emit pointer_calls w3).
Proof using alloc_sound.
  intros Hc Hargs Hctor.
  exists (new_object alloc (dom (nativePointer w2))), (new_address alloc (live w2)).
  eexists. split; [exact (create_bindable c Args ctor args w w1 a w2 Hc Hargs Hctor)|].
  split; [apply alloc_sound|]. split; [apply alloc_sound|]. split; [apply alloc_sound|].
  split; [simpl; apply insert_insert_eq|].
  split; [reflexivity|]. split; [reflexivity|].
  intros NR JR class_name R java_default func.
  unfold invoke_member, catch_at_boundary, member_body.
  unfold bind at 1.
  rewrite (native_pointer_holder _ (new_address alloc (live w2)))
    by (simpl; apply lookup_insert_eq).
  destruct (Z.eqb_spec (new_address alloc (live w2)) 0) as [H0|_];
    [now apply alloc_sound in H0|].
  unfold bind, pack_nil, ret. simpl.
  rewrite decide_True by set_solver. reflexivity.
Qed.

(** X11: an object created by [CreateObjectAdapter::invoke] and then
    closed leaves nothing behind: [close] returns normally, the native
    instances alive are again those the constructor left, and the
    object's [nativePointer] is null. *)
Theorem create_then_close_leaves_nothing {Ns Js} c (Args : ArgPack Ns Js)
    ctor args w w1 a w2 :
  bindable c ->
  pack_native Args args w = (w1, Return a) ->
  ctor a w1 = (w2, Return tt) ->
  exists id w3 w4,
    invoke_create alloc c Args ctor args w = (w3, Return (JHolder id))
    /\ invoke_destroy (JHolder id) w3 = (w4, Return tt)
    /\ live w4 = live w2
    /\ nativePointer w4 = <[id := 0]> (nativePointer w2)
    /\ pending w4 = pending w2.
Proof using alloc_sound.
  intros Hc Hargs Hctor.
  pose proof (address_fresh alloc alloc_sound (live w2)) as Hfresh.
  pose proof (address_nonnull alloc alloc_sound (live w2)) as Hnz.
  do 3 eexists.
  split; [exact (create_bindable c Args ctor args w w1 a w2 Hc Hargs Hctor)|].
  split.
  { apply (dispose_live _ (new_address alloc (live w2))).
    - simpl. apply lookup_insert_eq.
    - exact Hnz.
    - simpl. set_solver. }
  split.
  { simpl. apply set_eq. intros x.
    rewrite elem_of_difference, elem_of_union, !elem_of_singleton.
    split; [intros [[->|Hx] Hne]; [contradiction | exact Hx]|].
    intros Hx. split; [now right | intros ->; contradiction]. }
  split; [simpl; now rewrite !insert_insert_eq|].
  reflexivity.
Qed.


(** X13: when the class the object is to be made from cannot be
    instantiated, or does not declare [nativePointer],
    [CreateObjectAdapter::invoke] hands back the null reference with the
    virtual machine's exception pending, and the instance the
    constructor has just built stays alive: no [delete] is reached and no
    object holds its address. *)
Theorem unbindable_class_leaks_instance {Ns Js} c (Args : ArgPack Ns Js)
    ctor args w w1 a w2 :
  ~ bindable c ->
  pack_native Args args w = (w1, Return a) ->
  ctor a w1 = (w2, Return tt) ->
  exists ptr w3 t,
    invoke_create alloc c Args ctor args w = (w3, Return JNull)
    /\ ptr <> 0 /\ (ptr ∉ live w2)
    /\ live w3 = {[ptr]} ∪ live w2
    /\ nativePointer w3 = nativePointer w2
    /\ pending w3 = Some t
    /\ thr_class t = (if instantiable c then "java/lang/NoSuchFieldError"
                      else "java/lang/InstantiationException")%string.
Proof using alloc_sound.
  intros Hc Hargs Hctor.
  exists (new_address alloc (live w2)).
  unfold invoke_create, create_body, new_instance.
  destruct (instantiable c) eqn:Hi.
  - destruct (has_nativePointer c) eqn:Hf; [exfalso; apply Hc; now split|].
    do 2 eexists. split.
    + unfold catch_at_boundary, bind. rewrite Hargs, Hctor.
      unfold new_holder, JNI_AllocObject, bind, call. rewrite Hi, Hf. simpl.
      unfold modify, throw_JavaException, bind. simpl.
      unfold JNI_Throw, modify, bind, ret. simpl. reflexivity.
    + split; [apply alloc_sound|]. split; [apply alloc_sound|].
      repeat split.
  - do 2 eexists. split.
    + unfold catch_at_boundary, bind. rewrite Hargs, Hctor.
      unfold new_holder, JNI_AllocObject, bind, call. rewrite Hi. simpl.
      unfold modify, throw_JavaException, bind, ret. simpl.
      unfold JNI_Throw, modify, bind, ret. simpl. reflexivity.
    + split; [apply alloc_sound|]. split; [apply alloc_sound|].
      repeat split.
Qed.

(** *** Native objects as arguments and as results *)

Section ByReference.
Variable dm : data_model.
Variable T : ctype.
Variable c : holder_class.
Variable class_found : bool.
Variable copy : Z -> M unit.

Local Abbreviation NativeArg := (NativeClassArgType alloc dm T c class_found copy).

Lemma native_value_live id ptr w :
  nativePointer w !! id = Some ptr -> ptr <> 0 -> ptr ∈ live w ->
  native_value NativeArg (JHolder id) w = (emit pointer_calls w, Return ptr).
Proof using Type.
  intros Hp Hnz Hlive. cbn [native_value NativeClassArgType]. unfold bind.
  rewrite (native_pointer_holder _ _ _ Hp).
  destruct (Z.eqb_spec ptr 0) as [?|_]; [contradiction|].
  now rewrite decide_True by exact Hlive.
Qed.

(** A parameter of type [T&] or [const T&] that is handed the object
    [id]. *)
Inductive native_object_at (id : nat) : forall N J : Type, ArgType N J -> J -> Prop :=
  | native_object_here : native_object_at id Z jobject NativeArg (JHolder id).

Lemma closed_native_object id N J (A : ArgType N J) (j : J) :
  native_object_at id N J A j ->
  forall w, nativePointer w !! id = Some 0 -> snd (native_value A j w) = Undefined.
Proof using Type.
  intros H. destruct H. intros w Hp.
  cbn [native_value NativeClassArgType]. unfold bind.
  rewrite (native_pointer_holder _ _ _ Hp). reflexivity.
Qed.

Lemma convert_at_closed {Ns Js} (cs : conversions Ns Js) id : forall i args s w,
  at_position cs i (native_object_at id) args ->
  nativePointer w !! id = Some 0 ->
  snd (convert_at cs i args s w) = Undefined.
Proof using Type.
  induction cs as [|N J Ns Js A rest IH]; intros i args s w Hat Hp; simpl in Hat.
  - contradiction.
  - destruct i as [|i]; simpl; unfold bind.
    + pose proof (closed_native_object id N J A (fst args) Hat w Hp) as Hu.
      destruct (native_value A (fst args) w) as [w' o]. simpl in Hu. now subst o.
    + pose proof (IH i (snd args) (snd s) w Hat Hp) as Hu.
      destruct (convert_at rest i (snd args) (snd s) w) as [w' o]. simpl in Hu. now subst o.
Qed.

(** X14: [NativeClassArgType::native_value] dereferences the stored
    pointer without looking at it.  A function that has a native object
    by reference among its parameters, in any position, and is handed
    for it an object that has been closed (its [nativePointer] is null)
    has no defined behaviour: whatever order the compiler converts the
    arguments in, once those converted before it have been converted the
    null pointer is dereferenced.  No exception is raised for it, unlike
    for an instance method called on that object. *)
Theorem closed_object_as_argument_is_undefined {Ns Js} (cs : conversions Ns Js)
    args before i after id w :
  nativePointer w !! id = Some 0 ->
  at_position cs i (native_object_at id) args ->
  (forall j, j ∈ before -> at_position cs j converts args) ->
  forall NR JR (R : ArgType NR JR) (java_default : JR) (func : Ns -> M NR),
    snd (invoke (pack_in (before ++ i :: after) cs) R java_default func args w)
    = Undefined.
Proof using Type.
  intros Hp Hat Hbefore NR JR R java_default func.
  assert (Hconv : forall s w0,
    nativePointer w0 !! id = Some 0 ->
    snd (convert_in (before ++ i :: after) cs args s w0) = Undefined).
  { clear Hp. induction before as [|j before IH]; intros s w0 Hp0; simpl; unfold bind.
    - pose proof (convert_at_closed cs id i args s w0 Hat Hp0) as Hu.
      destruct (convert_at cs i args s w0) as [w' o]. simpl in Hu. now subst o.
    - destruct (convert_at_converts cs j args s w0) as (w' & s' & Hrun & Hn).
      { apply Hbefore. apply elem_of_cons. now left. }
      rewrite Hrun. apply IH.
      + intros j' Hj'. apply Hbefore. apply elem_of_cons. now right.
      + now rewrite Hn. }
  unfold invoke, catch_at_boundary, invoke_body, pack_in. cbn [pack_native].
  unfold bind. specialize (Hconv (no_slots cs) w Hp).
  destruct (convert_in (before ++ i :: after) cs args (no_slots cs) w) as [w' o].
  simpl in Hconv. now subst o.
Qed.

(** X15: a native object returned by value reaches Java as a new
    object that owns a new instance, constructed from the returned one:
    when the class resolves, can be instantiated and declares
    [nativePointer], and the copy or move constructor returns,
    [NativeClassArgType::java_value] hands back an object that did not
    exist, whose [nativePointer] is the non-null address of an instance
    that was not alive; and handing this object back to native code as
    an argument yields that instance. *)
Theorem returned_by_value_is_a_new_instance value w w1 :
  bindable c -> class_found = true ->
  copy value w = (w1, Return tt) ->
  exists id ptr w2,
    java_value NativeArg value w = (w2, Return (JHolder id))
    /\ (id ∉ dom (nativePointer w1))
    /\ ptr <> 0 /\ (ptr ∉ live w1)
    /\ nativePointer w2 = <[id := ptr]> (nativePointer w1)
    /\ live w2 = {[ptr]} ∪ live w1
    /\ pending w2 = pending w1
    /\ native_value NativeArg (JHolder id) w2 = (emit pointer_calls w2, Return ptr).
Proof using alloc_sound.
  intros Hc Hfound Hcopy.
  exists (new_object alloc (dom (nativePointer w1))), (new_address alloc (live w1)).
  eexists. split.
  { cbn [java_value NativeClassArgType]. unfold new_instance, bind.
    rewrite Hcopy, Hfound. unfold call. cbn iota beta.
    rewrite (new_holder_bindable c _ _ Hc). reflexivity. }
  split; [apply alloc_sound|]. split; [apply alloc_sound|]. split; [apply alloc_sound|].
  split; [simpl; apply insert_insert_eq|].
  split; [reflexivity|]. split; [reflexivity|].
  apply native_value_live.
  - simpl. apply lookup_insert_eq.
  - apply alloc_sound.
  - simpl. set_solver.
Qed.

End ByReference.

End Created.

(** *** The adapters at work

    [Sample()] of a class [demo.Sample] that is bindable, in a world in
    which nothing has happened yet. *)
Definition Sample_class : holder_class :=
  {| hc_name := "demo/Sample"; instantiable := true; has_nativePointer := true |}.

Definition Sample_ctor : unit -> M unit := fun _ => ret tt.

Lemma Sample_bindable : bindable Sample_class.
Proof. split; reflexivity. Qed.

Lemma created_object_reaches_its_instance_witness :
  exists id ptr w3,
    invoke_create first_free Sample_class pack_nil Sample_ctor tt quiet
      = (w3, Return (JHolder id))
    /\ ptr <> 0
    /\ nativePointer w3 = <[id := ptr]> (nativePointer quiet)
    /\ live w3 = {[ptr]} ∪ live quiet.
Proof.
  destruct (created_object_reaches_its_instance first_free first_free_sound
              Sample_class pack_nil Sample_ctor tt quiet quiet tt quiet
              Sample_bindable eq_refl eq_refl)
    as (id & ptr & w3 & Hrun & _ & Hnz & _ & Hp & Hl & _).
  exists id, ptr, w3. auto.
Defined.

Lemma create_then_close_leaves_nothing_witness :
  exists id w3 w4,
    invoke_create first_free Sample_class pack_nil Sample_ctor tt quiet
      = (w3, Return (JHolder id))
    /\ invoke_destroy (JHolder id) w3 = (w4, Return tt)
    /\ live w4 = live quiet.
Proof.
  destruct (create_then_close_leaves_nothing first_free first_free_sound
              Sample_class pack_nil Sample_ctor tt quiet quiet tt quiet
              Sample_bindable eq_refl eq_refl)
    as (id & w3 & w4 & Hrun & Hclose & Hl & _).
  exists id, w3, w4. auto.
Defined.

(** A constructor that throws [std::invalid_argument]. *)
Definition throwing_ctor : unit -> M unit :=
  fun _ => throw (ThrowStd "negative size").




(** A Kotlin class that lacks the field. *)
Definition fieldless_class : holder_class :=
  {| hc_name := "demo/Plain"; instantiable := true; has_nativePointer := false |}.

Lemma unbindable_class_leaks_instance_witness :
  exists ptr w3 t,
    invoke_create first_free fieldless_class pack_nil Sample_ctor tt quiet
      = (w3, Return JNull)
    /\ ptr <> 0 /\ (ptr ∉ live quiet)
    /\ live w3 = {[ptr]} ∪ live quiet
    /\ nativePointer w3 = nativePointer quiet
    /\ pending w3 = Some t
    /\ thr_class t = "java/lang/NoSuchFieldError"%string.
Proof.
  apply (unbindable_class_leaks_instance first_free first_free_sound
           fieldless_class pack_nil Sample_ctor tt quiet quiet tt quiet).
  - intros [_ H]. discriminate H.
  - reflexivity.
  - reflexivity.
Defined.

(** An object whose [close] has run. *)
Definition closed_holder : world :=
  {| pending := None; created := O; nativePointer := {[ 1%nat := 0 ]};
     live := ∅; natives := []; trace := [] |}.

(** [void label(const std::string&, const Sample&)] called with it,
    the arguments converted from the left and from the right. *)
Definition Sample_ArgType : ArgType Z jobject :=
  NativeClassArgType first_free LP64 (NativeClass "demo.Sample") Sample_class true
    (fun _ => ret tt).

Definition label_parameters : conversions (string * (Z * unit)) (jobject * (jobject * unit)) :=
  one_more (StringArgType LP64) (one_more Sample_ArgType no_more).

Lemma closed_object_as_argument_is_undefined_witness :
  snd (invoke (pack_in [O; 1%nat] label_parameters) VoidResult tt (fun _ => ret tt)
         (JString "x", (JHolder 1, tt)) closed_holder) = Undefined
  /\ snd (invoke (pack_in [1%nat; O] label_parameters) VoidResult tt (fun _ => ret tt)
            (JString "x", (JHolder 1, tt)) closed_holder) = Undefined.
Proof.
  split.
  - apply (closed_object_as_argument_is_undefined first_free LP64
             (NativeClass "demo.Sample") Sample_class true (fun _ => ret tt)
             label_parameters (JString "x", (JHolder 1, tt)) [O] 1%nat [] 1%nat
             closed_holder).
    + reflexivity.
    + constructor.
    + intros j Hj. apply list_elem_of_singleton in Hj. subst j.
      intros w. do 2 eexists. split; reflexivity.
  - apply (closed_object_as_argument_is_undefined first_free LP64
             (NativeClass "demo.Sample") Sample_class true (fun _ => ret tt)
             label_parameters (JString "x", (JHolder 1, tt)) [] 1%nat [O] 1%nat
             closed_holder).
    + reflexivity.
    + constructor.
    + intros j Hj. now apply elem_of_nil in Hj.
Defined.

Lemma returned_by_value_is_a_new_instance_witness :
  exists id ptr w2,
    java_value (NativeClassArgType first_free LP64 (NativeClass "demo.Sample")
                  Sample_class true (fun _ => ret tt)) 4096 quiet
      = (w2, Return (JHolder id))
    /\ ptr <> 0
    /\ live w2 = {[ptr]} ∪ live quiet.
Proof.
  destruct (returned_by_value_is_a_new_instance first_free first_free_sound LP64
              (NativeClass "demo.Sample") Sample_class true (fun _ => ret tt)
              4096 quiet quiet Sample_bindable eq_refl eq_refl)
    as (id & ptr & w2 & Hrun & _ & Hnz & _ & _ & Hl & _).
  exists id, ptr, w2. auto.
Defined.

End LifecycleFacts.

(** ** Primitive values on their way *)

Module PrimitiveFacts.
Import Traits Wire MonadFacts RoundTripFacts.

Lemma wrap_signed_unsigned b z :
  0 < b -> - 2 ^ (b - 1) <= z < 2 ^ (b - 1) -> wrap_signed b (wrap_unsigned b z) = z.
Proof.
  intros Hb Hz. unfold wrap_unsigned, wrap_signed.
  assert (H2 : 2 ^ b = 2 * 2 ^ (b - 1)).
  { replace b with (Z.succ (b - 1)) at 1 by lia. rewrite Z.pow_succ_r by lia. lia. }
  assert (Hp : 0 < 2 ^ (b - 1)) by (apply Z.pow_pos_nonneg; lia).
  rewrite Zplus_mod_idemp_l.
  rewrite Z.mod_small by lia. lia.
Qed.

Lemma wrap_signed_high b z :
  0 < b -> 0 <= z < 2 ^ b ->
  wrap_signed b z = if z <? 2 ^ (b - 1) then z else z - 2 ^ b.
Proof.
  intros Hb Hz. unfold wrap_signed.
  assert (H2 : 2 ^ b = 2 * 2 ^ (b - 1)).
  { replace b with (Z.succ (b - 1)) at 1 by lia. rewrite Z.pow_succ_r by lia. lia. }
  assert (Hp : 0 < 2 ^ (b - 1)) by (apply Z.pow_pos_nonneg; lia).
  destruct (Z.ltb_spec z (2 ^ (b - 1))) as [Hlow|Hhigh].
  - rewrite Z.mod_small by lia. lia.
  - replace (z + 2 ^ (b - 1)) with ((z - 2 ^ (b - 1)) + 1 * 2 ^ b) by lia.
    rewrite Z.mod_add by lia. rewrite Z.mod_small by lia. lia.
Qed.

Section Primitives.
Variable dm : data_model.
Variable char_signed : bool.
Variable number_conversion : string -> string -> Z -> Z.

Local Abbreviation native_repr := (native_repr dm char_signed).
Local Abbreviation java_repr := (java_repr dm).
Local Abbreviation Fundamental := (FundamentalArgType dm char_signed number_conversion).

(** What a [jboolean] other than 0 and 1 becomes on its way through
    [bool]; every other Java value is kept. *)
Definition normalised (p : prim) (j : Z) : Z :=
  match p with
  | PBool => if Z.eqb j 0 then 0 else 1
  | _ => j
  end.

Lemma cast_back p j :
  in_range (java_repr p) j ->
  cast (java_repr p) (cast (native_repr p) j) = normalised p j.
Proof.
  assert (H8 : 8 * Z.of_nat 8 = 64) by reflexivity.
  assert (H4 : 8 * Z.of_nat 4 = 32) by reflexivity.
  destruct p; simpl;
    try (destruct char_signed; simpl);
    try (destruct dm; simpl);
    rewrite ?H8, ?H4; intros H;
    first
      [ rewrite !(wrap_signed_small _ j) by (first [exact H | lia]); reflexivity
      | rewrite (wrap_signed_unsigned _ j) by (first [exact H | lia]); reflexivity
      | rewrite !(wrap_unsigned_small _ j) by exact H; reflexivity
      | destruct (Z.eqb j 0); reflexivity
      | reflexivity ].
Qed.

(** X16: a Java primitive converted to its C++ type and back is the
    same value, for every type and every value of the Java type; only
    a [jboolean] other than 0 and 1 comes back as 1.  In particular the
    negative values of [jbyte], [jint] and [jlong] survive the passage
    through [unsigned char], [unsigned int] and [unsigned long long]. *)
Theorem java_primitive_round_trip p j w :
  in_range (java_repr p) j ->
  (let* n := native_value (Fundamental p) j in java_value (Fundamental p) n) w
  = (w, Return (normalised p j)).
Proof.
  intros Hj. cbn [native_value java_value FundamentalArgType]. unfold bind, ret.
  now rewrite cast_back.
Qed.

(** How a native value in the range of its type is seen from Java: an
    unsigned type carried by a signed Java type of the same width shows
    its upper half as negative numbers. *)
Definition seen_from_java (p : prim) (x : Z) : Z :=
  match native_repr p, java_repr p with
  | Unsigned b, Signed _ => if x <? 2 ^ (b - 1) then x else x - 2 ^ b
  | _, _ => x
  end.

(** X17: [java_value] of a primitive keeps the value of every [bool],
    signed integer, [uint16_t], [float] and [double]; of an unsigned
    8-, 32- or 64-bit integer [x] it keeps the values below half the
    range and turns the others into [x - 2^bits], a negative number. *)
Theorem unsigned_values_wrap p x w :
  in_range (native_repr p) x ->
  java_value (Fundamental p) x w = (w, Return (seen_from_java p x)).
Proof.
  intros Hx. cbn [java_value FundamentalArgType]. unfold ret. do 2 f_equal.
  unfold seen_from_java.
  assert (H8 : 8 * Z.of_nat 8 = 64) by reflexivity.
  assert (H4 : 8 * Z.of_nat 4 = 32) by reflexivity.
  revert Hx.
  destruct p; simpl;
    try (destruct char_signed; simpl);
    try (destruct dm; simpl);
    rewrite ?H8, ?H4; intros H;
    first
      [ rewrite (wrap_signed_small _ x) by (first [exact H | lia]); reflexivity
      | rewrite (wrap_signed_high _ x) by (first [exact H | lia]); reflexivity
      | rewrite (wrap_unsigned_small _ x) by (first [exact H | lia]); reflexivity
      | destruct H as [-> | ->]; reflexivity
      | reflexivity ].
Qed.

End Primitives.

(** [unsigned int] and the [jint] -1. *)
Lemma java_primitive_round_trip_witness :
  (let* n := native_value (FundamentalArgType LP64 true (fun _ _ z => z) PUInt) (-1) in
   java_value (FundamentalArgType LP64 true (fun _ _ z => z) PUInt) n) quiet
  = (quiet, Return (-1)).
Proof.
  apply (java_primitive_round_trip LP64 true (fun _ _ z => z) PUInt (-1) quiet).
  simpl. lia.
Defined.

Lemma unsigned_values_wrap_witness :
  java_value (FundamentalArgType LP64 true (fun _ _ z => z) PUInt) 4294967295 quiet
  = (quiet, Return (-1)).
Proof.
  apply (unsigned_values_wrap LP64 true (fun _ _ z => z) PUInt 4294967295 quiet).
  simpl. lia.
Defined.

End PrimitiveFacts.

(** ** Strings from Java, and values through a callback *)

Module InboundFacts.
Import Traits Wire Adapter MonadFacts RoundTripFacts.

(** The calls [ArgType<std::string>::native_value] makes. *)
Definition string_in_calls (utf : string) : list jni_call :=
  match utf with
  | EmptyString => [GetStringUTFLength]
  | _ => [GetStringUTFLength; GetStringUTFChars]
  end.

Lemma string_native_value_emits dm utf :
  emits (native_value (StringArgType dm) (JString utf)) utf (string_in_calls utf).
Proof.
  intros w. cbn [native_value StringArgType]. unfold bind, call.
  destruct utf as [|c utf]; [reflexivity|].
  change (0 <? String.length (String c utf))%nat with true. cbn iota.
  unfold ret. now rewrite emit_app.
Qed.

(** X18: a Java string reaches native code as the bytes of its modified
    UTF-8 form, an empty one without [GetStringUTFChars] being called;
    converted back it is the same Java string (the form of a Java string
    is modified UTF-8, and so holds no NUL byte); a null reference in
    place of a string has no defined conversion. *)
Theorem java_string_round_trip dm utf :
  emits (native_value (StringArgType dm) (JString utf)) utf (string_in_calls utf)
  /\ (modified_utf8 utf = true ->
      emits (let* s := native_value (StringArgType dm) (JString utf) in
             java_value (StringArgType dm) s)
        (JString utf) (string_in_calls utf ++ [NewStringUTF]))
  /\ (forall w, snd (native_value (StringArgType dm) JNull w) = Undefined).
Proof.
  split; [apply string_native_value_emits|]. split.
  - intros Hutf. eapply emits_bind; [apply string_native_value_emits|].
    intros w. cbn [java_value StringArgType]. unfold bind, call, ret.
    rewrite (c_str_without_nul utf (modified_utf8_no_nul utf Hutf)).
    now rewrite Hutf.
  - reflexivity.
Qed.

Lemma java_string_round_trip_witness :
  emits (let* s := native_value (StringArgType LP64) (JString "cm") in
         java_value (StringArgType LP64) s)
    (JString "cm") [GetStringUTFLength; GetStringUTFChars; NewStringUTF].
Proof.
  exact (proj1 (proj2 (java_string_round_trip LP64 "cm")) eq_refl).
Defined.

(** *** A callback that hands its argument back *)

(** The Kotlin lambda [{ x -> x }]. *)
Definition echo : nat -> list jobject -> world -> world * jobject :=
  fun _ boxed w => (w, hd JNull boxed).

(** [ArgType<A>::java_box(env, ArgType<A>::java_value(env, arg))] for the
    one parameter of [std::function<R(A)>]. *)
Definition box_one {N J} (A : ArgType N J) (x : N) : M (list jobject) :=
  let* j := java_value A x in
  let* o := java_box A j in
  ret [o].

Section Echo.
Variable dm : data_model.
Variable char_signed : bool.
Variable java_slot : string -> jobject -> list jobject -> nat.
Variable number_conversion : string -> string -> Z -> Z.
Variable hash_slot_int : Z -> list Z -> nat.
Variable hash_slot_string : string -> list string -> nat.

Local Abbreviation Arg :=
  (ArgType_of dm char_signed java_slot number_conversion hash_slot_int hash_slot_string).

(** X19: native code that calls a Java callback of type
    [std::function<T(T)>], the callback handing its argument back,
    receives an equal value (the same elements, in the same order but
    for hashed containers); no exception is pending afterwards and no
    native instance or holder is touched.  [T] is a type the result of a
    callback can have, neither a flat array nor built on one that native
    code would have to receive, and the value is one that makes the
    round trip: its strings modified UTF-8, no two NaN in a hashed
    container. *)
Theorem callback_hands_value_back t x id w :
  is_flat_array t = false -> inbound t = true ->
  wf dm char_signed hash_slot_int hash_slot_string t x ->
  pending w = None ->
  exists y w',
    proxy (box_one (Arg t)) (Arg t) true echo id x w = (w', Return y)
    /\ equiv t x y
    /\ pending w' = None
    /\ live w' = live w
    /\ nativePointer w' = nativePointer w.
Proof.
  intros _ _ Hx Hp.
  destruct (element_round_trip dm char_signed java_slot number_conversion
              hash_slot_int hash_slot_string t x Hx)
    as (o & y & (j & [c1 Hj] & [c2 Hb] & [c3 Hu] & [c4 Hn]) & He).
  exists y. eexists. split.
  - unfold proxy, box_one. change (negb true) with false.
    unfold bind. cbv beta iota. rewrite Hj, Hb. unfold ret. cbn [echo hd].
    unfold ExceptionCheck. cbn [pending emit]. rewrite Hp.
    rewrite Hu, Hn. reflexivity.
  - split; [exact He|]. split; [exact Hp|]. split; reflexivity.
Qed.

End Echo.

(** A callback echoing the labels of the earlier scenario. *)
Lemma callback_hands_value_back_witness :
  exists y w',
    proxy (box_one labels_ArgType) labels_ArgType true echo 3 labels quiet
      = (w', Return y)
    /\ equiv labels_type labels y.
Proof.
  destruct (callback_hands_value_back LP64 true (fun _ _ _ => O) (fun _ _ z => z)
              (fun _ _ => O) (fun _ l => length l) labels_type labels 3 quiet
              eq_refl eq_refl labels_wf eq_refl)
    as (y & w' & Hrun & He & _).
  exists y, w'. split; [exact Hrun | exact He].
Defined.

End InboundFacts.

(** ** Loading: the return code and the pending exception *)

Module LoadReportFacts.
Import Registry Load LoadFacts.

Lemma pending_throw_exception reason w : pending (throw_exception reason w) <> None.
Proof. unfold throw_exception. destruct (ExceptionCheck w); discriminate. Qed.

Lemma register_functions_pending rt :
  RegisterNatives_failure rt < 0 ->
  forall table w, exists w1 r,
    register_functions rt table w = (w1, Return r)
    /\ match r with
       | None => pending w1 = pending w
       | Some _ => pending w1 <> None
       end.
Proof.
  intros Hneg. induction table as [|[class_name bindings] rest IH]; intros w.
  - exists w, None. auto.
  - simpl. unfold bind, FindClass_nothrow, JNI_RegisterNatives, call, modify, ret, bind.
    simpl. destruct (class_exists rt class_name); simpl.
    + destruct (accepts rt class_name bindings); simpl.
      * destruct (IH (add_natives (map (JNINativeMethod class_name) bindings)
                        (emit [RegisterNatives class_name (length bindings)]
                           (emit [FindClass class_name] w))))
          as (w1 & r & Hrun & Hr).
        exists w1, r. rewrite Hrun. split; [reflexivity|]. exact Hr.
      * assert (Hz : Z.eqb (RegisterNatives_failure rt) JNI_OK = false).
        { apply Z.eqb_neq. unfold JNI_OK. lia. }
        rewrite Hz. do 2 eexists. split; [reflexivity|]. discriminate.
    + do 2 eexists. split; [reflexivity|]. apply pending_throw_exception.
Qed.

Lemma check_fields_pending rt class_name : forall bindings w, exists w1 r,
  check_fields rt class_name bindings w = (w1, Return r)
  /\ match r with
     | None => pending w1 = pending w
     | Some _ => pending w1 <> None
     end.
Proof.
  induction bindings as [|b rest IH]; intros w.
  - exists w, None. auto.
  - simpl. unfold bind, call, modify, ret. simpl.
    destruct (field_declared rt class_name (any_name b) (any_signature b)); simpl.
    + destruct (IH (emit [GetFieldID (any_name b) (any_signature b)] w))
        as (w1 & r & Hrun & Hr).
      exists w1, r. rewrite Hrun. auto.
    + do 2 eexists. split; [reflexivity|]. apply pending_throw_exception.
Qed.

Lemma check_properties_pending rt : forall table w, exists w1 r,
  check_properties rt table w = (w1, Return r)
  /\ match r with
     | None => pending w1 = pending w
     | Some _ => pending w1 <> None
     end.
Proof.
  induction table as [|[class_name bindings] rest IH]; intros w.
  - exists w, None. auto.
  - simpl. unfold bind, FindClass_nothrow, call, modify, ret, bind. simpl.
    destruct (class_exists rt class_name); simpl.
    + destruct (check_fields_pending rt class_name bindings (emit [FindClass class_name] w))
        as (w1 & r & Hrun & Hr).
      rewrite Hrun. destruct r as [rc|].
      * exists w1, (Some rc). auto.
      * destruct (IH w1) as (w2 & r2 & Hrun2 & Hr2).
        exists w2, r2. rewrite Hrun2. split; [reflexivity|].
        destruct r2; [exact Hr2|]. now rewrite Hr2, Hr.
    + do 2 eexists. split; [reflexivity|]. apply pending_throw_exception.
Qed.

(** X20: when the registration step returns and the load hands back a
    code, that code is [JNI_VERSION_1_6] exactly when no Java exception is
    pending: a load that succeeds leaves none behind, and every failure
    comes with the exception that tells the virtual machine why.
    Afterwards [getEnv] on the loading thread yields the environment the
    load was called with, without attaching. *)
Theorem load_code_mirrors_exception rt vm initializer e w w0 reg w' rc e' :
  RegisterNatives_failure rt < 0 ->
  GetEnv_rc rt = JNI_OK ->
  initializer Registry.empty w = (w0, Return reg) ->
  java_initialization_impl rt vm initializer e w = (w', Return (rc, e')) ->
  (rc = JNI_VERSION_1_6 <-> pending w' = None)
  /\ Environment.getEnv e' = Some (e', Some Environment.thread_env).
Proof.
  intros Hneg Henv Hinit Hrun.
  unfold java_initialization_impl in Hrun. rewrite Henv in Hrun. simpl in Hrun.
  destruct (Environment.load vm e) as [e1|] eqn:Hload; [|discriminate Hrun].
  destruct (Environment.setEnv Environment.thread_env e1) as [e2|] eqn:Hset;
    [|discriminate Hrun].
  assert (He2 : Environment.getEnv e2 = Some (e2, Some Environment.thread_env)).
  { unfold Environment.load in Hload. destruct (Environment._vm e); [discriminate|].
    injection Hload as <-. unfold Environment.setEnv in Hset. simpl in Hset.
    destruct (Environment._env e) as [x|].
    - destruct (Nat.eqb x Environment.thread_env); [|discriminate].
      now injection Hset as <-.
    - now injection Hset as <-. }
  unfold load_body, bind in Hrun. rewrite Hinit in Hrun.
  destruct (register_functions_pending rt Hneg (function_bindings reg) w0)
    as (w1 & r1 & Hreg & Hr1).
  rewrite Hreg in Hrun.
  assert (Herr : JNI_ERR <> JNI_VERSION_1_6) by discriminate.
  destruct r1 as [rc1|].
  - unfold ret in Hrun. injection Hrun as <- <- <-. split; [|exact He2].
    split; [|contradiction].
    intros ->.
    destruct (register_functions_spec rt Hneg (function_bindings reg) w0)
      as (w1' & r1' & Hreg' & _ & Hr1').
    rewrite Hreg in Hreg'. injection Hreg' as <- <-.
    destruct Hr1' as [_ [H | H]]; [discriminate H|].
    rewrite <- H in Hneg. unfold JNI_VERSION_1_6 in Hneg. lia.
  - unfold ExceptionCheck in Hrun. rewrite Hr1 in Hrun.
    destruct (pending w0) as [t|] eqn:Hp.
    + unfold ret in Hrun. injection Hrun as <- <- <-. split; [|exact He2].
      rewrite Hr1. split; [discriminate | discriminate].
    + destruct (check_properties_pending rt (field_bindings reg) w1)
        as (w2 & r2 & Hchk & Hr2).
      rewrite Hchk in Hrun.
      destruct (check_properties_spec rt (field_bindings reg) w1)
        as (w2' & r2' & Hchk' & _ & Hr2').
      rewrite Hchk in Hchk'. injection Hchk' as <- <-.
      destruct r2 as [rc2|]; unfold ret in Hrun; injection Hrun as <- <- <-;
        (split; [|exact He2]).
      * destruct Hr2' as [_ ->]. split; [discriminate | contradiction].
      * rewrite Hr2, Hr1. split; reflexivity.
Qed.

(** A virtual machine in which every registered class, method and field
    resolves. *)
Definition everything_declared : runtime :=
  {| GetEnv_rc := JNI_OK;
     class_exists := fun _ => true;
     native_declared := fun _ _ _ => true;
     RegisterNatives_failure := JNI_ERR;
     field_declared := fun _ _ _ => true |}.

Lemma load_code_mirrors_exception_witness :
  exists w' e',
    java_initialization_impl everything_declared 7%nat (fun _ => ret two_classes)
      loading_thread Wire.quiet = (w', Return (JNI_VERSION_1_6, e'))
    /\ pending w' = None.
Proof.
  destruct (java_initialization_impl everything_declared 7%nat (fun _ => ret two_classes)
              loading_thread Wire.quiet) as [w' out] eqn:Hrun.
  assert (Hout : out = Return (JNI_VERSION_1_6,
            {| Environment._vm := Some 7%nat;
               Environment._env := Some Environment.thread_env;
               Environment._attached := false;
               Environment.vm_side := Environment.vm_side loading_thread;
               Environment.calls := [] |})).
  { vm_compute in Hrun. now injection Hrun as _ <-. }
  subst out.
  destruct (load_code_mirrors_exception everything_declared 7%nat
              (fun _ => ret two_classes) loading_thread Wire.quiet Wire.quiet
              two_classes w' JNI_VERSION_1_6 _
              ltac:(vm_compute; reflexivity) eq_refl eq_refl Hrun) as [[Hok _] _].
  exists w'. eexists. split; [reflexivity | exact (Hok eq_refl)].
Defined.

End LoadReportFacts.

(** ** Data classes: there and back *)

Module DataClassRoundTrip.
Import Wire DataClass MonadFacts DataClassFacts.

Section RoundTrip.
Context {T : Type}.
Variable type_sig : string.
Variable default_object : T.

(** Assigning a member and reading it gives what was assigned. *)
Definition own (r : registration T) : Prop :=
  forall v t, member_get (r_member r) (member_set (r_member r) v t) = v.

(** Assigning [r'] leaves [r] as it was. *)
Definition apart (r r' : registration T) : Prop :=
  forall v t, member_get (r_member r) (member_set (r_member r') v t)
              = member_get (r_member r) t.

(** Registrations of distinct data members under distinct names. *)
Inductive independent : list (registration T) -> Prop :=
  | independent_nil : independent []
  | independent_cons r regs :
      own r ->
      Forall (fun r' => apart r r' /\ r_name r' <> r_name r) regs ->
      independent regs ->
      independent (r :: regs).

(** The member [r] of [x] converts to a Java value that the field can
    hold, and that value converts back to [n]. *)
Definition field_returns (x : T) (r : registration T) (n : r_native r) : Prop :=
  exists j c1 c2,
    emits (java_value (r_ArgType r) (member_get (r_member r) x)) j c1
    /\ of_field (r_ArgType r) (to_field (r_ArgType r) j) = Some j
    /\ emits (native_value (r_ArgType r) j) n c2.

(** The field of [r] in [fs] holds what the member of [x] converts to. *)
Definition holds (x : T) (fs : list (string * string * jvalue)) (r : registration T)
    : Prop :=
  exists j c1,
    emits (java_value (r_ArgType r) (member_get (r_member r) x)) j c1
    /\ lookup_field (r_name r) (r_sig r) fs = Some (to_field (r_ArgType r) j).

Lemma java_loop_holds x regs : forall class fs,
  independent regs ->
  Forall (declares fs) regs ->
  Forall (fun r => exists n, field_returns x r n) regs ->
  exists fs' cs,
    emits (java_loop x (map binding_of regs) (JData class fs)) (JData class fs') cs
    /\ Forall (holds x fs') regs
    /\ (forall f s, ~ In f (map r_name regs) -> lookup_field f s fs' = lookup_field f s fs).
Proof.
  induction regs as [|r regs IH]; intros class fs Hind Hdecl Hret.
  - exists fs, []. split; [apply emits_ret|]. split; [constructor | auto].
  - inversion Hind as [|? ? Hown Hapart Hind']; subst.
    inversion Hdecl as [|? ? Hd Hdecl']; subst.
    inversion Hret as [|? ? (n & j & c1 & c2 & Hj & Hof & Hn) Hret']; subst.
    destruct (IH class (store_field (r_name r) (r_sig r) (to_field (r_ArgType r) j) fs))
      as (fs' & cs & Hloop & Hholds & Hother); [exact Hind' | | exact Hret' |].
    { eapply Forall_impl; [exact Hdecl'|]. intros r' Hr'. now apply lookup_store_present. }
    exists fs'. eexists. split; [|split].
    + simpl. eapply emits_bind.
      { unfold getField. eapply emits_bind; [apply emits_call|].
        destruct Hd as [v0 Hv0]. simpl. unfold r_sig in Hv0. rewrite Hv0.
        apply emits_ret. }
      eapply emits_bind.
      { unfold java_field_value. eapply emits_bind; [exact Hj|].
        eapply emits_bind; [apply emits_call | apply emits_ret]. }
      exact Hloop.
    + constructor; [|exact Hholds].
      exists j, c1. split; [exact Hj|].
      rewrite Hother.
      * now apply lookup_store_same.
      * intros Hin. apply in_map_iff in Hin as (r' & Heq & Hin).
        rewrite Forall_forall in Hapart.
        apply list_elem_of_In in Hin.
        destruct (Hapart r' Hin) as [_ Hne]. contradiction.
    + intros f s Hnot. rewrite Hother by (intros Hin; apply Hnot; now right).
      apply lookup_store_other. intros ->. apply Hnot. now left.
Qed.

Lemma inbound_exists x fs regs :
  independent regs ->
  Forall (holds x fs) regs ->
  Forall (fun r => exists n, field_returns x r n) regs ->
  forall t, exists t' blocks,
    inbound fs regs t t' blocks
    /\ Forall (fun r => field_returns x r (member_get (r_member r) t')) regs.
Proof.
  induction 1 as [|r regs Hown Hapart Hind IH]; intros Hholds Hret t.
  - exists t, []. split; constructor.
  - inversion Hholds as [|? ? (j0 & c0 & Hj0 & Hlook) Hholds']; subst.
    inversion Hret as [|? ? (n & j & c1 & c2 & Hj & Hof & Hn) Hret']; subst.
    destruct (emits_fun _ _ _ _ _ Hj0 Hj) as [-> _].
    destruct (IH Hholds' Hret' (member_set (r_member r) n t)) as (t' & blocks & Hin & Hall).
    exists t'. eexists. split.
    + eapply inbound_cons; eassumption.
    + constructor; [|exact Hall].
      assert (Hframe : member_get (r_member r) t'
                       = member_get (r_member r) (member_set (r_member r) n t)).
      { eapply inbound_frame; [exact Hin|].
        intros r' v t0 Hr'. rewrite Forall_forall in Hapart.
        apply list_elem_of_In in Hr'. now apply (Hapart r' Hr'). }
      rewrite Hframe, Hown. exists j, c1, c2. auto.
Qed.

(** X21: a native object converted to its Java data class and back.
    With distinct members registered under distinct names that the Java
    class declares, and each member's own conversion defined there and
    back, both conversions return, and in the object that comes back
    every registered member holds what its own conversion there and back
    returns for the member of the original (the original's value where
    that conversion is exact), while every other member holds the value
    the default constructor gives it. *)
Theorem data_class_round_trip decl regs x :
  independent regs ->
  Forall (declares (fields_of (zero_object type_sig decl))) regs ->
  Forall (fun r => exists n, field_returns x r n) regs ->
  exists obj x' c c',
    emits (java_value (data_class type_sig default_object decl regs) x) obj c
    /\ emits (native_value (data_class type_sig default_object decl regs) obj) x' c'
    /\ Forall (fun r => field_returns x r (member_get (r_member r) x')) regs
    /\ (forall U (u : member T U),
          (forall r v t0, In r regs ->
              member_get u (member_set (r_member r) v t0) = member_get u t0) ->
          member_get u x' = member_get u default_object).
Proof.
  intros Hind Hdecl Hret.
  destruct (java_loop_holds x regs type_sig _ Hind Hdecl Hret)
    as (fs' & cs & Hout & Hholds & _).
  destruct (inbound_exists x fs' regs Hind Hholds Hret default_object)
    as (x' & blocks & Hin & Hall).
  exists (JData type_sig fs'), x'. do 2 eexists. split; [|split; [|split]].
  - unfold data_class. simpl.
    eapply emits_bind; [apply emits_call|].
    eapply emits_bind; [apply emits_call | exact Hout].
  - unfold data_class. simpl.
    eapply emits_bind; [apply emits_call | apply native_loop_emits; exact Hin].
  - exact Hall.
  - intros U u Hframe. eapply inbound_frame; eassumption.
Qed.

(** *** A field the Java class does not declare *)

Lemma getField_missing obj name sig w :
  lookup_field name sig (fields_of obj) = None ->
  exists w' e, getField obj name sig w = (w', Throw (ThrowJava e)).
Proof.
  intros H. unfold getField, bind, call. simpl. rewrite H.
  unfold modify, throw_JavaException, bind, JavaException_ctor. simpl.
  do 2 eexists. reflexivity.
Qed.

Lemma store_field_absent name sig v f s fs :
  lookup_field f s fs = None -> lookup_field f s (store_field name sig v fs) = None.
Proof.
  induction fs as [|[[n s'] v'] fs IH]; simpl; [trivial|].
  destruct (String.eqb n f && String.eqb s' s) eqn:Hfs; [discriminate|].
  intros H. destruct (String.eqb n name && String.eqb s' sig); simpl; rewrite Hfs; auto.
Qed.

Lemma native_loop_missing class fs (regs : list (registration T)) r :
  In r regs -> lookup_field (r_name r) (r_sig r) fs = None ->
  forall t w t', snd (native_loop (JData class fs) (map binding_of regs) t w) <> Return t'.
Proof.
  intros Hin Hmiss. induction regs as [|r0 regs IH]; [contradiction|].
  intros t w t'. simpl. unfold bind.
  destruct (getField (JData class fs) (r_name r0) (wire_sig (r_ArgType r0)) w)
    as [w1 [fld| |]] eqn:Hg; try discriminate.
  destruct Hin as [-> | Hin].
  { destruct (getField_missing (JData class fs) _ _ w Hmiss) as (w' & e & He).
    unfold r_sig in He. rewrite He in Hg. discriminate Hg. }
  destruct (native_field_value (r_ArgType r0) (JData class fs) fld w1)
    as [w2 [n| |]]; try discriminate.
  unfold ret. now apply IH.
Qed.

Lemma java_loop_missing x (regs : list (registration T)) r : forall class fs,
  In r regs -> lookup_field (r_name r) (r_sig r) fs = None ->
  forall w obj, snd (java_loop x (map binding_of regs) (JData class fs) w) <> Return obj.
Proof.
  induction regs as [|r0 regs IH]; intros class fs Hin Hmiss; [contradiction|].
  intros w obj. simpl. unfold bind.
  destruct (getField (JData class fs) (r_name r0) (wire_sig (r_ArgType r0)) w)
    as [w1 [fld| |]] eqn:Hg; try discriminate.
  destruct Hin as [-> | Hin].
  { destruct (getField_missing (JData class fs) _ _ w Hmiss) as (w' & e & He).
    unfold r_sig in He. rewrite He in Hg. discriminate Hg. }
  apply getField_returns in Hg. subst fld.
  unfold java_field_value, bind.
  destruct (java_value (r_ArgType r0) (member_get (r_member r0) x) w1)
    as [w2 [j| |]]; try discriminate.
  unfold call, ret. cbn [set_field fst snd].
  apply IH; [exact Hin|]. now apply store_field_absent.
Qed.

Lemma zero_object_absent decl f s :
  ~ In (f, s) decl -> lookup_field f s (fields_of (zero_object type_sig decl)) = None.
Proof.
  simpl. induction decl as [|[n s'] decl IH]; simpl; [reflexivity|].
  intros Hnot. destruct (String.eqb n f && String.eqb s' s) eqn:He.
  - apply andb_prop in He as [Hn Hs]. apply String.eqb_eq in Hn, Hs. subst.
    exfalso. apply Hnot. now left.
  - apply IH. intros Hin. apply Hnot. now right.
Qed.

(** X22: neither conversion of a data class hands back a partly
    converted object.  When a registered field is not among the fields
    of the Java object with the registered name and type signature,
    [native_value] does not return a native object; when the Java class
    does not declare it, or cannot be found, [java_value] does not
    return a Java object.  (The missing field is reported by
    [NoSuchFieldError] carried out of the conversion by [JavaException],
    unless an earlier field already failed.) *)
Theorem missing_field_never_converts decl (regs : list (registration T)) r :
  In r regs ->
  (forall class fs w t',
      lookup_field (r_name r) (r_sig r) fs = None ->
      snd (native_value (data_class type_sig default_object decl regs) (JData class fs) w)
      <> Return t')
  /\ (~ In (r_name r, r_sig r) decl ->
      forall x w obj,
        snd (java_value (data_class type_sig default_object decl regs) x w) <> Return obj)
  /\ (forall x w obj,
        snd (java_value (DataClassArgType type_sig None default_object (map binding_of regs))
               x w) <> Return obj).
Proof.
  intros Hin. split; [|split].
  - intros class fs w t' Hmiss. unfold data_class. simpl. unfold bind, call.
    now apply native_loop_missing with (r := r).
  - intros Hnot x w obj. unfold data_class. simpl. unfold bind, call.
    apply (java_loop_missing x regs r type_sig _ Hin).
    now apply zero_object_absent.
  - intros x w obj. simpl. unfold bind, call, modify, throw_JavaException, bind,
      JavaException_ctor. simpl. discriminate.
Qed.

End RoundTrip.

(** The data class [Reading] of the earlier scenario, there and back:
    [value] and [unit] come back, [scratch] is the default 7. *)
Lemma data_class_round_trip_witness :
  exists obj x' c c',
    emits (java_value (data_class Reading_sig Reading_default Reading_declared Reading_fields)
             {| value := 5; scratch := 99; unit_ := "cm" |}) obj c
    /\ emits (native_value
                (data_class Reading_sig Reading_default Reading_declared Reading_fields) obj)
         x' c'
    /\ value x' = 5 /\ unit_ x' = "cm"%string /\ scratch x' = 7.
Proof.
  destruct (data_class_round_trip Reading_sig Reading_default Reading_declared
              Reading_fields {| value := 5; scratch := 99; unit_ := "cm" |})
    as (obj & x' & c & c' & Hout & Hin & Hall & Hframe).
  - apply independent_cons.
    + intros v t. reflexivity.
    + constructor; [|constructor].
      split; [intros v t; reflexivity | discriminate].
    + apply independent_cons; [intros v t; reflexivity | constructor | constructor].
  - repeat constructor; eexists; reflexivity.
  - repeat constructor.
    + exists 5, 5, [], []. split; [apply emits_ret|]. split; [reflexivity | apply emits_ret].
    + exists "cm"%string, (JString "cm"), [NewStringUTF],
        [GetStringUTFLength; GetStringUTFChars].
      split; [intros w; reflexivity|]. split; [reflexivity|].
      apply (InboundFacts.string_native_value_emits LP64 "cm").
  - exists obj, x', c, c'. split; [exact Hout|]. split; [exact Hin|].
    inversion Hall as [|? ? (j1 & a1 & b1 & Hj1 & _ & Hn1) Hall']; subst.
    inversion Hall' as [|? ? (j2 & a2 & b2 & Hj2 & _ & Hn2) _]; subst.
    simpl in *.
    assert (E1 : j1 = 5) by (specialize (Hj1 quiet); now injection Hj1).
    subst j1.
    assert (E2 : value x' = 5) by (specialize (Hn1 quiet); now injection Hn1).
    assert (E3 : j2 = JString "cm") by (specialize (Hj2 quiet); now injection Hj2).
    subst j2.
    assert (E4 : unit_ x' = "cm"%string) by (specialize (Hn2 quiet); now injection Hn2).
    split; [exact E2|]. split; [exact E4|].
    apply (Hframe Z Reading_scratch).
    intros r v t0 [<- | [<- | []]]; reflexivity.
Defined.

(** A Java object of another class, without the field [unit]. *)
Lemma missing_field_never_converts_witness :
  snd (native_value (data_class Reading_sig Reading_default Reading_declared Reading_fields)
         (JData "com/example/Other" [("value", "I", JPrimV 5)]%string) quiet)
  <> Return {| value := 5; scratch := 7; unit_ := "mm" |}.
Proof.
  refine (proj1 (missing_field_never_converts Reading_sig Reading_default Reading_declared
                   Reading_fields
                   {| r_ArgType := StringArgType LP64;
                      r_member := Reading_unit; r_name := "unit" |} _) _ _ _ _ _).
  - right. now left.
  - reflexivity.
Defined.

End DataClassRoundTrip.

(** ** The handle protocol as a whole *)

Module ProtocolFacts.
Import Wire Adapter Lifecycle AdapterFacts LifecycleFacts.

(** Holders and instances in step: every non-null handle is the address
    of a live instance, no two objects hold the same one, every live
    instance is held by an object, and null is no instance. *)
Record tidy (w : world) : Prop := {
  held_live : forall id p, nativePointer w !! id = Some p -> p <> 0 -> p ∈ live w;
  held_once : forall id id' p,
    nativePointer w !! id = Some p -> nativePointer w !! id' = Some p -> p <> 0 -> id = id';
  live_held : forall p, p ∈ live w -> exists id, nativePointer w !! id = Some p;
  null_dead : 0 ∉ live w
}.

(** The exceptions the adapters catch: a [std::exception], or the
    wrapper of a Java exception with the reference it has captured. *)
Definition handled (t : thrown) : Prop :=
  (exists what, t = ThrowStd what)
  \/ (exists th m, t = ThrowJava {| ex := Some th; message := m |}).

(** A computation that settles in [w]: it returns or throws an
    exception the adapters catch, and does not itself make, close or
    destroy bound objects. *)
Definition settles {A} (m : M A) (w : world) : Prop :=
  exists w' o,
    m w = (w', o)
    /\ live w' = live w /\ nativePointer w' = nativePointer w
    /\ ((exists r, o = Return r) \/ (exists t, o = Throw t /\ handled t)).

(** A conversion, a constructor or a method that settles wherever it
    is run. *)
Definition plain {A} (m : M A) : Prop := forall w, settles m w.

(** What Java code does with a bound class: it calls the factory
    method, [close], or an instance method, with arguments of any types,
    on objects it has. *)
Inductive java_call :=
  | New {Ns Js} (Args : ArgPack Ns Js) (ctor : Ns -> M unit) (args : Js)
  | Close (id : nat)
  | Method {Ns Js NR JR} (id : nat) (Args : ArgPack Ns Js) (R : ArgType NR JR)
      (java_default : JR) (func : Z -> Ns -> M NR) (args : Js).

Section Protocol.
Variable alloc : allocator.
Variable c : holder_class.

Definition perform (k : java_call) : M unit :=
  match k with
  | New Args ctor args => let* _ := invoke_create alloc c Args ctor args in ret tt
  | Close id => invoke_destroy (JHolder id)
  | Method id Args R java_default func args =>
      let* _ := invoke_member (hc_name c) Args R java_default func (JHolder id) args in
      ret tt
  end.

(** A call Java code can make in [w]: on an object that exists; the
    arguments and the result are of types whose conversions are plain
    (they are not themselves bound objects), and so are the constructor
    and the method. *)
Definition allowed (k : java_call) (w : world) : Prop :=
  match k with
  | New Args ctor args => plain (pack_native Args args) /\ forall a, plain (ctor a)
  | Close id => id ∈ dom (nativePointer w)
  | Method id Args R _ func args =>
      id ∈ dom (nativePointer w)
      /\ plain (pack_native Args args)
      /\ (forall p a, plain (func p a))
      /\ forall r, plain (java_value R r)
  end.

(** The calls one after the other, as long as they return; the Java
    code catches the exception a call has raised before it goes on. *)
Fixpoint perform_all (ks : list java_call) : M unit :=
  match ks with
  | [] => ret tt
  | k :: ks' =>
      let* _ := perform k in
      let* _ := modify ExceptionClear in
      perform_all ks'
  end.

(** Each call is one Java code can make when its turn comes. *)
Fixpoint permitted (ks : list java_call) (w : world) : Prop :=
  match ks with
  | [] => True
  | k :: ks' =>
      allowed k w
      /\ forall w1, perform k w = (w1, Return tt) -> permitted ks' (ExceptionClear w1)
  end.

Hypothesis alloc_sound : sound alloc.
Hypothesis c_bindable : bindable c.

Lemma tidy_same w w' :
  live w' = live w -> nativePointer w' = nativePointer w -> tidy w -> tidy w'.
Proof using Type.
  intros Hl Hn [H1 H2 H3 H4]. split; rewrite ?Hl, ?Hn; assumption.
Qed.

Lemma live_exception_handler what w : live (exception_handler what w) = live w.
Proof using Type. unfold exception_handler. now destruct (negb _). Qed.

Lemma nativePointer_exception_handler what w :
  nativePointer (exception_handler what w) = nativePointer w.
Proof using Type. unfold exception_handler. now destruct (negb _). Qed.

Lemma tidy_created w id ptr :
  tidy w -> id ∉ dom (nativePointer w) -> ptr <> 0 -> ptr ∉ live w ->
  forall w',
    nativePointer w' = <[id := ptr]> (nativePointer w) ->
    live w' = {[ptr]} ∪ live w ->
    tidy w'.
Proof using Type.
  intros [H1 H2 H3 H4] Hid Hnz Hfresh w' Hn Hl.
  apply not_elem_of_dom in Hid.
  split; rewrite ?Hn, ?Hl.
  - intros id0 p Hp Hp0. apply elem_of_union.
    destruct (decide (id0 = id)) as [->|Hne].
    + rewrite lookup_insert_eq in Hp. injection Hp as <-. left. now apply elem_of_singleton.
    + rewrite lookup_insert_ne in Hp by congruence. right. eauto.
  - intros id0 id1 p Hp0 Hp1 Hnz0.
    destruct (decide (id0 = id)) as [->|Hne0]; destruct (decide (id1 = id)) as [->|Hne1];
      try reflexivity.
    + rewrite lookup_insert_eq in Hp0. injection Hp0 as <-.
      rewrite lookup_insert_ne in Hp1 by congruence.
      exfalso. apply Hfresh. eauto.
    + rewrite lookup_insert_eq in Hp1. injection Hp1 as <-.
      rewrite lookup_insert_ne in Hp0 by congruence.
      exfalso. apply Hfresh. eauto.
    + rewrite lookup_insert_ne in Hp0, Hp1 by congruence. eauto.
  - intros p Hp. apply elem_of_union in Hp as [Hp | Hp].
    + apply elem_of_singleton in Hp. subst p. exists id. apply lookup_insert_eq.
    + destruct (H3 p Hp) as [id0 Hid0]. exists id0.
      rewrite lookup_insert_ne; [exact Hid0|]. intros <-. congruence.
  - intros Hin. apply elem_of_union in Hin as [Hin | Hin]; [|contradiction].
    apply elem_of_singleton in Hin. congruence.
Qed.

Lemma tidy_closed w id ptr :
  tidy w -> nativePointer w !! id = Some ptr -> ptr <> 0 ->
  forall w',
    nativePointer w' = <[id := 0]> (nativePointer w) ->
    live w' = live w ∖ {[ptr]} ->
    tidy w'.
Proof using Type.
  intros [H1 H2 H3 H4] Hp Hnz w' Hn Hl.
  split; rewrite ?Hn, ?Hl.
  - intros id0 p Hp0 Hnz0.
    destruct (decide (id0 = id)) as [->|Hne].
    + rewrite lookup_insert_eq in Hp0. congruence.
    + rewrite lookup_insert_ne in Hp0 by congruence.
      apply elem_of_difference. split; [eauto|].
      intros Heq. apply elem_of_singleton in Heq. subst p.
      apply Hne. eauto.
  - intros id0 id1 p Hp0 Hp1 Hnz0.
    destruct (decide (id0 = id)) as [->|Hne0];
      [rewrite lookup_insert_eq in Hp0; congruence|].
    destruct (decide (id1 = id)) as [->|Hne1];
      [rewrite lookup_insert_eq in Hp1; congruence|].
    rewrite lookup_insert_ne in Hp0, Hp1 by congruence. eauto.
  - intros p Hin. apply elem_of_difference in Hin as [Hin Hne].
    destruct (H3 p Hin) as [id0 Hid0]. exists id0.
    rewrite lookup_insert_ne; [exact Hid0|].
    intros <-. apply Hne. apply elem_of_singleton. congruence.
  - intros Hin. apply elem_of_difference in Hin as [Hin _]. contradiction.
Qed.

Lemma settles_bind {A B} (m : M A) (k : A -> M B) w :
  settles m w ->
  (forall a w', m w = (w', Return a) -> live w' = live w ->
                nativePointer w' = nativePointer w -> settles (k a) w') ->
  settles (bind m k) w.
Proof using Type.
  intros (w' & o & Hrun & Hl & Hn & Ho) Hk. unfold settles, bind. rewrite Hrun.
  destruct Ho as [[r ->] | (t & -> & Ht)].
  - destruct (Hk r w' Hrun Hl Hn) as (w2 & o2 & Hrun2 & Hl2 & Hn2 & Ho2).
    exists w2, o2. rewrite Hrun2. repeat split; [congruence | congruence | exact Ho2].
  - exists w', (Throw t). repeat split; try assumption. right. now exists t.
Qed.

(** An adapter whose [try] block settles returns to the virtual
    machine, bound objects untouched. *)
Lemma catch_settles {JR} (d : JR) (body : M JR) w :
  settles body w ->
  exists w' j,
    catch_at_boundary d body w = (w', Return j)
    /\ live w' = live w /\ nativePointer w' = nativePointer w.
Proof using Type.
  intros (w' & o & Hrun & Hl & Hn & Ho). unfold catch_at_boundary. rewrite Hrun.
  destruct Ho as [[r ->] | (t & -> & [[what ->] | (th & m & ->)])].
  - now exists w', r.
  - exists (exception_handler what w'), d. split; [reflexivity|].
    now rewrite live_exception_handler, nativePointer_exception_handler.
  - exists (set_pending (Some th) w'), d. repeat split; assumption.
Qed.

Lemma perform_tidy k w :
  tidy w -> allowed k w -> exists w', perform k w = (w', Return tt) /\ tidy w'.
Proof using alloc_sound c_bindable.
  intros Ht Hk. destruct k as [Ns Js Args ctor args | id | Ns Js NR JR id Args R d func args];
    simpl in Hk.
  - destruct Hk as [Hpack Hctor].
    destruct (Hpack w) as (w1 & o & Hargs & Hl & Hn & Ho).
    assert (Hfail : forall w2 t,
      create_body alloc c Args ctor args w = (w2, Throw t) -> handled t ->
      live w2 = live w -> nativePointer w2 = nativePointer w ->
      exists w', perform (New Args ctor args) w = (w', Return tt) /\ tidy w').
    { intros w2 t Hbody Hh Hl2 Hn2.
      destruct (catch_settles JNull (create_body alloc c Args ctor args) w)
        as (w3 & j & Hrun & Hl3 & Hn3).
      { exists w2, (Throw t). repeat split; try assumption. right. now exists t. }
      exists w3. split.
      - simpl. unfold bind, invoke_create. now rewrite Hrun.
      - now apply (tidy_same w). }
    destruct Ho as [[a ->] | (t & -> & Hh)].
    + destruct (Hctor a w1) as (w2 & o2 & Hc & Hl2 & Hn2 & Ho2).
      destruct Ho2 as [[[] ->] | (t & -> & Hh)].
      * pose proof (create_bindable alloc c Args ctor args w w1 a w2
                      c_bindable Hargs Hc) as Hrun.
        eexists. split.
        -- simpl. unfold bind. now rewrite Hrun.
        -- apply (tidy_created w (new_object alloc (dom (nativePointer w2)))
                    (new_address alloc (live w2)) Ht).
           ++ rewrite Hn2, Hn. apply alloc_sound.
           ++ apply alloc_sound.
           ++ rewrite Hl2, Hl. apply alloc_sound.
           ++ simpl. rewrite Hn2, Hn. apply insert_insert_eq.
           ++ simpl. now rewrite Hl2, Hl.
      * apply (Hfail w2 t); [|exact Hh|congruence|congruence].
        unfold create_body, new_instance, bind. now rewrite Hargs, Hc.
    + apply (Hfail w1 t); [|exact Hh|exact Hl|exact Hn].
      unfold create_body, bind. now rewrite Hargs.
  - apply elem_of_dom in Hk as [p Hp].
    destruct (decide (p = 0)) as [->|Hnz].
    + eexists. split; [exact (dispose_disposed id w Hp)|].
      apply (tidy_same w); [reflexivity | reflexivity | exact Ht].
    + eexists. split;
        [exact (dispose_live id p w Hp Hnz (held_live w Ht id p Hp Hnz))|].
      apply (tidy_closed w id p Ht Hp Hnz); reflexivity.
  - destruct Hk as (Hdom & Hpack & Hfunc & Hres).
    apply elem_of_dom in Hdom as [p Hp].
    destruct (decide (p = 0)) as [->|Hnz].
    + eexists. split.
      * simpl. unfold bind.
        now rewrite (member_on_disposed (hc_name c) Args R d func id args w Hp).
      * apply (tidy_same w);
          [now rewrite live_exception_handler
          | now rewrite nativePointer_exception_handler | exact Ht].
    + pose proof (held_live w Ht id p Hp Hnz) as Hlive.
      destruct (catch_settles d
                  (member_body (hc_name c) Args R func (JHolder id) args) w)
        as (w3 & j & Hrun & Hl3 & Hn3).
      { unfold member_body. unfold settles, bind at 1.
        rewrite (native_pointer_holder _ _ _ Hp).
        destruct (Z.eqb_spec p 0) as [?|_]; [contradiction|].
        assert (Hrest : settles
          (let* a := pack_native Args args in
           let* result :=
             (fun w0 => if decide (p ∈ live w0) then func p a w0 else (w0, Undefined)) in
           java_value R result) (emit pointer_calls w)).
        { apply settles_bind; [apply Hpack|]. intros a w1 _ Hl1 _.
          apply settles_bind; [|intros r w2 _ _ _; apply Hres].
          unfold settles. rewrite decide_True by (rewrite Hl1; exact Hlive).
          apply Hfunc. }
        destruct Hrest as (w1 & o & Hrun & Hl & Hn & Ho).
        exists w1, o. repeat split; assumption. }
      exists w3. split.
      * simpl. unfold bind, invoke_member. now rewrite Hrun.
      * now apply (tidy_same w).
Qed.

(** X23: the handle protocol is safe and leaks nothing, as long as
    bound objects are not themselves passed as arguments.  From a world
    in which holders and instances are in step, any sequence of calls of
    the factory method, of [close] and of instance methods, on objects
    that exist, in any order and any number of times, runs to its end:
    every call returns to the virtual machine, none has undefined
    behaviour (no instance is used or deleted after its deletion), and
    afterwards holders and instances are in step again, so that every
    instance still alive is held by an object whose [close] will delete
    it.  The calls may have parameters and results of any types whose
    conversions settle (they return or throw, and touch no bound object),
    and the constructors and methods may return or throw an exception
    derived from [std::exception]. *)
Theorem handle_protocol_is_safe ks : forall w,
  tidy w -> permitted ks w ->
  exists w', perform_all ks w = (w', Return tt) /\ tidy w'.
Proof using alloc_sound c_bindable.
  induction ks as [|k ks IH]; intros w Ht Hp.
  - exists w. split; [reflexivity | exact Ht].
  - destruct Hp as [Hk Hrest].
    destruct (perform_tidy k w Ht Hk) as (w1 & Hrun & Ht1).
    destruct (IH (ExceptionClear w1)) as (w2 & Hrun2 & Ht2).
    + apply (tidy_same w1); [reflexivity | reflexivity | exact Ht1].
    + exact (Hrest w1 Hrun).
    + exists w2. split; [|exact Ht2].
      simpl. unfold bind. rewrite Hrun. unfold modify. exact Hrun2.
Qed.

End Protocol.

Lemma quiet_tidy : tidy quiet.
Proof.
  split; simpl.
  - intros id p Hp. change (gmap_empty !! id) with ((∅ : gmap nat Z) !! id) in Hp.
    rewrite lookup_empty in Hp. discriminate.
  - intros id id' p Hp. change (gmap_empty !! id) with ((∅ : gmap nat Z) !! id) in Hp.
    rewrite lookup_empty in Hp. discriminate.
  - intros p Hp. apply not_elem_of_empty in Hp. contradiction.
  - apply not_elem_of_empty.
Qed.

Lemma plain_ret {A} (a : A) : plain (ret a).
Proof. intros w. exists w, (Return a). repeat split. left. now exists a. Qed.

Lemma plain_throw {A} what : plain (@throw A (ThrowStd what)).
Proof.
  intros w. exists w, (Throw (ThrowStd what)). repeat split.
  right. eexists. split; [reflexivity|]. left. now exists what.
Qed.

(** [void Sample::resize(int)]: nothing that matters here. *)
Definition resize : Z -> Z * unit -> M unit := fun _ _ => ret tt.

Definition one_int : ArgPack (Z * unit) (Z * unit) :=
  pack_in [O] (one_more (FundamentalArgType LP64 true (fun _ _ z => z) PInt) no_more).

Lemma plain_one_int args : plain (pack_native one_int args).
Proof.
  intros w. exists w, (Return (cast (Signed 32) (fst args), tt)).
  repeat split. left. eexists. reflexivity.
Qed.

(** An object is made, used, closed, used again and closed again; then
    the constructor of a second one throws. *)
Definition session : list java_call :=
  [New pack_nil Sample_ctor tt;
   Method O one_int VoidResult tt resize (7, tt);
   Close O;
   Method O one_int VoidResult tt resize (7, tt);
   Close O;
   New pack_nil throwing_ctor tt].

Lemma handle_protocol_is_safe_witness :
  exists w',
    perform_all first_free Sample_class session quiet = (w', Return tt)
    /\ tidy w'
    /\ live w' = ∅
    /\ nativePointer w' = {[ O := 0 ]}.
Proof.
  destruct (handle_protocol_is_safe first_free Sample_class first_free_sound Sample_bindable
              session quiet quiet_tidy) as (w' & Hrun & Ht).
  - assert (Hmethod : forall w, O ∈ dom (nativePointer w) ->
      allowed (Method O one_int VoidResult tt resize (7, tt)) w).
    { intros w Hdom. split; [exact Hdom|]. split; [apply plain_one_int|].
      split; intros; apply plain_ret. }
    split; [split; [apply plain_ret | intros; apply plain_ret]|].
    intros w1 H1. vm_compute in H1. injection H1 as <-.
    split; [apply Hmethod; apply elem_of_dom; eexists; vm_compute; reflexivity|].
    intros w2 H2. vm_compute in H2. injection H2 as <-.
    split; [unfold allowed; apply elem_of_dom; eexists; vm_compute; reflexivity|].
    intros w3 H3. vm_compute in H3. injection H3 as <-.
    split; [apply Hmethod; apply elem_of_dom; eexists; vm_compute; reflexivity|].
    intros w4 H4. vm_compute in H4. injection H4 as <-.
    split; [unfold allowed; apply elem_of_dom; eexists; vm_compute; reflexivity|].
    intros w5 H5.
    split; [split; [apply plain_ret | intros; apply plain_throw]|].
    intros w6 _. exact I.
  - exists w'. split; [exact Hrun|]. split; [exact Ht|].
    vm_compute in Hrun. injection Hrun as <-. split; vm_compute; reflexivity.
Defined.

End ProtocolFacts.

(** ** Sets arriving from Java *)

Module SetInboundFacts.
Import Traits Wire MonadFacts RoundTripFacts.

Section Insertion.
Context {K : Type}.
Variable less : K -> K -> bool.
Hypothesis less_irrefl : forall a, less a a = false.
Hypothesis less_trans : forall a b c, less a b = true -> less b c = true -> less a c = true.
Hypothesis less_total : forall a b, less a b = false -> less b a = false -> a = b.

Local Abbreviation sorted := (keyed_sorted (fun a : K => a) less).




End Insertion.

Section Inbound.
Variable dm : data_model.
Variable char_signed : bool.
Variable java_slot : string -> jobject -> list jobject -> nat.
Variable number_conversion : string -> string -> Z -> Z.
Variable hash_slot_int : Z -> list Z -> nat.
Variable hash_slot_string : string -> list string -> nat.

Local Abbreviation KeyArg := (KeyArgType dm char_signed number_conversion).
Local Abbreviation ops := (key_ops hash_slot_int hash_slot_string).






End Inbound.


End SetInboundFacts.

(** ** From registration to the installed natives *)

Module CloseFacts.
Import Registry StdMap Load LoadFacts RegistryFacts.

(** The native method behind [close()] of the class bound to [T]. *)
Definition close_method (dm : data_model) (T : ctype) : native_method :=
  {| nm_class := Traits.class_name dm T; nm_name := "close";
     nm_signature := "()V"; nm_entry := object_termination T |}.

(** The tables after the registration calls [before], the declaration
    [native_class<T>] and the registration calls [after]. *)
Definition declared_with (dm : data_model) (T : ctype)
    (before after : list (string * FunctionBinding)) : registry :=
  pushes after (native_class dm T (pushes before Registry.empty)).

Lemma find_In {V} k (v : V) m : find k m = Some v -> In (k, v) m.
Proof.
  induction m as [|[k' v'] m IH]; simpl; [discriminate|].
  destruct (String.eqb_spec k k') as [->|_].
  - intros H. injection H as ->. now left.
  - intros H. right. now apply IH.
Qed.

Lemma close_signature dm : Traits.signature dm (Traits.Plain Void []) = "()V"%string.
Proof. reflexivity. Qed.

Lemma close_is_registered dm T before after :
  exists bs,
    In (Traits.class_name dm T, bs) (function_bindings (declared_with dm T before after))
    /\ In (close_method dm T) (map (JNINativeMethod (Traits.class_name dm T)) bs).
Proof.
  unfold declared_with.
  destruct (pushes_spec before Registry.empty) as [Hwf0 _]; [constructor|].
  set (r0 := pushes before Registry.empty) in *.
  assert (Hwf1 : well_formed (function_bindings (native_class dm T r0))).
  { simpl. now apply update_well_formed. }
  destruct (pushes_spec after (native_class dm T r0) Hwf1) as [_ Hfind].
  specialize (Hfind (Traits.class_name dm T)).
  assert (Hclose : find (Traits.class_name dm T) (function_bindings (native_class dm T r0))
                   = Some (default [] (find (Traits.class_name dm T) (function_bindings r0))
                           ++ [{| name := "close";
                                  signature := Traits.signature dm (Traits.Plain Void []);
                                  is_member := true;
                                  function_entry_point := object_termination T;
                                  friendly_signature :=
                                    Kotlin.friendly dm (Traits.Plain Void []) |}])).
  { simpl. now rewrite find_update_same. }
  rewrite Hclose in Hfind.
  eexists. split.
  - apply find_In. rewrite Hfind. reflexivity.
  - apply in_map_iff. eexists. split; [|apply in_or_app; left; apply in_or_app; right; now left].
    unfold JNINativeMethod, close_method.
    cbn [name signature function_entry_point]. now rewrite close_signature.
Qed.

(** X25: every bound class can be closed.  Whatever else is
    registered before and after, once [native_class<T>] has been
    declared and the load has returned [JNI_VERSION_1_6], the native
    methods installed in the virtual machine include [close] with
    signature [()V] for the class of [T], bound to
    [DestroyObjectAdapter<T>::invoke]. *)
Theorem every_native_class_can_be_closed rt vm dm T before after e w w' e' :
  RegisterNatives_failure rt < 0 ->
  GetEnv_rc rt = JNI_OK ->
  java_initialization_impl rt vm (fun _ => ret (declared_with dm T before after)) e w
    = (w', Return (JNI_VERSION_1_6, e')) ->
  In (close_method dm T) (natives w').
Proof.
  intros Hneg Henv Hrun.
  set (reg := declared_with dm T before after) in *.
  unfold java_initialization_impl in Hrun.
  rewrite Henv in Hrun. simpl in Hrun.
  destruct (Environment.load vm e) as [e1|]; [|discriminate Hrun].
  destruct (Environment.setEnv Environment.thread_env e1) as [e2|]; [|discriminate Hrun].
  unfold load_body, bind, ret in Hrun. 
  destruct (register_functions_spec rt Hneg (function_bindings reg) w)
    as (w1 & r1 & Hreg & Hnat1 & Hr1).
  rewrite Hreg in Hrun.
  destruct r1 as [rc1|].
  { cbn iota in Hrun. injection Hrun as _ Hrc _.
    destruct Hr1 as [_ [-> | ->]]; [discriminate Hrc|].
    rewrite Hrc in Hneg. unfold JNI_VERSION_1_6 in Hneg. lia. }
  destruct Hr1 as [Hall _]. cbn iota beta in Hrun.
  destruct (ExceptionCheck w1); [cbn iota in Hrun; injection Hrun as _ Hrc _; discriminate Hrc|].
  cbn iota in Hrun.
  destruct (check_properties_spec rt (field_bindings reg) w1)
    as (w2 & r2 & Hchk & Hnat2 & Hr2).
  rewrite Hchk in Hrun.
  destruct r2 as [rc2|]; cbn iota in Hrun.
  { injection Hrun as _ Hrc _. destruct Hr2 as [_ ->]. discriminate Hrc. }
  injection Hrun as <- _.
  rewrite Hnat2, Hnat1, (installable_all rt _ Hall).
  apply in_or_app. right.
  destruct (close_is_registered dm T before after) as (bs & Hentry & Hclose).
  unfold all_natives. apply in_flat_map. exists (Traits.class_name dm T, bs).
  split; [exact Hentry | exact Hclose].
Qed.

(** A library that binds one class, loaded where everything resolves. *)
Lemma every_native_class_can_be_closed_witness :
  exists w' e',
    java_initialization_impl LoadReportFacts.everything_declared 7%nat
      (fun _ => ret (declared_with LP64 (NativeClass "demo.Alpha") [] []))
      loading_thread Wire.quiet = (w', Return (JNI_VERSION_1_6, e'))
    /\ In (close_method LP64 (NativeClass "demo.Alpha")) (natives w').
Proof.
  destruct (java_initialization_impl LoadReportFacts.everything_declared 7%nat
              (fun _ => ret (declared_with LP64 (NativeClass "demo.Alpha") [] []))
              loading_thread Wire.quiet) as [w' out] eqn:Hrun.
  assert (Hout : out = Return (JNI_VERSION_1_6,
            {| Environment._vm := Some 7%nat;
               Environment._env := Some Environment.thread_env;
               Environment._attached := false;
               Environment.vm_side := Environment.vm_side loading_thread;
               Environment.calls := [] |})).
  { vm_compute in Hrun. now injection Hrun as _ <-. }
  subst out. exists w'. eexists. split; [reflexivity|].
  exact (every_native_class_can_be_closed LoadReportFacts.everything_declared 7%nat
           LP64 (NativeClass "demo.Alpha") [] [] loading_thread Wire.quiet w' _
           ltac:(vm_compute; reflexivity) eq_refl Hrun).
Defined.

End CloseFacts.
